(** * fluff: indicator calculation and diff engine

    A shallow embedding of [fluff/__init__.py] and the properties of its
    emitter normalisation, calculator construction, windowed queries and
    snapshot diffing.

    Python dictionaries are finite maps ([gmap]); Python exceptions are an
    explicit error result; code that mutates a dictionary in place is
    written in state-passing style, returning the final state of the
    dictionary together with the exception raised, if any.

    The emitted values of the model are [None], integers, strings, dates,
    datetimes and lists of these; floats, booleans and nested containers
    are left out of them.  The numbers the view index returns are Python
    integers or floats (IEEE 754 doubles).  The external collaborators
    (the view index, the clock, [json_format_date], [strptime], date
    arithmetic) are parameters. *)

From Stdlib Require Import PrimFloat SpecFloat FloatOps.
From stdpp Require Import gmap strings list fin_maps.

Local Open Scope Z_scope.

(** ** Python values *)

(** [datetime.date]: equality is componentwise. *)
Record date := Date { year : Z; month : Z; day : Z }.

(** The scalars that occur in emitted values: [None], integers, strings,
    [datetime.date] and [datetime.datetime].  A date never equals a
    datetime, so Python's [==] on these is structural equality. *)
Inductive scalar :=
  | SNone
  | SInt (n : Z)
  | SStr (s : string)
  | SDate (d : date)
  | SDateTime (d : date) (hour minute second : Z).

(** A value is a scalar or a [list] of scalars. *)
Inductive pyval :=
  | PScalar (s : scalar)
  | PList (l : list scalar).

Coercion PScalar : scalar >-> pyval.

(** A [dict] with string keys. *)
Abbreviation pydict := (gmap string pyval).

(** What calculator logic may yield, and what a document stores: a [dict]
    or any other value ([isinstance(v, dict)] is the first test made). *)
Inductive raw :=
  | RDict (d : pydict)
  | RVal (v : pyval).

#[global] Instance date_eq_dec : EqDecision date.
Proof. solve_decision. Defined.
#[global] Instance scalar_eq_dec : EqDecision scalar.
Proof. solve_decision. Defined.
#[global] Instance pyval_eq_dec : EqDecision pyval.
Proof. solve_decision. Defined.
#[global] Instance raw_eq_dec : EqDecision raw.
Proof. solve_decision. Defined.

(** Python truthiness ([if x:]). *)
Definition truthy (v : pyval) : bool :=
  match v with
  | PScalar SNone => false
  | PScalar (SInt n) => negb (n =? 0)%Z
  | PScalar (SStr s) => negb (String.eqb s "")
  | PScalar (SDate _) => true
  | PScalar (SDateTime _ _ _ _) => true
  | PList l => match l with [] => false | _ => true end
  end.

(** ** Exceptions *)

Inductive exn :=
  | KeyError
  | IndexError
  | AttributeError
  | TypeError
  | ValueError
  | AssertionError
  | NotImplementedError
  | OverflowError
  | EmitterTypeError.

Inductive result (A : Type) :=
  | Ok (a : A)
  | Raise (e : exn).

Arguments Ok {A} a.
Arguments Raise {A} e.

(** The same type under a second name, for the functions whose Python
    local variable is itself called [result]. *)
Abbreviation result_ := result.

#[global] Instance result_ret : MRet result := λ A a, Ok a.
#[global] Instance result_fmap : FMap result := λ A B f m,
  match m with
  | Ok a => Ok (f a)
  | Raise e => Raise e
  end.
#[global] Instance result_bind : MBind result := λ A B f m,
  match m with
  | Ok a => f a
  | Raise e => Raise e
  end.

Fixpoint traverse {A B} (f : A → result B) (l : list A) : result (list B) :=
  match l with
  | [] => Ok []
  | a :: l' => b ← f a; bs ← traverse f l'; Ok (b :: bs)
  end.

#[global] Instance exn_eq_dec : EqDecision exn.
Proof. solve_decision. Defined.

(** ** Emitters ([base_emitter], [custom_date_emitter], [custom_null_emitter]) *)

Module Emitter.

Inductive emitter_class :=
  | base_emitter
  | custom_date_emitter
  | custom_null_emitter.

Definition fluff_emitter (cls : emitter_class) : string :=
  match cls with
  | base_emitter => ""
  | custom_date_emitter => "date"
  | custom_null_emitter => "null"
  end.

(** A statement sequence acting on one [dict] object: the final state of
    the object and the exception that ended the sequence, if any. *)
Definition dict_step := pydict → pydict * option exn.

Definition and_then (f g : dict_step) : dict_step :=
  λ d, match f d with
       | (d', None) => g d'
       | (d', Some e) => (d', Some e)
       end.

Definition outcome (r : pydict * option exn) : result pydict :=
  match r with
  | (d, None) => Ok d
  | (_, Some e) => Raise e
  end.

(** [if 'value' not in v: v['value'] = 1] *)
Definition default_value : dict_step :=
  λ v, match v !! "value" with
       | Some _ => (v, None)
       | None => (<["value" := PScalar (SInt 1)]> v, None)
       end.

(** [assert v.get('group_by') is not None] *)
Definition assert_group_by : dict_step :=
  λ v, match v !! "group_by" with
       | None | Some (PScalar SNone) => (v, Some AssertionError)
       | Some _ => (v, None)
       end.

(** [if not isinstance(v['group_by'], list): v['group_by'] = [v['group_by']]] *)
Definition wrap_group_by : dict_step :=
  λ v, match v !! "group_by" with
       | None => (v, Some KeyError)
       | Some (PList _) => (v, None)
       | Some (PScalar s) => (<["group_by" := PList [s]]> v, None)
       end.

(** The [dict] branch of [wrapped_f], lines 31-35. *)
Definition normalize_dict : dict_step :=
  and_then default_value (and_then assert_group_by wrap_group_by).

(** [dict(date=d, value=x, group_by=None)] *)
Definition mkdict (d x : pyval) : pydict :=
  <["date" := d]> (<["value" := x]> (<["group_by" := PScalar SNone]> ∅)).

(** The three branches of [wrapped_f], lines 30-39: the value handed to
    [self.validate]. *)
Definition normalize (v : raw) : result pydict :=
  match v with
  | RDict d => outcome (normalize_dict d)
  | RVal (PList l) =>
      match l with
      | a :: b :: _ => Ok (mkdict (PScalar a) (PScalar b))
      | _ => Raise IndexError
      end
  | RVal (PScalar s) => Ok (mkdict (PScalar s) (PScalar (SInt 1)))
  end.

(** [validate], per class. *)
Definition validate (cls : emitter_class) : dict_step :=
  λ value,
    match cls with
    | base_emitter => (value, None)
    | custom_date_emitter =>
        match value !! "date" with
        | None => (value, Some AssertionError)
        | Some (PScalar SNone) => (value, Some AssertionError)
        | Some (PScalar (SDate _)) => (value, None)
        | Some (PScalar (SDateTime d _ _ _)) =>
            (<["date" := PScalar (SDate d)]> value, None)
        | Some _ => (value, Some AssertionError)
        end
    | custom_null_emitter =>
        match value !! "date" with
        | None => (<["date" := PScalar SNone]> value, None)
        | Some (PScalar SNone) => (value, None)
        | Some _ => (value, Some AssertionError)
        end
    end.

(** One iteration of the loop of [wrapped_f]: the value yielded for [v]. *)
Definition wrapped_value (cls : emitter_class) (v : raw) : result pydict :=
  d ← normalize v; outcome (validate cls d).

(** The same iteration seen from the [dict] object that was yielded by the
    calculator body: its final state and the exception raised. *)
Definition wrapped_dict (cls : emitter_class) : dict_step :=
  and_then normalize_dict (validate cls).

(** [list(wrapped_f(item))]: the materialised output of an emitter. *)
Definition wrapped_f (cls : emitter_class) (yielded : list raw)
  : result (list pydict) :=
  traverse (wrapped_value cls) yielded.

(** The dictionary after [if 'value' not in v: v['value'] = 1]. *)
Definition with_value (d : pydict) : pydict :=
  match d !! "value" with
  | Some _ => d
  | None => <["value" := PScalar (SInt 1)]> d
  end.

(** The invariant that holds of a value accepted by [validate]. *)
Definition date_ok (cls : emitter_class) (v : pydict) : Prop :=
  match cls with
  | base_emitter => True
  | custom_date_emitter => ∃ d, v !! "date" = Some (PScalar (SDate d))
  | custom_null_emitter => v !! "date" = Some (PScalar SNone)
  end.

End Emitter.

(** ** Calculators *)

Module Calc.

(** An emitter method as a calculator sees it: the attributes
    [_fluff_emitter] and [_reduce_type] that [base_emitter.__call__] puts
    on [wrapped_f]. *)
Record emitter_fn := EmitterFn { _fluff_emitter : string; _reduce_type : string }.

(** The values [window] may hold: [None], a [datetime.timedelta] (only
    its [days] take part in [date - timedelta]) or any other object. *)
Inductive pywindow :=
  | WNone
  | WTimedelta (days : Z)
  | WOther.

Record Calculator := MkCalculator {
  window : pywindow;
  _fluff_emitters : gmap string emitter_fn
}.

Definition is_timedelta (w : pywindow) : bool :=
  match w with WTimedelta _ => true | _ => false end.

(** [any(getattr(self, e)._fluff_emitter == 'date' for e in self._fluff_emitters)] *)
Definition any_date_emitter (emitters : gmap string emitter_fn) : bool :=
  existsb (λ e, String.eqb (_fluff_emitter e.2) "date") (map_to_list emitters).

(** [Calculator.__init__]: [cls_window] is the class attribute [window],
    [emitters] the class's [_fluff_emitters], [arg] the [window] argument. *)
Definition init (cls_window : pywindow) (emitters : gmap string emitter_fn)
    (arg : pywindow) : result Calculator :=
  let w := match arg with WNone => cls_window | _ => arg end in
  if is_timedelta w then Ok (MkCalculator w emitters)
  else if any_date_emitter emitters then Raise NotImplementedError
  else Ok (MkCalculator w emitters).

(** *** Queries against the external index *)

Inductive view_keys :=
  | ByRange (startkey endkey : list scalar)
  | ByKey (key : list scalar).

Record view_query := ViewQuery {
  q_keys : view_keys;
  q_reduce : bool;
  q_descending : bool
}.

(** A number of a view result, as Python reads it from JSON: an [int]
    (of any size) or a [float]. *)
Inductive num :=
  | NInt (n : Z)
  | NFloat (f : float).

(** [float(n)], the conversion Python applies to the integer operand of a
    mixed sum: the nearest double, ties to even, and [OverflowError] when
    the integer is out of the range of the doubles. *)
Definition float_of_int (n : Z) : result float :=
  let f := SF2Prim (binary_normalize prec emax n 0 false) in
  if is_infinity f then Raise OverflowError else Ok f.

(** [a + b] on numbers: exact on two integers, the IEEE sum otherwise. *)
Definition num_add (a b : num) : result num :=
  match a, b with
  | NInt x, NInt y => Ok (NInt (x + y))
  | NInt x, NFloat g => f ← float_of_int x; Ok (NFloat (f + g)%float)
  | NFloat f, NInt y => g ← float_of_int y; Ok (NFloat (f + g)%float)
  | NFloat f, NFloat g => Ok (NFloat (f + g)%float)
  end.

(** A row of a view result: [row['id']] and [row['value']] (a mapping
    from reduce type to number), each possibly missing. *)
Record row := Row {
  row_id : option string;
  row_value : option (gmap string num)
}.

(** What [get_result] stores per emitter: a number when reducing, the
    stripped document ids otherwise. *)
Definition res_ty (reduce : bool) : Type := if reduce then num else list string.

(** What [aggregate_results] accumulates per emitter: [defaultdict(int)]
    or [defaultdict(set)]. *)
Definition agg_ty (reduce : bool) : Type := if reduce then num else gset string.

Definition date_gt (a b : date) : bool :=
  if year a =? year b then
    if month a =? month b then day b <? day a else month b <? month a
  else year b <? year a.

Section queries.
(** The indicator document class the calculator is bound to, the clock,
    and the external collaborators. *)
Variable doc_type : string.          (* [self.fluff._doc_type] *)
Variable fluff_name : string.        (* [self.fluff.__name__] *)
Variable slug : string.              (* [self.slug] *)
Variable now : date.                 (* [self.fluff.get_now()] *)
Variable date_sub : date → Z → date. (* [date - timedelta(days)] *)
Variable json_format_date : date → string.
Variable view : view_query → list row. (* [self.fluff.view('fluff/generic', ...).all()] *)

(** The query issued for one emitter. *)
Definition query (self : Calculator) (key : list scalar) (reduce : bool)
    (emitter_name : string) (emitter : emitter_fn) : result view_query :=
  let shared_key := [SStr doc_type] ++ key ++ [SStr slug; SStr emitter_name] in
  if String.eqb (_fluff_emitter emitter) "date" then
    match window self with
    | WTimedelta days =>
        let start := date_sub now days in
        let end_ := now in
        Ok (ViewQuery
              (ByRange (shared_key ++ [SStr (json_format_date start)])
                       (shared_key ++ [SStr (json_format_date end_)]))
              reduce (date_gt start end_))
    | _ => Raise TypeError
    end
  else if String.eqb (_fluff_emitter emitter) "null" then
    Ok (ViewQuery (ByKey (shared_key ++ [SNone])) reduce false)
  else Raise EmitterTypeError.

(** [strip(id_string)] *)
Definition strip (id_string : string) : result string :=
  let prefix := String.append fluff_name "-" in
  if String.prefix prefix id_string
  then Ok (String.substring (String.length prefix)
             (String.length id_string - String.length prefix) id_string)
  else Raise AssertionError.

(** Lines 193-203: the entry stored in [result[emitter_name]]. *)
Definition extract (reduce : bool) (emitter : emitter_fn) (q : list row)
    : result (res_ty reduce) :=
  match reduce return result (res_ty reduce) with
  | true =>
      match q with
      | [] => Ok (NInt 0)                (* [except IndexError] *)
      | r :: _ =>
          match row_value r with
          | None => Raise KeyError
          | Some v =>
              match v !! _reduce_type emitter with
              | Some x => Ok x
              | None => Raise KeyError
              end
          end
      end
  | false =>
      traverse (λ r, match row_id r with
                     | None => Raise KeyError
                     | Some i => strip i
                     end) q
  end.

Definition emitter_result (self : Calculator) (key : list scalar)
    (reduce : bool) (emitter_name : string) (emitter : emitter_fn)
    : result (res_ty reduce) :=
  qa ← query self key reduce emitter_name emitter;
  extract reduce emitter (view qa).

Fixpoint get_result_loop (self : Calculator) (key : list scalar)
    (reduce : bool) (emitters : list (string * emitter_fn))
    (result : gmap string (res_ty reduce))
    : result_ (gmap string (res_ty reduce)) :=
  match emitters with
  | [] => Ok result
  | (emitter_name, emitter) :: rest =>
      v ← emitter_result self key reduce emitter_name emitter;
      get_result_loop self key reduce rest (<[emitter_name := v]> result)
  end.

(** [Calculator.get_result] *)
Definition get_result (self : Calculator) (key : list scalar)
    (reduce : bool) : result_ (gmap string (res_ty reduce)) :=
  get_result_loop self key reduce (map_to_list (_fluff_emitters self)) ∅.

(** The value a [defaultdict(int)] or [defaultdict(set)] makes for a
    missing slug. *)
Definition agg_zero (reduce : bool) : agg_ty reduce :=
  match reduce return agg_ty reduce with
  | true => NInt 0
  | false => ∅
  end.

(** [results[slug] + value] and [results[slug].update(value)] *)
Definition agg_add (reduce : bool)
    : agg_ty reduce → res_ty reduce → result (agg_ty reduce) :=
  match reduce
    return agg_ty reduce → res_ty reduce → result (agg_ty reduce) with
  | true => num_add
  | false => λ s l, Ok (s ∪ list_to_set l)
  end.

(** One iteration of the loops of lines 216-221: [results[slug] += value]
    or [results[slug].update(value)]. *)
Definition accumulate (reduce : bool) (results : gmap string (agg_ty reduce))
    (item : string * res_ty reduce) : result_ (gmap string (agg_ty reduce)) :=
  v ← agg_add reduce (default (agg_zero reduce) (results !! item.1)) item.2;
  Ok (<[item.1 := v]> results).

(** The (slug, value) pairs one key contributes, accumulated in the order
    of [result.items()]. *)
Fixpoint accumulate_items (reduce : bool) (items : list (string * res_ty reduce))
    (results : gmap string (agg_ty reduce))
    : result_ (gmap string (agg_ty reduce)) :=
  match items with
  | [] => Ok results
  | item :: rest =>
      results' ← accumulate reduce results item;
      accumulate_items reduce rest results'
  end.

(** The loop over the generator [iter_results]: the pairs of a key are
    accumulated before [get_result] is called for the next key. *)
Fixpoint aggregate_loop (self : Calculator) (keys : list (list scalar))
    (reduce : bool) (results : gmap string (agg_ty reduce))
    : result_ (gmap string (agg_ty reduce)) :=
  match keys with
  | [] => Ok results
  | key :: rest =>
      r ← get_result self key reduce;
      results' ← accumulate_items reduce (map_to_list r) results;
      aggregate_loop self rest reduce results'
  end.

(** [Calculator.aggregate_results] *)
Definition aggregate_results (self : Calculator) (keys : list (list scalar))
    (reduce : bool) : result_ (gmap string (agg_ty reduce)) :=
  aggregate_loop self keys reduce ∅.

End queries.

End Calc.

(** ** Indicator documents and the diff engine

    Python 2 leaves the iteration order of a [dict] and of a [set]
    unspecified.  The model iterates a mapping in the order of
    [map_to_list], a key set in the order of [elements], and a set of
    normalised values in insertion order; the properties below speak of
    membership and multiplicity only, never of positions across
    emitters. *)

Module Doc.

(** [self[calc_name]]: emitter slug to stored value sequence. *)
Abbreviation emitter_map := (gmap string (list raw)).

(** An [IndicatorDocument] instance together with the class attributes
    that [diff] reads.  [group_by] holds the attribute names of
    [wrapped_group_by]; [fields] the properties read by
    [get_group_values]; [slots] the per-calculator properties. *)
Record IndicatorDocument := MkDoc {
  _calculators : gmap string Calc.Calculator;
  group_by : list string;
  group_by_type_map : option (gmap string string);
  domains : list string;
  app_label : string;
  _doc_type : string;
  fields : gmap string pyval;
  slots : gmap string emitter_map
}.

(** The result of [_indicator_meta]; [values] is present only in the
    entries of [indicator_changes]. *)
Record indicator_meta := Meta {
  calculator : string;
  emitter : string;
  emitter_type : string;
  reduce_type : string;
  values : option (list pydict)
}.

Record diff_report := Report {
  r_domains : list string;
  r_database : string;
  r_doc_type : string;
  r_group_names : list string;
  r_group_values : list pyval;
  r_group_type_map : gmap string string;
  indicator_changes : list indicator_meta;
  all_indicators : list indicator_meta
}.

Definition TYPE_STRING : string := "string".
Definition ALL_TYPES : list string := ["integer"; "string"; "date"].

(** [doc[calc_name]] *)
Definition getitem (doc : gmap string emitter_map) (calc_name : string)
    : result emitter_map :=
  match doc !! calc_name with
  | Some m => Ok m
  | None => Raise KeyError
  end.

(** [doc[calc_name][emitter_name]] *)
Definition stored (doc : gmap string emitter_map) (calc_name emitter_name : string)
    : result (list raw) :=
  m ← getitem doc calc_name;
  match m !! emitter_name with
  | Some vs => Ok vs
  | None => Raise KeyError
  end.

(** [dict.keys()] *)
Definition keys {V} (m : gmap string V) : list string := (map_to_list m).*1.

(** [_shallow_dict_diff]: [None], a list of keys, or a set of keys (listed
    in the order of [elements]). *)
Definition _shallow_dict_diff (left right : emitter_map) : option (list string) :=
  if bool_decide (left = ∅) && bool_decide (right = ∅) then None
  else if bool_decide (left = ∅) || bool_decide (right = ∅) then
    Some (if bool_decide (left = ∅) then keys right else keys left)
  else
    let left_set : gset string := dom left in
    let right_set : gset string := dom right in
    let intersect := right_set ∩ left_set in
    let added := right_set ∖ intersect in
    let removed := left_set ∖ intersect in
    let changed := filter (λ o, left !! o ≠ right !! o) intersect in
    Some (elements (added ∪ removed ∪ changed)).

(** Lines 349-359.  [diff_keys] lists, in insertion order, the calculators
    that have changed emitters. *)
Fixpoint diff_keys_loop (self : IndicatorDocument)
    (other_doc : option (gmap string emitter_map)) (calc_names : list string)
    : result (list (string * list string)) :=
  match calc_names with
  | [] => Ok []
  | calc_name :: rest =>
      match other_doc with
      | Some other =>
          left ← getitem (slots self) calc_name;
          right ← getitem other calc_name;
          tl ← diff_keys_loop self other_doc rest;
          match _shallow_dict_diff left right with
          | Some (e :: es) => Ok ((calc_name, e :: es) :: tl)
          | _ => Ok tl
          end
      | None =>
          m ← getitem (slots self) calc_name;
          tl ← diff_keys_loop self other_doc rest;
          match filter (λ kv, kv.2 ≠ []) (map_to_list m) with
          | [] => Ok tl
          | kvs => Ok ((calc_name, kvs.*1) :: tl)
          end
      end
  end.

(** Lines 364-370. *)
Fixpoint resolve_type_map (names : list string) (m : gmap string string)
    : result (gmap string string) :=
  match names with
  | [] => Ok m
  | attrib :: rest =>
      match m !! attrib with
      | None => resolve_type_map rest (<[attrib := TYPE_STRING]> m)
      | Some t =>
          if bool_decide (t ∈ ALL_TYPES) then resolve_type_map rest m
          else Raise AssertionError
      end
  end.

Definition get_group_names (self : IndicatorDocument) : list string :=
  group_by self.

Definition get_group_values (self : IndicatorDocument) : result (list pyval) :=
  traverse (λ attr, match fields self !! attr with
                    | Some v => Ok v
                    | None => Raise AttributeError
                    end) (get_group_names self).

(** [_indicator_meta] *)
Definition _indicator_meta (self : IndicatorDocument)
    (calc_name emitter_name : string) (values : option (list pydict))
    : result indicator_meta :=
  match _calculators self !! calc_name with
  | None => Raise KeyError
  | Some calc =>
      match Calc._fluff_emitters calc !! emitter_name with
      | None => Raise AttributeError
      | Some em =>
          Ok (Meta calc_name emitter_name
                (Calc._fluff_emitter em) (Calc._reduce_type em) values)
      end
  end.

(** The comparison key of a [NormalizedEmittedValue]. *)
Definition nev_key : Type := scalar * scalar * option (list scalar).

Definition is_date (v : pyval) : bool :=
  match v with
  | PScalar (SDate _) | PScalar (SDateTime _ _ _ _) => true
  | _ => false
  end.

(** [tuple(gb)] *)
Definition tuple (gb : pyval) : result (list scalar) :=
  match gb with
  | PList l => Ok l
  | PScalar (SStr s) =>
      Ok (map (λ c, SStr (String c EmptyString)) (String.list_ascii_of_string s))
  | PScalar _ => Raise TypeError
  end.

(** [__key], followed by the hashing of the tuple it returns (a [list]
    component is unhashable). *)
Definition key (value : pydict) : result nev_key :=
  match value !! "group_by" with
  | None => Raise KeyError
  | Some gb =>
      match value !! "date" with
      | None => Raise KeyError
      | Some dt =>
          match value !! "value" with
          | None => Raise KeyError
          | Some x =>
              g ← (if truthy gb then Some <$> tuple gb else Ok None);
              match dt, x with
              | PScalar d, PScalar v => Ok (d, v, g)
              | _, _ => Raise TypeError
              end
          end
      end
  end.

(** [set([...])]: elements are inserted in order, one per key. *)
Fixpoint set_of (l : list pydict) (acc : list (nev_key * pydict))
    : result (list (nev_key * pydict)) :=
  match l with
  | [] => Ok acc
  | v :: l' =>
      k ← key v;
      if bool_decide (k ∈ acc.*1) then set_of l' acc
      else set_of l' (acc ++ [(k, v)])
  end.

(** [self_values - other_values] *)
Definition set_difference (self_values other_values : list (nev_key * pydict))
    : list (nev_key * pydict) :=
  filter (λ kv, kv.1 ∉ other_values.*1) self_values.

Section diff.
(** [datetime.datetime.strptime(s, '%Y-%m-%d').date()], [None] standing
    for [ValueError]. *)
Variable strptime : string → option date.

(** [NormalizedEmittedValue.__init__]: the [value] attribute. *)
Definition NormalizedEmittedValue (value : raw) : result pydict :=
  v ← match value with
      | RDict d => Ok d
      | RVal (PList l) =>
          match l with
          | a :: b :: _ => Ok (Emitter.mkdict (PScalar a) (PScalar b))
          | _ => Raise IndexError
          end
      | RVal (PScalar _) => Raise AttributeError
      end;
  match v !! "date" with
  | None => Raise KeyError
  | Some dt =>
      if truthy dt && negb (is_date dt) then
        match dt with
        | PScalar (SStr s) =>
            match strptime s with
            | Some d => Ok (<["date" := PScalar (SDate d)]> v)
            | None => Raise ValueError
            end
        | _ => Raise TypeError
        end
      else Ok v
  end.

(** Lines 434-441: the [values] of one changed emitter. *)
Definition values_diff (self : IndicatorDocument) (calc_name emitter_name : string)
    (other_doc : option (gmap string emitter_map)) : result (list pydict) :=
  match other_doc with
  | Some other =>
      sv ← stored (slots self) calc_name emitter_name;
      sn ← traverse NormalizedEmittedValue sv;
      self_values ← set_of sn [];
      ov ← stored other calc_name emitter_name;
      on ← traverse NormalizedEmittedValue ov;
      other_values ← set_of on [];
      Ok ((set_difference self_values other_values).*2)
  | None =>
      sv ← stored (slots self) calc_name emitter_name;
      traverse NormalizedEmittedValue sv
  end.

(** [_indicator_diff] *)
Definition _indicator_diff (self : IndicatorDocument) (calc_name : string)
    (emitter_names : list string) (other_doc : option (gmap string emitter_map))
    : result (list indicator_meta) :=
  traverse (λ emitter_name,
              vs ← values_diff self calc_name emitter_name other_doc;
              _indicator_meta self calc_name emitter_name (Some vs))
           emitter_names.

(** Lines 386-388. *)
Definition inventory (self : IndicatorDocument) : result (list indicator_meta) :=
  per_calc ←
    traverse (λ calc_name,
                m ← getitem (slots self) calc_name;
                traverse (λ emitter_name,
                            _indicator_meta self calc_name emitter_name None)
                         (keys m))
             (keys (_calculators self));
  Ok (concat per_calc).

(** [IndicatorDocument.diff].  [other_doc] is the previous snapshot, of
    which only the calculator slots are read; a snapshot that is present
    is truthy. *)
Definition diff (self : IndicatorDocument)
    (other_doc : option (gmap string emitter_map)) : result (option diff_report) :=
  diff_keys ← diff_keys_loop self other_doc (keys (_calculators self));
  match diff_keys with
  | [] => Ok None
  | _ =>
      group_type_map ←
        resolve_type_map (get_group_names self)
                         (default ∅ (group_by_type_map self));
      group_values ← get_group_values self;
      changes ←
        traverse (λ ck, _indicator_diff self ck.1 ck.2 other_doc) diff_keys;
      all ← inventory self;
      Ok (Some (Report (domains self) (app_label self) (_doc_type self)
                  (get_group_names self) group_values group_type_map
                  (concat changes) all))
  end.

End diff.

(** The (calculator, emitter) pair an entry of a report stands for. *)
Definition meta_pair (m : indicator_meta) : string * string :=
  (calculator m, emitter m).

(** The pairs listed by a calculator-to-emitters association. *)
Definition pairs (cks : list (string * list string)) : list (string * string) :=
  cks ≫= λ ck, pair ck.1 <$> ck.2.

(** The emitter slugs of a slot whose stored sequence is not empty. *)
Definition nonempty_keys (m : emitter_map) : list string :=
  (filter (λ kv, kv.2 ≠ []) (map_to_list m)).*1.

(** The pairs the inventory loop visits: every emitter slug stored
    under every calculator. *)
Definition stored_pairs (self : IndicatorDocument) : list (string * string) :=
  keys (_calculators self) ≫=
    λ c, pair c <$> keys (default ∅ (slots self !! c)).

End Doc.

(** ** The comparison key of the specification

    The key under which the specification compares two stored values:
    [(date, value, tuple(group_by) or null)], where a string date is
    parsed back into a calendar date first.  It is written from that
    sentence, not from [NormalizedEmittedValue] and [key], and is what
    they are compared with. *)

Module SpecKey.

(** The date, value and group_by of a stored value: the fields of an
    object; the two elements of a pair, with a null group_by. *)
Definition fields (v : raw) : option (pyval * pyval * pyval) :=
  match v with
  | RDict d =>
      dt ← d !! "date"; x ← d !! "value"; gb ← d !! "group_by";
      Some (dt, x, gb)
  | RVal (PList (a :: b :: _)) => Some (PScalar a, PScalar b, PScalar SNone)
  | RVal _ => None
  end.

(** [tuple(group_by) or null]: the elements of a non-empty sequence (the
    characters of a non-empty string), null otherwise. *)
Definition group_tuple (gb : pyval) : option (list scalar) :=
  match gb with
  | PList [] => None
  | PList l => Some l
  | PScalar (SStr EmptyString) => None
  | PScalar (SStr s) =>
      Some ((λ c, SStr (String c EmptyString)) <$> String.list_ascii_of_string s)
  | PScalar _ => None
  end.

Section key.
Variable strptime : string → option date.

(** A date written as a string is parsed back into a calendar date; the
    empty string and what is not a string are compared as they are. *)
Definition calendar_date (dt : scalar) : option scalar :=
  match dt with
  | SStr EmptyString => Some dt
  | SStr s => SDate <$> strptime s
  | _ => Some dt
  end.

Definition key (v : raw) : option (scalar * scalar * option (list scalar)) :=
  match fields v with
  | Some (PScalar dt, PScalar x, gb) =>
      d ← calendar_date dt; Some (d, x, group_tuple gb)
  | _ => None
  end.

End key.

End SpecKey.

(** ** A worked scenario

    One calculator [visits] with a date-kind emitter [all_visits]
    (count, window of 7 days) and a null-kind emitter [total] (sum). *)

Module Scenario.

Definition digit (c : Ascii.ascii) : option Z :=
  let n := Z.of_nat (Ascii.nat_of_ascii c) in
  if (48 <=? n) && (n <=? 57) then Some (n - 48) else None.

(** A stand-in for [strptime(s, '%Y-%m-%d')] on zero-padded input; the
    calendar validity of the result is not checked. *)
Definition strptime (s : string) : option date :=
  match String.list_ascii_of_string s with
  | [y1; y2; y3; y4; sep1; m1; m2; sep2; d1; d2] =>
      if (Z.of_nat (Ascii.nat_of_ascii sep1) =? 45)        (* '-' *)
         && (Z.of_nat (Ascii.nat_of_ascii sep2) =? 45) then
        y1 ← digit y1; y2 ← digit y2; y3 ← digit y3; y4 ← digit y4;
        m1 ← digit m1; m2 ← digit m2; d1 ← digit d1; d2 ← digit d2;
        Some (Date (1000 * y1 + 100 * y2 + 10 * y3 + y4) (10 * m1 + m2) (10 * d1 + d2))
      else None
  | _ => None
  end.

Definition visits : Calc.Calculator :=
  Calc.MkCalculator (Calc.WTimedelta 7)
    (<["all_visits" := Calc.EmitterFn "date" "count"]>
       (<["total" := Calc.EmitterFn "null" "sum"]> ∅)).

(** A stored value [{date: d, value: x, group_by: None}]. *)
Definition ev (d : scalar) (x : Z) : raw :=
  RDict (Emitter.mkdict (PScalar d) (PScalar (SInt x))).

(** The slots of a document with the given [all_visits] and [total]. *)
Definition visit_slots (all_visits total : list raw) : gmap string Doc.emitter_map :=
  <["visits" := <["all_visits" := all_visits]> (<["total" := total]> ∅)]> ∅.

Definition doc_with (s : gmap string Doc.emitter_map) : Doc.IndicatorDocument :=
  Doc.MkDoc (<["visits" := visits]> ∅) ["clinic"] None ["demo"] "fluff"
    "VisitFluff" (<["clinic" := PScalar (SStr "c1")]> ∅) s.

(** Visits on 2021-01-01 and 2021-01-02, no total yet. *)
Definition new_doc : Doc.IndicatorDocument :=
  doc_with (visit_slots [ev (SDate (Date 2021 1 1)) 1; ev (SDate (Date 2021 1 2)) 1] []).

(** The previous snapshot as read back from JSON: one visit, its date a
    string. *)
Definition old_slots : gmap string Doc.emitter_map :=
  visit_slots [ev (SStr "2021-01-01") 1] [].

(** The entry that [diff new_doc old_slots] reports for [all_visits]:
    the visit of 2021-01-02 alone. *)
Definition expected_change : Doc.indicator_meta :=
  Doc.Meta "visits" "all_visits" "date" "count"
    (Some [Emitter.mkdict (PScalar (SDate (Date 2021 1 2))) (PScalar (SInt 1))]).

Definition expected_report : Doc.diff_report :=
  Doc.Report ["demo"] "fluff" "VisitFluff" ["clinic"] [PScalar (SStr "c1")]
    (<["clinic" := "string"]> ∅)
    [expected_change]
    [Doc.Meta "visits" "all_visits" "date" "count" None;
     Doc.Meta "visits" "total" "null" "sum" None].

End Scenario.

(** ** The change pipeline ([FluffPillow]) *)

Module Pillow.

(** ['%s-%s' % (self.indicator_class.__name__, doc.get_id)], line 512. *)
Definition indicator_id (class_name doc_id : string) : string :=
  String.append class_name (String.append "-" doc_id).

End Pillow.

(** ** Merging aggregated results

    What [aggregate_results] does to its accumulator, read as an operation
    on two finished results: numbers are added with Python's [+],
    identifier sets are united, slug by slug. *)

Module Aggregate.

Definition is_int (x : Calc.num) : bool :=
  match x with Calc.NInt _ => true | Calc.NFloat _ => false end.

(** A value whose accumulation is exact: an integer when reducing;
    nothing is asked of a list of identifiers. *)
Definition exact (reduce : bool) : Calc.res_ty reduce → bool :=
  match reduce return Calc.res_ty reduce → bool with
  | true => is_int
  | false => λ _, true
  end.

Definition exact_agg (reduce : bool) : Calc.agg_ty reduce → bool :=
  match reduce return Calc.agg_ty reduce → bool with
  | true => is_int
  | false => λ _, true
  end.

(** [a + b] on two accumulated numbers, [a | b] on two sets. *)
Definition agg_merge (reduce : bool)
    : Calc.agg_ty reduce → Calc.agg_ty reduce → result (Calc.agg_ty reduce) :=
  match reduce
    return Calc.agg_ty reduce → Calc.agg_ty reduce
           → result (Calc.agg_ty reduce) with
  | true => Calc.num_add
  | false => λ s1 s2, Ok (s1 ∪ s2)
  end.

(** [c] is the entry of a slug in the merge of two results that have the
    entries [a] and [b] for it. *)
Definition merged (reduce : bool) (a b c : option (Calc.agg_ty reduce)) : Prop :=
  match a, b with
  | Some x, Some y => ∃ z, agg_merge reduce x y = Ok z ∧ c = Some z
  | Some x, None => c = Some x
  | None, _ => c = b
  end.

(** [0 + value], and [set().update(value)]. *)
Definition from_zero (reduce : bool) : Calc.res_ty reduce → Calc.agg_ty reduce :=
  match reduce return Calc.res_ty reduce → Calc.agg_ty reduce with
  | true => λ v, match v with
                 | Calc.NInt n => Calc.NInt n
                 | Calc.NFloat f => Calc.NFloat (0 + f)%float
                 end
  | false => list_to_set
  end.

(** One query result seen as an accumulator. *)
Definition of_result (reduce : bool) (r : gmap string (Calc.res_ty reduce))
    : gmap string (Calc.agg_ty reduce) :=
  from_zero reduce <$> r.

(** Every reduced value that [get_result] returns for one of [keys] is an
    integer. *)
Definition integral_results (doc_type fluff_name slug : string) (now : date)
    (date_sub : date → Z → date) (json_format_date : date → string)
    (view : Calc.view_query → list Calc.row) (self : Calc.Calculator)
    (keys : list (list scalar)) : bool :=
  forallb (λ key,
             match Calc.get_result doc_type fluff_name slug now date_sub
                     json_format_date view self key true with
             | Ok r => forallb (λ kv, is_int kv.2) (map_to_list r)
             | Raise _ => true
             end) keys.

End Aggregate.

(** ** Float sums in the index

    A calculator with one null-kind emitter [total] (sum), and an index
    whose reduced sums are floats. *)

Module ScenarioF.

(** The reduced row of the index for the group key [g]: a sum of 1e16
    under [a], of 1.0 under [b] and of -1e16 under [c]. *)
Definition sums (g : string) : Calc.num :=
  if String.eqb g "a" then Calc.NFloat 1e16
  else if String.eqb g "b" then Calc.NFloat 1
  else Calc.NFloat (-1e16).

Definition view (q : Calc.view_query) : list Calc.row :=
  match Calc.q_keys q with
  | Calc.ByKey (_ :: SStr g :: _) => [Calc.Row None (Some (<["sum" := sums g]> ∅))]
  | _ => []
  end.

Definition totals : Calc.Calculator :=
  Calc.MkCalculator Calc.WNone (<["total" := Calc.EmitterFn "null" "sum"]> ∅).

Definition aggregate_results (keys : list (list scalar))
    : result (gmap string Calc.num) :=
  Calc.aggregate_results "VisitFluff" "VisitFluff" "visits" (Date 2021 1 8)
    (λ d n, Date (year d) (month d) (day d - n)) (λ _, "2021-01-08")
    view totals keys true.

End ScenarioF.

(** ** A shrinking document

    The recomputed document has one visit where the stored snapshot, read
    back from JSON, has two. *)

Module ScenarioB.

Definition new_doc : Doc.IndicatorDocument :=
  Scenario.doc_with
    (Scenario.visit_slots [Scenario.ev (SDate (Date 2021 1 1)) 1] []).

Definition old_slots : gmap string Doc.emitter_map :=
  Scenario.visit_slots
    [Scenario.ev (SStr "2021-01-01") 1; Scenario.ev (SStr "2021-01-02") 1] [].

Definition change : Doc.indicator_meta :=
  Doc.Meta "visits" "all_visits" "date" "count" (Some []).

Definition report : Doc.diff_report :=
  Doc.Report ["demo"] "fluff" "VisitFluff" ["clinic"] [PScalar (SStr "c1")]
    (<["clinic" := "string"]> ∅)
    [change]
    [Doc.Meta "visits" "all_visits" "date" "count" None;
     Doc.Meta "visits" "total" "null" "sum" None].

End ScenarioB.

(** ** Calculation ([base_emitter.__init__], [Calculator.filter],
    [passes_filter], [calculate])

    The source document ([item]) is a parameter; the code of a filter and
    of an emitter body is user code, taken as a function of the item. *)

Module Calculate.

Definition REDUCE_TYPES : list string := ["sum"; "count"; "min"; "max"; "sumsqr"].

Section item.
Context {item : Type}.

(** An emitter method of a calculator class: the decorator instance that
    wrapped it (its class and reduce type) and the values the wrapped
    function yields for an item. *)
Record emitter_method := EmitterMethod {
  decorator : Emitter.emitter_class;
  _reduce_type : string;
  body : item → list raw
}.

(** [base_emitter.__init__] and [__call__]: [cls(reduce_type)(fn)]. *)
Definition decorate (cls : Emitter.emitter_class) (reduce_type : string)
    (fn : item → list raw) : result emitter_method :=
  if bool_decide (reduce_type ∈ REDUCE_TYPES)
  then Ok (EmitterMethod cls reduce_type fn)
  else Raise AssertionError.

(** The attributes [_fluff_emitter] and [_reduce_type] of the method. *)
Definition describe (m : emitter_method) : Calc.emitter_fn :=
  Calc.EmitterFn (Emitter.fluff_emitter (decorator m)) (_reduce_type m).

Record Calculator := MkCalculator {
  _filter : option (item → bool);               (* [self._filter.filter] *)
  _fluff_filters : gmap string (item → bool);   (* the [@filter_by] methods *)
  _fluff_emitters : gmap string emitter_method
}.

(** [Calculator.filter] *)
Definition filter (self : Calculator) (it : item) : bool :=
  match _filter self with
  | None => true
  | Some f => f it
  end.

(** [Calculator.passes_filter] *)
Definition passes_filter (self : Calculator) (it : item) : bool :=
  filter self it && forallb (λ kv, kv.2 it) (map_to_list (_fluff_filters self)).

(** [list(fn(item)) if passes_filter else []] *)
Definition emit (passes : bool) (m : emitter_method) (it : item)
    : result (list pydict) :=
  if passes then Emitter.wrapped_f (decorator m) (body m it) else Ok [].

Fixpoint calculate_loop (passes : bool) (it : item)
    (emitters : list (string * emitter_method))
    (values : gmap string (list pydict)) : result (gmap string (list pydict)) :=
  match emitters with
  | [] => Ok values
  | (slug, fn) :: rest =>
      vs ← emit passes fn it;
      calculate_loop passes it rest (<[slug := vs]> values)
  end.

(** [Calculator.calculate] *)
Definition calculate (self : Calculator) (it : item)
    : result (gmap string (list pydict)) :=
  calculate_loop (passes_filter self it) it (map_to_list (_fluff_emitters self)) ∅.

End item.

Arguments emitter_method : clear implicits.
Arguments Calculator : clear implicits.

(** The canonical shape of a value emitted under a decorator of class
    [cls]: [value] is set, [group_by] is [None] or a list, and [date] is
    what the class's [validate] lets through. *)
Definition canonical (cls : Emitter.emitter_class) (v : pydict) : Prop :=
  is_Some (v !! "value")
  ∧ (v !! "group_by" = Some (PScalar SNone) ∨ ∃ l, v !! "group_by" = Some (PList l))
  ∧ Emitter.date_ok cls v.

End Calculate.

(** ** A calculator with its code

    The calculator [visits] of the worked scenario, now with its filter
    and the bodies of its emitters; the source document is a case with
    visit dates. *)

Module ScenarioC.

Record case := Case { case_id : string; closed : bool; visit_dates : list date }.

Definition all_visits : Calculate.emitter_method case :=
  Calculate.EmitterMethod Emitter.custom_date_emitter "count"
    (λ c, (λ d, RVal (PScalar (SDate d))) <$> visit_dates c).

Definition total : Calculate.emitter_method case :=
  Calculate.EmitterMethod Emitter.custom_null_emitter "sum"
    (λ c, [RVal (PList [SNone; SInt (Z.of_nat (length (visit_dates c)))])]).

(** Closed cases are filtered out. *)
Definition visits : Calculate.Calculator case :=
  Calculate.MkCalculator (Some (λ c, negb (closed c))) ∅
    (<["all_visits" := all_visits]> (<["total" := total]> ∅)).

Definition open_case : case :=
  Case "c1" false [Date 2021 1 1; Date 2021 1 2].

Definition closed_case : case :=
  Case "c2" true [Date 2021 1 1].

(** An emitter that yields a bare identifier under the null decorator. *)
Definition broken : Calculate.Calculator case :=
  Calculate.MkCalculator None ∅
    (<["ids" := Calculate.EmitterMethod Emitter.custom_null_emitter "count"
                  (λ c, [RVal (PScalar (SStr (case_id c)))])]> ∅).

End ScenarioC.

(** ** Registration of emitters and filters ([filter_by],
    [CalculatorMeta.__new__]) *)

Module Registry.

(** A class attribute as the metaclass looks at it: its [_fluff_emitter]
    attribute, if it has one, and whether its [_fluff_filter] is true. *)
Record attribute := Attribute {
  _fluff_emitter : option string;
  _fluff_filter : bool
}.

(** An attribute that is no emitter and no filter. *)
Definition plain : attribute := Attribute None false.

(** A function wrapped by an emitter decorator of class [cls]:
    [wrapped_f._fluff_emitter = self.fluff_emitter]. *)
Definition emitter_decorated (cls : Emitter.emitter_class) : attribute :=
  Attribute (Some (Emitter.fluff_emitter cls)) false.

(** [filter_by(fn)] *)
Definition filter_by (fn : attribute) : attribute :=
  Attribute (_fluff_emitter fn) true.

(** [getattr(a, '_fluff_emitter', None)], as a condition. *)
Definition is_emitter (a : attribute) : bool :=
  match _fluff_emitter a with
  | Some s => negb (String.eqb s "")
  | None => false
  end.

(** What the metaclass leaves on a calculator class. *)
Record calculator_class := Class {
  _fluff_emitters : gset string;
  _fluff_filters : gset string;
  _counter : nat
}.

(** [CalculatorMeta.__new__]: [counter] is [mcs._counter] before the call,
    [parents] the bases that are calculator classes; returns the class and
    [mcs._counter] after the call. *)
Definition CalculatorMeta_new (counter : nat) (parents : list calculator_class)
    (attrs : gmap string attribute) : calculator_class * nat :=
  let emitters :=
    foldl (λ (acc : gset string) kv,
             if is_emitter kv.2 then acc ∪ {[kv.1]} else acc)
          ∅ (map_to_list attrs) in
  let filters :=
    foldl (λ (acc : gset string) kv,
             if _fluff_filter kv.2 then acc ∪ {[kv.1]} else acc)
          ∅ (map_to_list attrs) in
  let emitters := foldl (λ acc parent, acc ∪ _fluff_emitters parent) emitters parents in
  let filters := foldl (λ acc parent, acc ∪ _fluff_filters parent) filters parents in
  (Class emitters filters counter, S counter).

End Registry.

(** ** Recomputation of a document ([AttributeGetter],
    [wrapped_group_by], [get_group_names], [IndicatorDocument.calculate])

    The stored document ([self._doc]) is one mapping from property names
    to values: the calculator slots, the group fields, [id] and
    [group_by] share its name space, as they do in the code.  Item and
    attribute assignment on the document are taken to store the value
    under the given name and not to raise. *)

Module DocCalculate.

(** What a property of the document holds. *)
Inductive property :=
  | PSlot (m : gmap string (list pydict))   (* a calculator's output *)
  | PField (v : pyval)                      (* [id], a group field *)
  | PNames (l : list string).               (* [group_by] *)

Section item.
Context {item : Type}.
Variable get_id : item → string.                       (* [item.get_id] *)
Variable item_getitem : item → string → result pyval.  (* [item[attribute]] *)

Record AttributeGetter := MkGetter {
  attribute : string;
  getter_function : item → result pyval
}.

(** [AttributeGetter.__init__] *)
Definition AttributeGetter_init (attribute : string)
    (getter_function : option (item → result pyval)) : AttributeGetter :=
  MkGetter attribute
    (match getter_function with
     | Some f => f
     | None => λ it, item_getitem it attribute
     end).

(** An element of the class attribute [group_by]: a string, an
    [AttributeGetter], or anything else. *)
Inductive group_item :=
  | GString (s : string)
  | GGetter (g : AttributeGetter)
  | GOther.

Definition _wrap_if_necessary (x : group_item) : result AttributeGetter :=
  match x with
  | GString s => Ok (AttributeGetter_init s None)
  | GGetter g => Ok g
  | GOther => Raise AssertionError
  end.

(** [get_group_names], which drains [wrapped_group_by]. *)
Definition get_group_names (group_by : list group_item) : result (list string) :=
  gs ← traverse _wrap_if_necessary group_by;
  Ok (attribute <$> (gs : list AttributeGetter)).

(** The first loop of [calculate]: the document after it, and the
    exception that ended it, if any. *)
Fixpoint calculate_slots (calculators : list (string * Calculate.Calculator item))
    (it : item) (self : gmap string property) : gmap string property * option exn :=
  match calculators with
  | [] => (self, None)
  | (attr, calculator) :: rest =>
      match Calculate.calculate calculator it with
      | Ok v => calculate_slots rest it (<[attr := PSlot v]> self)
      | Raise e => (self, Some e)
      end
  end.

(** The second loop: each element of [group_by] is wrapped, its getter
    run and the field written before the next element is looked at. *)
Fixpoint calculate_groups (group_by : list group_item) (it : item)
    (self : gmap string property) : gmap string property * option exn :=
  match group_by with
  | [] => (self, None)
  | x :: rest =>
      match _wrap_if_necessary x with
      | Raise e => (self, Some e)
      | Ok getter =>
          match getter_function getter it with
          | Raise e => (self, Some e)
          | Ok v => calculate_groups rest it (<[attribute getter := PField v]> self)
          end
      end
  end.

(** [IndicatorDocument.calculate] *)
Definition calculate (calculators : gmap string (Calculate.Calculator item))
    (group_by : list group_item) (self : gmap string property) (it : item)
    : gmap string property * option exn :=
  match calculate_slots (map_to_list calculators) it self with
  | (self, Some e) => (self, Some e)
  | (self, None) =>
      let self := <["id" := PField (PScalar (SStr (get_id it)))]> self in
      match calculate_groups group_by it self with
      | (self, Some e) => (self, Some e)
      | (self, None) =>
          match get_group_names group_by with
          | Raise e => (self, Some e)
          | Ok names => (<["group_by" := PNames names]> self, None)
          end
      end
  end.

End item.

Arguments AttributeGetter : clear implicits.
Arguments group_item : clear implicits.

(** The calculator slots of a stored document, as [diff] reads them. *)
Definition slots_of (self : gmap string property) : gmap string Doc.emitter_map :=
  omap (M := gmap string)
       (λ p, match p with
             | PSlot m => Some (fmap (M := list) RDict <$> m)
             | _ => None
             end) self.

(** Its scalar and list properties. *)
Definition fields_of (self : gmap string property) : gmap string pyval :=
  omap (M := gmap string)
       (λ p, match p with PField v => Some v | _ => None end) self.

(** The calculators as [diff] and the queries see them: a window and the
    attributes of the emitter methods. *)
Definition describe_calculators {item}
    (windows : gmap string Calc.pywindow)
    (calculators : gmap string (Calculate.Calculator item))
    : gmap string Calc.Calculator :=
  map_imap (λ slug c,
              Some (Calc.MkCalculator (default Calc.WNone (windows !! slug))
                      (Calculate.describe <$> Calculate._fluff_emitters c)))
           calculators.

(** The instance [diff] runs on, for a stored document [self] of a class
    with the given calculators, group names and type map. *)
Definition as_document {item} (windows : gmap string Calc.pywindow)
    (calculators : gmap string (Calculate.Calculator item))
    (names : list string) (type_map : option (gmap string string))
    (domains : list string) (app_label doc_type : string)
    (self : gmap string property) : Doc.IndicatorDocument :=
  Doc.MkDoc (describe_calculators windows calculators) names type_map domains
    app_label doc_type (fields_of self) (slots_of self).

End DocCalculate.

(** ** A document class with its code

    The class of the worked scenario: the calculator [visits], grouped by
    the case identifier, which is read off the source case by the default
    getter. *)

Module ScenarioD.

Definition case_getitem (c : ScenarioC.case) (attr : string) : result pyval :=
  if String.eqb attr "case_id" then Ok (PScalar (SStr (ScenarioC.case_id c)))
  else Raise KeyError.

Definition calculators : gmap string (Calculate.Calculator ScenarioC.case) :=
  <["visits" := ScenarioC.visits]> ∅.

Definition group_by : list (DocCalculate.group_item ScenarioC.case) :=
  [DocCalculate.GString "case_id"].

Definition calculate (calculators : gmap string (Calculate.Calculator ScenarioC.case))
    (self : gmap string DocCalculate.property) (it : ScenarioC.case)
    : gmap string DocCalculate.property * option exn :=
  DocCalculate.calculate ScenarioC.case_id case_getitem calculators group_by self it.

Definition fresh : gmap string DocCalculate.property :=
  (calculate calculators ∅ ScenarioC.open_case).1.


End ScenarioD.

(** * Properties *)

(** ** Generic facts about [traverse] *)

Lemma traverse_Ok {A B} (f : A → result B) (l : list A) (bs : list B) :
  traverse f l = Ok bs ↔ Forall2 (λ a b, f a = Ok b) l bs.
Proof.
  revert bs. induction l as [|a l IH]; intros bs; simpl.
  - split; [intros [= <-]; constructor | by inversion 1].
  - unfold mbind, result_bind. destruct (f a) as [b|e] eqn:Hfa.
    + destruct (traverse f l) as [bs'|e'] eqn:Htr.
      * split.
        -- intros [= <-]. constructor; [done | by apply IH].
        -- inversion 1 as [|? b0 ? bs0 Hb Hbs]; subst.
           apply IH in Hbs. congruence.
      * split; [done |].
        inversion 1 as [|? b0 ? bs0 Hb Hbs]; subst. apply IH in Hbs. done.
    + split; [done |]. inversion 1; subst. congruence.
Qed.

Lemma traverse_Ok_elem {A B} (f : A → result B) (l : list A) (bs : list B) b :
  traverse f l = Ok bs → b ∈ bs → ∃ a, a ∈ l ∧ f a = Ok b.
Proof.
  rewrite traverse_Ok. intros HF [i Hi]%list_elem_of_lookup_1.
  destruct (Forall2_lookup_r _ _ _ _ _ HF Hi) as (a & Ha & Hfa).
  exists a. split; [by eapply list_elem_of_lookup_2 | done].
Qed.

Lemma traverse_Ok_elem_l {A B} (f : A → result B) (l : list A) (bs : list B) a :
  traverse f l = Ok bs → a ∈ l → ∃ b, b ∈ bs ∧ f a = Ok b.
Proof.
  rewrite traverse_Ok. intros HF [i Hi]%list_elem_of_lookup_1.
  destruct (Forall2_lookup_l _ _ _ _ _ HF Hi) as (b & Hb & Hfa).
  exists b. split; [by eapply list_elem_of_lookup_2 | done].
Qed.

(** ** Emitter normalisation *)

Section emitter_facts.
Import Emitter.

Lemma mkdict_date d x : mkdict d x !! "date" = Some d.
Proof. unfold mkdict. by simplify_map_eq. Qed.

Lemma mkdict_value d x : mkdict d x !! "value" = Some x.
Proof. unfold mkdict. by simplify_map_eq. Qed.

Lemma mkdict_group_by d x : mkdict d x !! "group_by" = Some (PScalar SNone).
Proof. unfold mkdict. by simplify_map_eq. Qed.

(** [validate] only ever writes the [date] entry. *)
Lemma validate_other_keys cls v v' e k :
  validate cls v = (v', e) → k ≠ "date" → v' !! k = v !! k.
Proof.
  intros Hv Hk. destruct cls; simpl in Hv.
  - by inversion Hv.
  - destruct (v !! "date") as [[[]|]|]; inversion Hv; subst;
      try done. by rewrite lookup_insert_ne.
  - destruct (v !! "date") as [[[]|]|]; inversion Hv; subst;
      try done. by rewrite lookup_insert_ne.
Qed.

Lemma validate_Ok_date_ok cls v v' :
  validate cls v = (v', None) → date_ok cls v'.
Proof.
  intros Hv. destruct cls; simpl in *; [done | |].
  - destruct (v !! "date") as [[[]|]|] eqn:Hd; inversion Hv; subst; eauto.
    eexists. by rewrite lookup_insert_eq.
  - destruct (v !! "date") as [[[]|]|] eqn:Hd; inversion Hv; subst; eauto.
    by rewrite lookup_insert_eq.
Qed.

Lemma validate_fixpoint cls v : date_ok cls v → validate cls v = (v, None).
Proof.
  destruct cls; simpl; [done | |].
  - intros [d Hd]. by rewrite Hd.
  - intros Hd. by rewrite Hd.
Qed.

Lemma normalize_dict_fixpoint (v : pydict) x l :
  v !! "value" = Some x → v !! "group_by" = Some (PList l) →
  normalize_dict v = (v, None).
Proof.
  intros Hx Hg.
  unfold normalize_dict, and_then, default_value, assert_group_by, wrap_group_by.
  rewrite Hx; simpl. rewrite Hg; simpl. by rewrite Hg.
Qed.

(** [normalize_dict] in closed form. *)
Lemma with_value_group_by d : with_value d !! "group_by" = d !! "group_by".
Proof.
  unfold with_value. destruct (d !! "value"); [done|].
  by rewrite lookup_insert_ne.
Qed.

Lemma with_value_value d :
  with_value d !! "value" = Some (default (PScalar (SInt 1)) (d !! "value")).
Proof.
  unfold with_value. destruct (d !! "value") eqn:Hx; simpl; [done|].
  by rewrite lookup_insert_eq.
Qed.


Lemma normalize_dict_spec d :
  normalize_dict d =
    match d !! "group_by" with
    | None | Some (PScalar SNone) => (with_value d, Some AssertionError)
    | Some (PList l) => (with_value d, None)
    | Some (PScalar s) => (<["group_by" := PList [s]]> (with_value d), None)
    end.
Proof.
  pose proof (with_value_group_by d) as Hg.
  unfold normalize_dict, and_then, default_value, assert_group_by, wrap_group_by.
  fold (with_value d).
  replace (match d !! "value" with
           | Some _ => (d, None)
           | None => (<["value" := PScalar (SInt 1)]> d, None)
           end) with (with_value d, @None exn)
    by (unfold with_value; by destruct (d !! "value")).
  rewrite Hg.
  destruct (d !! "group_by") as [[[]|l]|]; simpl; rewrite ?Hg; done.
Qed.

(** What [normalize] returns: [value] is set, and [group_by] is either
    [None] (bare and pair forms) or a list ([dict] form). *)
Lemma normalize_Ok_shape r v :
  normalize r = Ok v →
  is_Some (v !! "value") ∧
  (v !! "group_by" = Some (PScalar SNone) ∨ ∃ l, v !! "group_by" = Some (PList l)).
Proof.
  destruct r as [d|[s|l]]; simpl.
  - rewrite normalize_dict_spec.
    pose proof (with_value_group_by d) as Hg.
    pose proof (with_value_value d) as Hx.
    destruct (d !! "group_by") as [[[]|l]|] eqn:Hd; simpl; try done;
      intros [= <-]; rewrite ?lookup_insert_eq, ?lookup_insert_ne, ?Hx, ?Hg by done;
      eauto.
  - intros [= <-]. rewrite mkdict_value, mkdict_group_by. eauto.
  - destruct l as [|a [|b rest]]; try done.
    intros [= <-]. rewrite mkdict_value, mkdict_group_by. eauto.
Qed.

Lemma wrapped_value_Ok cls r v :
  wrapped_value cls r = Ok v →
  ∃ n, normalize r = Ok n ∧ validate cls n = (v, None).
Proof.
  unfold wrapped_value, mbind, result_bind.
  destruct (normalize r) as [n|] eqn:Hn; [|done].
  destruct (validate cls n) as [v' [e|]] eqn:Hv; simpl; [done|].
  intros [= <-]. eauto.
Qed.

End emitter_facts.



(** C5 (as amended): for every value [v] yielded by an emitter,
    normalising [v] again reproduces [v] exactly when its [group_by] is
    not null, and is rejected by the [group_by] assertion when it is
    null. *)
Theorem renormalize_output cls r (v : pydict) :
  Emitter.wrapped_value cls r = Ok v →
  Emitter.wrapped_value cls (RDict v)
  = if bool_decide (v !! "group_by" = Some (PScalar SNone))
    then Raise AssertionError else Ok v.
Proof.
  intros Hr. destruct (wrapped_value_Ok _ _ _ Hr) as (n & Hn & Hv).
  destruct (normalize_Ok_shape _ _ Hn) as [[x Hx] Hg].
  rewrite <- (validate_other_keys _ _ _ _ "value" Hv) in Hx by done.
  rewrite <- (validate_other_keys _ _ _ _ "group_by" Hv) in Hg by done.
  pose proof (validate_Ok_date_ok _ _ _ Hv) as Hd.
  unfold Emitter.wrapped_value; simpl.
  rewrite normalize_dict_spec.
  destruct Hg as [Hg|[l Hg]].
  - rewrite (bool_decide_eq_true_2 _ Hg), Hg. done.
  - rewrite bool_decide_eq_false_2 by congruence. rewrite Hg; simpl.
    replace (Emitter.with_value v) with v
      by (unfold Emitter.with_value; by rewrite Hx).
    by rewrite validate_fixpoint.
Qed.

Lemma renormalize_output_witness :
  Emitter.wrapped_value Emitter.custom_null_emitter
    (RDict (<["group_by" := PList [SStr "clinic"]]>
              (<["value" := PScalar (SInt 2)]>
                 (<["date" := PScalar SNone]> ∅))))
  = Ok (<["group_by" := PList [SStr "clinic"]]>
          (<["value" := PScalar (SInt 2)]> (<["date" := PScalar SNone]> ∅))).
Proof.
  rewrite (renormalize_output Emitter.custom_null_emitter
             (RDict (<["group_by" := PScalar (SStr "clinic")]>
                       (<["value" := PScalar (SInt 2)]> ∅)))
             (<["group_by" := PList [SStr "clinic"]]>
                (<["value" := PScalar (SInt 2)]> (<["date" := PScalar SNone]> ∅))))
    by (vm_compute; reflexivity).
  vm_compute; reflexivity.
Defined.

(** The value normalised from the bare date 2021-01-01 is valid for the
    date emitter, yet normalising it again raises [AssertionError]. *)
Lemma renormalize_null_group_by_rejected :
  Emitter.wrapped_value Emitter.custom_date_emitter
    (RVal (PScalar (SDate (Date 2021 1 1))))
  = Ok (Emitter.mkdict (PScalar (SDate (Date 2021 1 1))) (PScalar (SInt 1)))
  ∧ Emitter.wrapped_value Emitter.custom_date_emitter
      (RDict (Emitter.mkdict (PScalar (SDate (Date 2021 1 1))) (PScalar (SInt 1))))
    = Raise AssertionError.
Proof. split; reflexivity. Qed.

(** C10 (as amended): a dict-form value whose [group_by] is omitted or
    null is rejected with [AssertionError]; the assertion runs after the
    [value] default has been written into the dict and before the
    [group_by] wrapping and the validation, so the dict is left with
    [value] set and otherwise untouched.  The bare and the pair form
    produce [group_by = None]. *)
Theorem dict_form_requires_group_by cls (d : pydict) :
  d !! "group_by" = None ∨ d !! "group_by" = Some (PScalar SNone) →
  Emitter.wrapped_dict cls d = (Emitter.with_value d, Some AssertionError)
  ∧ Emitter.wrapped_value cls (RDict d) = Raise AssertionError
  ∧ (∀ s : scalar, ∃ v : pydict,
       Emitter.normalize (RVal (PScalar s)) = Ok v
       ∧ v !! "group_by" = Some (PScalar SNone))
  ∧ (∀ (a b : scalar) rest, ∃ v : pydict,
       Emitter.normalize (RVal (PList (a :: b :: rest))) = Ok v
       ∧ v !! "group_by" = Some (PScalar SNone)).
Proof.
  intros Hg. split; [|split; [|split]].
  - unfold Emitter.wrapped_dict, Emitter.and_then.
    rewrite normalize_dict_spec. by destruct Hg as [-> | ->].
  - unfold Emitter.wrapped_value; simpl.
    rewrite normalize_dict_spec. by destruct Hg as [-> | ->].
  - intros s. eexists. split; [reflexivity|]. apply mkdict_group_by.
  - intros a b rest. eexists. split; [reflexivity|]. apply mkdict_group_by.
Qed.

Lemma dict_form_requires_group_by_witness :
  Emitter.wrapped_value Emitter.custom_null_emitter
    (RDict (<["value" := PScalar (SInt 3)]> ∅)) = Raise AssertionError.
Proof.
  apply (dict_form_requires_group_by Emitter.custom_null_emitter
           (<["value" := PScalar (SInt 3)]> ∅)).
  left. vm_compute; reflexivity.
Defined.

(** The dict [{date: 2021-01-01}] has no [group_by]; when it is rejected
    it has already received [value = 1], so the assertion is not the
    first thing done to it. *)
Lemma assert_group_by_after_value_default :
  let d : pydict := <["date" := PScalar (SDate (Date 2021 1 1))]> ∅ in
  d !! "group_by" = None
  ∧ Emitter.wrapped_dict Emitter.custom_date_emitter d
    = (<["value" := PScalar (SInt 1)]> d, Some AssertionError)
  ∧ Emitter.wrapped_dict Emitter.custom_date_emitter d ≠ (d, Some AssertionError).
Proof.
  simpl. split; [reflexivity|]. split; [reflexivity|].
  intros H. apply (f_equal (λ p, p.1 !! "value")) in H.
  vm_compute in H. discriminate H.
Qed.

(** ** Calculator construction *)

Lemma any_date_emitter_spec (emitters : gmap string Calc.emitter_fn) :
  Calc.any_date_emitter emitters = true ↔
  ∃ name em, emitters !! name = Some em ∧ Calc._fluff_emitter em = "date".
Proof.
  unfold Calc.any_date_emitter. rewrite existsb_exists. split.
  - intros ([name em] & Hin & Heq). exists name, em.
    apply list_elem_of_In, elem_of_map_to_list in Hin.
    by apply String.eqb_eq in Heq.
  - intros (name & em & Hl & Hk). exists (name, em). split.
    + by apply list_elem_of_In, elem_of_map_to_list.
    + by apply String.eqb_eq.
Qed.

(** C7: constructing a calculator that has a date-kind emitter while the
    effective window (argument, else class attribute) is not a timedelta
    raises at construction (the code raises [NotImplementedError]); when
    all emitters are null-kind the construction succeeds whatever the
    window, [None] included; and for a calculator that was constructed the
    window of every date-kind emitter's query is a timedelta, so the query
    is always issued: nothing is left to fail at query time. *)
Theorem init_window_check (cls_window arg : Calc.pywindow)
    (emitters : gmap string Calc.emitter_fn) :
  let w := match arg with Calc.WNone => cls_window | _ => arg end in
  ((∃ name em, emitters !! name = Some em ∧ Calc._fluff_emitter em = "date") →
   Calc.is_timedelta w = false →
   Calc.init cls_window emitters arg = Raise NotImplementedError)
  ∧ ((∀ name em, emitters !! name = Some em → Calc._fluff_emitter em = "null") →
     Calc.init cls_window emitters arg = Ok (Calc.MkCalculator w emitters))
  ∧ (∀ c, Calc.init cls_window emitters arg = Ok c →
     ∀ name em, Calc._fluff_emitters c !! name = Some em →
       Calc._fluff_emitter em = "date" →
       (∃ days, Calc.window c = Calc.WTimedelta days)
       ∧ ∀ doc_type slug now date_sub json_format_date key reduce,
           ∃ qa, Calc.query doc_type slug now date_sub json_format_date
                   c key reduce name em = Ok qa).
Proof.
  intros w. unfold Calc.init. fold w. split; [|split].
  - intros Hex Hw. rewrite Hw.
    apply any_date_emitter_spec in Hex. by rewrite Hex.
  - intros Hnull. destruct (Calc.is_timedelta w); [done|].
    destruct (Calc.any_date_emitter emitters) eqn:Hany; [|done].
    apply any_date_emitter_spec in Hany as (name & em & Hl & Hk).
    apply Hnull in Hl. congruence.
  - intros c Hc name em Hl Hk.
    assert (∃ days, Calc.window c = Calc.WTimedelta days) as [days Hdays].
    { destruct (Calc.is_timedelta w) eqn:Hw.
      - inversion Hc; subst; simpl. destruct w; try done. eauto.
      - destruct (Calc.any_date_emitter emitters) eqn:Hany; [done|].
        inversion Hc; subst; simpl in *.
        assert (Calc.any_date_emitter emitters = true) as Htrue
          by (apply any_date_emitter_spec; eauto).
        congruence. }
    split; [eauto|]. intros. unfold Calc.query.
    rewrite Hk, Hdays; simpl. eauto.
Qed.

Lemma init_window_check_witness :
  Calc.init Calc.WNone
    (<["all_visits" := Calc.EmitterFn "date" "count"]> ∅) Calc.WNone
  = Raise NotImplementedError.
Proof.
  apply (init_window_check Calc.WNone Calc.WNone
           (<["all_visits" := Calc.EmitterFn "date" "count"]> ∅)).
  - exists "all_visits", (Calc.EmitterFn "date" "count").
    split; [vm_compute; reflexivity | reflexivity].
  - reflexivity.
Defined.

(** ** Windowed queries *)

Section query_facts.
Variables (doc_type fluff_name slug : string) (now : date).
Variable date_sub : date → Z → date.
Variable json_format_date : date → string.
Variable view : Calc.view_query → list Calc.row.

(** After the loop, every emitter visited holds its own result and the
    other entries are as they were. *)
Lemma get_result_loop_lookup self key reduce emitters acc r :
  NoDup emitters.*1 →
  Calc.get_result_loop doc_type fluff_name slug now date_sub json_format_date
    view self key reduce emitters acc = Ok r →
  (∀ name em, (name, em) ∈ emitters →
     ∃ v, Calc.emitter_result doc_type fluff_name slug now date_sub
            json_format_date view self key reduce name em = Ok v
          ∧ r !! name = Some v)
  ∧ (∀ name, name ∉ emitters.*1 → r !! name = acc !! name).
Proof.
  revert acc. induction emitters as [|[n e] rest IH]; intros acc Hnd; simpl.
  - intros [= <-]. split; [by intros ?? ?%elem_of_nil | done].
  - rewrite fmap_cons in Hnd. simpl in Hnd.
    apply NoDup_cons in Hnd as [Hn Hnd].
    unfold mbind, result_bind.
    destruct (Calc.emitter_result _ _ _ _ _ _ _ self key reduce n e)
      as [v|] eqn:Hv; [|done].
    intros Hloop. destruct (IH _ Hnd Hloop) as [IH1 IH2]. split.
    + intros name em [[= -> ->]|Hin]%elem_of_cons.
      * exists v. split; [done|]. rewrite (IH2 _ Hn). apply lookup_insert_eq.
      * by apply IH1.
    + intros name [Hne Hnin]%not_elem_of_cons.
      rewrite (IH2 _ Hnin). by apply lookup_insert_ne.
Qed.

Lemma get_result_lookup self key reduce r name em :
  Calc.get_result doc_type fluff_name slug now date_sub json_format_date
    view self key reduce = Ok r →
  Calc._fluff_emitters self !! name = Some em →
  ∃ v, Calc.emitter_result doc_type fluff_name slug now date_sub
         json_format_date view self key reduce name em = Ok v
       ∧ r !! name = Some v.
Proof.
  intros Hr Hl.
  eapply get_result_loop_lookup in Hr as [H _];
    [|apply NoDup_fst_map_to_list].
  apply H. by apply elem_of_map_to_list.
Qed.

End query_facts.

(** C9: with [reduce=True], an emitter whose query (the window range of
    a date-kind emitter, the exact key of a null-kind one) matches no row
    of the index gets the scalar 0, not an error; and in every result
    that [get_result] returns its entry is 0. *)
Theorem empty_result_is_zero
    (doc_type fluff_name slug : string) (now : date) (date_sub : date → Z → date)
    (json_format_date : date → string) (view : Calc.view_query → list Calc.row)
    (self : Calc.Calculator) (key : list scalar) (name : string)
    (em : Calc.emitter_fn) (qa : Calc.view_query) :
  Calc._fluff_emitters self !! name = Some em →
  Calc.query doc_type slug now date_sub json_format_date self key true name em = Ok qa →
  view qa = [] →
  Calc.emitter_result doc_type fluff_name slug now date_sub json_format_date view
    self key true name em = Ok (Calc.NInt 0)
  ∧ ∀ r : gmap string Calc.num,
      Calc.get_result doc_type fluff_name slug now date_sub json_format_date view
        self key true = Ok r →
      r !! name = Some (Calc.NInt 0).
Proof.
  intros Hl Hq Hview.
  assert (Calc.emitter_result doc_type fluff_name slug now date_sub
            json_format_date view self key true name em = Ok (Calc.NInt 0)) as Hz.
  { unfold Calc.emitter_result. rewrite Hq. simpl. by rewrite Hview. }
  split; [done|]. intros r Hr.
  destruct (get_result_lookup _ _ _ _ _ _ _ _ _ _ _ _ _ Hr Hl) as (v & Hv & Hrv).
  transitivity (Some v); [exact Hrv|].
  f_equal. rewrite Hz in Hv. by inversion Hv.
Qed.

Lemma empty_result_is_zero_witness :
  Calc.emitter_result "VisitFluff" "VisitFluff" "visits" (Date 2021 1 8)
    (λ d n, Date (year d) (month d) (day d - n)) (λ _, "2021-01-08")
    (λ _, [])
    (Calc.MkCalculator Calc.WNone (<["total" := Calc.EmitterFn "null" "sum"]> ∅))
    [SStr "clinic-1"] true "total" (Calc.EmitterFn "null" "sum")
  = Ok (Calc.NInt 0).
Proof.
  eapply (empty_result_is_zero "VisitFluff" "VisitFluff" "visits" (Date 2021 1 8)
            (λ d n, Date (year d) (month d) (day d - n)) (λ _, "2021-01-08")
            (λ _, [])).
  - vm_compute; reflexivity.
  - reflexivity.
  - reflexivity.
Defined.

(** ** Aggregation across keys *)

Lemma traverse_permutation {A B} (f : A → result B) (l l' : list A) :
  l ≡ₚ l' →
  ∀ bs, traverse f l = Ok bs → ∃ bs', traverse f l' = Ok bs' ∧ bs ≡ₚ bs'.
Proof.
  induction 1 as [|x l l' _ IH|x y l|l l' l'' _ IH1 _ IH2]; intros bs; simpl.
  - intros [= <-]. by exists [].
  - unfold mbind, result_bind. destruct (f x) as [b|]; [|done].
    destruct (traverse f l) as [bs0|] eqn:Hl; [|done].
    intros [= <-]. destruct (IH _ eq_refl) as (bs' & -> & Hp).
    eexists. split; [done|]. by constructor.
  - unfold mbind, result_bind.
    destruct (f y) as [b|]; [|done]. destruct (f x) as [a|]; [|done].
    destruct (traverse f l) as [bs0|]; [|done].
    intros [= <-]. eexists. split; [done|]. apply perm_swap.
  - intros Hbs. destruct (IH1 _ Hbs) as (bs1 & H1 & Hp1).
    destruct (IH2 _ H1) as (bs2 & H2 & Hp2).
    exists bs2. split; [done|]. by etrans.
Qed.

Lemma concat_map_permutation {A B} (g : A → list B) (l l' : list A) :
  l ≡ₚ l' → concat (map g l) ≡ₚ concat (map g l').
Proof.
  induction 1 as [|x l l' _ IH|x y l|l l' l'' _ IH1 _ IH2]; simpl.
  - done.
  - by apply Permutation_app_head.
  - apply Permutation_app_swap_app.
  - by etrans.
Qed.

(** *** Exact accumulation

    On integers and on identifier sets the accumulation never raises and
    its steps commute. *)

Lemma agg_zero_exact reduce :
  Aggregate.exact_agg reduce (Calc.agg_zero reduce) = true.
Proof. by destruct reduce. Qed.

Lemma agg_add_exact reduce (a : Calc.agg_ty reduce) (v : Calc.res_ty reduce) :
  Aggregate.exact_agg reduce a = true → Aggregate.exact reduce v = true →
  ∃ c, Calc.agg_add reduce a v = Ok c ∧ Aggregate.exact_agg reduce c = true.
Proof.
  destruct reduce; simpl in *.
  - destruct a, v; try done. eauto.
  - eauto.
Qed.

Lemma agg_add_comm reduce (x : Calc.agg_ty reduce) (a b : Calc.res_ty reduce) :
  Aggregate.exact_agg reduce x = true →
  Aggregate.exact reduce a = true → Aggregate.exact reduce b = true →
  (c ← Calc.agg_add reduce x a; Calc.agg_add reduce c b)
  = (c ← Calc.agg_add reduce x b; Calc.agg_add reduce c a).
Proof.
  destruct reduce; simpl in *.
  - destruct x, a, b; try done. intros _ _ _. simpl. do 2 f_equal. lia.
  - intros _ _ _. simpl. f_equal.
    rewrite <- !(assoc_L (∪)). f_equal. apply (comm_L (∪)).
Qed.

Section exact_facts.
Variable reduce : bool.
Implicit Types (m : gmap string (Calc.agg_ty reduce))
  (item : string * Calc.res_ty reduce)
  (items : list (string * Calc.res_ty reduce)).

Lemma accumulate_exact m item :
  map_Forall (λ _ a, Aggregate.exact_agg reduce a = true) m →
  Aggregate.exact reduce item.2 = true →
  ∃ c, Calc.agg_add reduce (default (Calc.agg_zero reduce) (m !! item.1)) item.2
       = Ok c
       ∧ Calc.accumulate reduce m item = Ok (<[item.1 := c]> m)
       ∧ map_Forall (λ _ a, Aggregate.exact_agg reduce a = true) (<[item.1 := c]> m).
Proof.
  intros Hm Hv.
  destruct (agg_add_exact reduce (default (Calc.agg_zero reduce) (m !! item.1))
              item.2) as (c & Hc & Hex); [|done|].
  { destruct (m !! item.1) as [a|] eqn:Ha; simpl;
      [by eapply Hm | apply agg_zero_exact]. }
  exists c. split; [done|]. split.
  - unfold Calc.accumulate. by rewrite Hc.
  - by apply map_Forall_insert_2.
Qed.

Lemma accumulate_comm m (a b : string * Calc.res_ty reduce) :
  map_Forall (λ _ a, Aggregate.exact_agg reduce a = true) m →
  Aggregate.exact reduce a.2 = true → Aggregate.exact reduce b.2 = true →
  (m1 ← Calc.accumulate reduce m a; Calc.accumulate reduce m1 b)
  = (m1 ← Calc.accumulate reduce m b; Calc.accumulate reduce m1 a).
Proof.
  intros Hm Ha Hb.
  destruct (accumulate_exact m a Hm Ha) as (ca & Hca & -> & Hma).
  destruct (accumulate_exact m b Hm Hb) as (cb & Hcb & -> & Hmb).
  simpl.
  destruct (accumulate_exact _ b Hma Hb) as (cab & Hcab & -> & _).
  destruct (accumulate_exact _ a Hmb Ha) as (cba & Hcba & -> & _).
  f_equal. destruct a as [ka va], b as [kb vb]. simpl in *.
  destruct (decide (ka = kb)) as [->|Hne].
  - rewrite lookup_insert_eq in Hcab, Hcba. simpl in *.
    rewrite !insert_insert_eq. f_equal.
    assert (Aggregate.exact_agg reduce
              (default (Calc.agg_zero reduce) (m !! kb)) = true) as Hx.
    { destruct (m !! kb) as [x|] eqn:Hk; simpl;
        [by eapply Hm | apply agg_zero_exact]. }
    pose proof (agg_add_comm reduce _ va vb Hx Ha Hb) as Hc.
    rewrite Hca, Hcb in Hc. simpl in Hc. congruence.
  - rewrite lookup_insert_ne in Hcab, Hcba by done.
    assert (cab = cb) as -> by congruence.
    assert (cba = ca) as -> by congruence.
    by apply insert_insert_ne.
Qed.

Lemma accumulate_items_exact items m :
  map_Forall (λ _ a, Aggregate.exact_agg reduce a = true) m →
  Forall (λ item, Aggregate.exact reduce item.2 = true) items →
  ∃ m', Calc.accumulate_items reduce items m = Ok m'
        ∧ map_Forall (λ _ a, Aggregate.exact_agg reduce a = true) m'.
Proof.
  revert m. induction items as [|x items IH]; intros m Hm Hl; simpl; [eauto|].
  apply Forall_cons in Hl as [Hx Hl].
  destruct (accumulate_exact m x Hm Hx) as (c & _ & -> & Hm'). simpl.
  by apply IH.
Qed.

Lemma accumulate_items_permutation items items' :
  items ≡ₚ items' →
  Forall (λ item, Aggregate.exact reduce item.2 = true) items →
  ∀ m, map_Forall (λ _ a, Aggregate.exact_agg reduce a = true) m →
       Calc.accumulate_items reduce items m
       = Calc.accumulate_items reduce items' m.
Proof.
  induction 1 as [|x l l' Hp IH|x y l|l l' l'' Hp1 IH1 Hp2 IH2];
    intros Hl m Hm; simpl.
  - done.
  - apply Forall_cons in Hl as [Hx Hl].
    destruct (accumulate_exact m x Hm Hx) as (c & _ & -> & Hm'). simpl.
    by apply IH.
  - apply Forall_cons in Hl as [Hy Hl]. apply Forall_cons in Hl as [Hx Hl].
    pose proof (accumulate_comm m y x Hm Hy Hx) as Hc.
    destruct (Calc.accumulate reduce m y) as [my|]; simpl in *;
      destruct (Calc.accumulate reduce m x) as [mx|]; simpl in *.
    + by rewrite Hc.
    + by rewrite Hc.
    + by rewrite <- Hc.
    + done.
  - rewrite IH1 by done. apply IH2; [|done]. by rewrite <- Hp1.
Qed.

Lemma accumulate_items_app items1 items2 m :
  Calc.accumulate_items reduce (items1 ++ items2) m
  = (m' ← Calc.accumulate_items reduce items1 m;
     Calc.accumulate_items reduce items2 m').
Proof.
  revert m. induction items1 as [|x items1 IH]; intros m; simpl; [done|].
  destruct (Calc.accumulate reduce m x) as [m'|]; simpl; [apply IH | done].
Qed.

End exact_facts.

Section aggregate_facts.
Variables (doc_type fluff_name slug : string) (now : date).
Variable date_sub : date → Z → date.
Variable json_format_date : date → string.
Variable view : Calc.view_query → list Calc.row.
Variable self : Calc.Calculator.
Variable reduce : bool.

(** The loop returns what accumulating the drained generator returns. *)
Lemma aggregate_loop_Ok keys (m r : gmap string (Calc.agg_ty reduce)) :
  Calc.aggregate_loop doc_type fluff_name slug now date_sub json_format_date
    view self keys reduce m = Ok r ↔
  ∃ rs,
    traverse (λ key, Calc.get_result doc_type fluff_name slug now date_sub
                       json_format_date view self key reduce) keys = Ok rs
    ∧ Calc.accumulate_items reduce (concat (map map_to_list rs)) m = Ok r.
Proof.
  revert m. induction keys as [|key keys IH]; intros m; simpl.
  - split.
    + intros [= ->]. by exists [].
    + by intros (rs & [= <-] & [= ->]).
  - destruct (Calc.get_result _ _ _ _ _ _ _ self key reduce) as [res|];
      simpl; [|split; [done | by intros (? & ? & _)]].
    split.
    + destruct (Calc.accumulate_items reduce (map_to_list res) m) as [m'|] eqn:Hm';
        simpl; [|done].
      intros (rs & Hrs & Hr)%IH. exists (res :: rs). rewrite Hrs. simpl.
      split; [done|]. by rewrite accumulate_items_app, Hm'.
    + intros (rs' & Hrs & Hr).
      destruct (traverse _ keys) as [rs|]; simpl in Hrs; [|done].
      injection Hrs as <-. simpl in Hr. rewrite accumulate_items_app in Hr.
      destruct (Calc.accumulate_items reduce (map_to_list res) m) as [m'|];
        simpl in *; [|done].
      apply IH. eauto.
Qed.

End aggregate_facts.

Section integral_facts.
Variables (doc_type fluff_name slug : string) (now : date).
Variable date_sub : date → Z → date.
Variable json_format_date : date → string.
Variable view : Calc.view_query → list Calc.row.
Variable self : Calc.Calculator.

Lemma integral_results_exact reduce keys rs :
  (reduce = true →
   Aggregate.integral_results doc_type fluff_name slug now date_sub
     json_format_date view self keys = true) →
  traverse (λ key, Calc.get_result doc_type fluff_name slug now date_sub
                     json_format_date view self key reduce) keys = Ok rs →
  Forall (λ item, Aggregate.exact reduce item.2 = true)
    (concat (map map_to_list rs)).
Proof.
  destruct reduce; [|intros _ _; by apply Forall_forall].
  intros H. specialize (H eq_refl). revert rs H.
  induction keys as [|key keys IH]; intros rs H; simpl.
  - intros [= <-]. constructor.
  - simpl in H. apply andb_prop in H as [Hk Hks].
    destruct (Calc.get_result _ _ _ _ _ _ _ self key true) as [r|]; [|done].
    simpl. destruct (traverse _ keys) as [rs'|]; [|done]. simpl.
    intros [= <-]. simpl. apply Forall_app. split; [|by apply IH].
    apply Forall_forall. intros kv Hkv.
    rewrite forallb_forall in Hk. apply Hk. by apply list_elem_of_In.
Qed.

End integral_facts.

(** C8 (as amended): [aggregate_results] over a permutation of the keys
    returns the same mapping when the accumulation is exact: with
    [reduce=False] always (the same set of identifiers per emitter slug),
    with [reduce=True] when the reduced values returned for the keys are
    integers (the same sum per emitter slug). *)
Theorem aggregate_results_permutation
    (doc_type fluff_name slug : string) (now : date) (date_sub : date → Z → date)
    (json_format_date : date → string) (view : Calc.view_query → list Calc.row)
    (self : Calc.Calculator) (keys keys' : list (list scalar)) (reduce : bool)
    (r : gmap string (Calc.agg_ty reduce)) :
  keys ≡ₚ keys' →
  (reduce = true →
   Aggregate.integral_results doc_type fluff_name slug now date_sub
     json_format_date view self keys = true) →
  Calc.aggregate_results doc_type fluff_name slug now date_sub json_format_date
    view self keys reduce = Ok r →
  Calc.aggregate_results doc_type fluff_name slug now date_sub json_format_date
    view self keys' reduce = Ok r.
Proof.
  intros Hp Hint. unfold Calc.aggregate_results.
  intros (rs & Hrs & Hr)%aggregate_loop_Ok.
  destruct (traverse_permutation _ _ _ Hp _ Hrs) as (rs' & Hrs' & Hrp).
  apply aggregate_loop_Ok. exists rs'. split; [done|].
  rewrite <- Hr. symmetry. apply accumulate_items_permutation.
  - by apply concat_map_permutation.
  - by eapply integral_results_exact.
  - apply map_Forall_empty.
Qed.

Lemma aggregate_results_permutation_witness :
  Calc.aggregate_results "VisitFluff" "VisitFluff" "visits" (Date 2021 1 8)
    (λ d n, Date (year d) (month d) (day d - n)) (λ _, "2021-01-08")
    (λ q, match Calc.q_keys q with
          | Calc.ByKey (_ :: SStr g :: _) =>
              [Calc.Row None
                 (Some (<["sum" := Calc.NInt (if String.eqb g "a" then 3 else 4)]> ∅))]
          | _ => []
          end)
    (Calc.MkCalculator Calc.WNone (<["total" := Calc.EmitterFn "null" "sum"]> ∅))
    [[SStr "b"]; [SStr "a"]] true
  = Ok (<["total" := Calc.NInt 7]> ∅).
Proof.
  apply (aggregate_results_permutation "VisitFluff" "VisitFluff" "visits"
           (Date 2021 1 8) (λ d n, Date (year d) (month d) (day d - n))
           (λ _, "2021-01-08") _ _ [[SStr "a"]; [SStr "b"]] _ true).
  - apply perm_swap.
  - intros _. vm_compute. reflexivity.
  - vm_compute; reflexivity.
Defined.

(** With float sums the order of the keys shows in the result: the sums
    1e16, 1.0 and -1e16 add up to 0.0 in the order [a, b, c], where
    [1e16 + 1.0] rounds to [1e16], and to 1.0 in the order [a, c, b]. *)
Lemma aggregate_results_float_order :
  [[SStr "a"]; [SStr "b"]; [SStr "c"]] ≡ₚ [[SStr "a"]; [SStr "c"]; [SStr "b"]]
  ∧ ScenarioF.aggregate_results [[SStr "a"]; [SStr "b"]; [SStr "c"]]
    = Ok (<["total" := Calc.NFloat 0]> ∅)
  ∧ ScenarioF.aggregate_results [[SStr "a"]; [SStr "c"]; [SStr "b"]]
    = Ok (<["total" := Calc.NFloat 1]> ∅)
  ∧ (<["total" := Calc.NFloat 0]> ∅ : gmap string Calc.num)
    ≠ <["total" := Calc.NFloat 1]> ∅.
Proof.
  split; [constructor; apply perm_swap|].
  split; [vm_compute; reflexivity|]. split; [vm_compute; reflexivity|].
  intros H.
  apply (f_equal (λ m, match m !! "total" with
                       | Some (Calc.NFloat x) => PrimFloat.eqb x 0
                       | _ => false
                       end)) in H.
  vm_compute in H. discriminate H.
Qed.

(** ** The diff engine *)

Lemma traverse_fmap {A B C} (f : A → result B) (g : B → C) (h : A → C) l bs :
  (∀ a b, a ∈ l → f a = Ok b → g b = h a) →
  traverse f l = Ok bs → g <$> bs = h <$> l.
Proof.
  revert bs. induction l as [|a l IH]; intros bs Hgh; simpl.
  - by intros [= <-].
  - unfold mbind, result_bind. destruct (f a) as [b|] eqn:Hb; [|done].
    destruct (traverse f l) as [bs'|] eqn:Hl; [|done].
    intros [= <-]. rewrite !fmap_cons. f_equal.
    + apply Hgh; [left | done].
    + apply IH; [|done]. intros a' b' Ha'. apply Hgh. by right.
Qed.

Lemma traverse_concat_fmap {A B C} (f : A → result (list B)) (g : B → C)
    (h : A → list C) l bss :
  (∀ a bs, a ∈ l → f a = Ok bs → g <$> bs = h a) →
  traverse f l = Ok bss → g <$> concat bss = l ≫= h.
Proof.
  revert bss. induction l as [|a l IH]; intros bss Hgh; simpl.
  - by intros [= <-].
  - unfold mbind at 1 2, result_bind. destruct (f a) as [bs|] eqn:Hb; [|done].
    destruct (traverse f l) as [bss'|] eqn:Hl; [|done].
    intros [= <-]. simpl. rewrite fmap_app. f_equal.
    + apply Hgh; [left | done].
    + apply IH; [|done]. intros a' b' Ha'. apply Hgh. by right.
Qed.

Lemma elem_of_concat_traverse {A B} (f : A → result (list B)) l bss b :
  traverse f l = Ok bss → b ∈ concat bss → ∃ a bs, a ∈ l ∧ f a = Ok bs ∧ b ∈ bs.
Proof.
  intros Htr (bs & Hbs & Hb)%list_elem_of_In%in_concat.
  apply list_elem_of_In in Hbs, Hb.
  destruct (traverse_Ok_elem _ _ _ _ Htr Hbs) as (a & Ha & Hfa). eauto.
Qed.

Section diff_facts.
Import Doc.
Variable strptime : string → option date.

Lemma elem_of_keys {V} (m : gmap string V) k : k ∈ keys m ↔ is_Some (m !! k).
Proof.
  unfold keys. rewrite list_elem_of_fmap. split.
  - intros ([k' v] & -> & Hin). apply elem_of_map_to_list in Hin. eauto.
  - intros [v Hv]. exists (k, v). split; [done|]. by apply elem_of_map_to_list.
Qed.

Lemma NoDup_keys {V} (m : gmap string V) : NoDup (keys m).
Proof. apply NoDup_fst_map_to_list. Qed.

Lemma stored_Ok doc c e vs :
  stored doc c e = Ok vs ↔ ∃ m, doc !! c = Some m ∧ m !! e = Some vs.
Proof.
  unfold stored, getitem, mbind, result_bind.
  destruct (doc !! c) as [m|].
  - destruct (m !! e) as [vs'|] eqn:He; split.
    + intros [= <-]. eauto.
    + intros (m' & [= <-] & Hm'). congruence.
    + done.
    + intros (m' & [= <-] & Hm'). congruence.
  - split; [done|]. by intros (m' & Hm' & _).
Qed.

Lemma indicator_meta_Ok self c e vals m :
  _indicator_meta self c e vals = Ok m →
  calculator m = c ∧ emitter m = e ∧ values m = vals.
Proof.
  unfold _indicator_meta. destruct (_calculators self !! c) as [calc|]; [|done].
  destruct (Calc._fluff_emitters calc !! e); [|done]. by intros [= <-].
Qed.

(** What [diff] has computed when it returns a report. *)
Lemma diff_Some_inv self other r :
  diff strptime self other = Ok (Some r) →
  ∃ dk chs,
    diff_keys_loop self other (keys (_calculators self)) = Ok dk
    ∧ dk ≠ []
    ∧ traverse (λ ck, _indicator_diff strptime self ck.1 ck.2 other) dk = Ok chs
    ∧ indicator_changes r = concat chs
    ∧ inventory self = Ok (all_indicators r).
Proof.
  unfold diff, mbind, result_bind.
  destruct (diff_keys_loop _ _ _) as [dk|]; [|done].
  destruct dk as [|ck dk]; [done|].
  destruct (resolve_type_map _ _); [|done].
  destruct (get_group_values _); [|done].
  destruct (traverse _ (ck :: dk)) as [chs|] eqn:Hchs; [|done].
  destruct (inventory self) as [all|]; [|done].
  intros [= <-]. exists (ck :: dk), chs. by repeat split.
Qed.

Lemma diff_None_inv self other :
  diff strptime self other = Ok None →
  diff_keys_loop self other (keys (_calculators self)) = Ok [].
Proof.
  unfold diff, mbind, result_bind.
  destruct (diff_keys_loop _ _ _) as [dk|]; [|done].
  destruct dk as [|ck dk]; [done|].
  destruct (resolve_type_map _ _); [|done].
  destruct (get_group_values _); [|done].
  destruct (traverse _ (ck :: dk)); [|done].
  by destruct (inventory self).
Qed.

(** Every entry of [indicator_changes] carries the value-level diff of
    its own (calculator, emitter) pair. *)
Lemma changes_values self other r chg :
  diff strptime self other = Ok (Some r) →
  chg ∈ indicator_changes r →
  ∃ vs, values chg = Some vs
        ∧ values_diff strptime self (calculator chg) (emitter chg) other = Ok vs.
Proof.
  intros (dk & chs & _ & _ & Hchs & -> & _)%diff_Some_inv Hin.
  destruct (elem_of_concat_traverse _ _ _ _ Hchs Hin) as ([c es] & ms & _ & Hms & Hm).
  unfold _indicator_diff in Hms.
  destruct (traverse_Ok_elem _ _ _ _ Hms Hm) as (e & _ & He).
  unfold mbind, result_bind in He; simpl in He.
  destruct (values_diff strptime self c e other) as [vs|] eqn:Hvs; [|done].
  destruct (indicator_meta_Ok _ _ _ _ _ He) as (-> & -> & ->). eauto.
Qed.

(** *** Identical snapshots *)

Lemma shallow_dict_diff_same (m : emitter_map) :
  _shallow_dict_diff m m = None ∨ _shallow_dict_diff m m = Some [].
Proof.
  unfold _shallow_dict_diff.
  destruct (bool_decide (m = ∅)); simpl; [by left | right].
  f_equal. apply elements_empty_iff, elem_of_equiv_empty. intros o.
  rewrite !elem_of_union, !elem_of_difference, elem_of_filter.
  intros [[[? Hn]|[? Hn]]|[Hn ?]];
    [apply Hn; by apply elem_of_intersection.. | done].
Qed.

Lemma diff_keys_loop_same self names :
  (∀ n, n ∈ names → is_Some (slots self !! n)) →
  diff_keys_loop self (Some (slots self)) names = Ok [].
Proof.
  induction names as [|n names IH]; intros Hs; simpl; [done|].
  destruct (Hs n) as [m Hm]; [left|].
  unfold getitem, mbind, result_bind. rewrite Hm.
  rewrite IH by (intros; apply Hs; by right).
  by destruct (shallow_dict_diff_same m) as [-> | ->].
Qed.

End diff_facts.

(** C2: for a document [D] that holds a slot for each of its calculators,
    [diff(D, D)] finds no changed emitter and returns [None]; the report
    is not built, whatever the group-by configuration. *)
Theorem diff_identical_is_absent (strptime : string → option date)
    (D : Doc.IndicatorDocument) :
  (∀ c, c ∈ dom (Doc._calculators D) → c ∈ dom (Doc.slots D)) →
  Doc.diff_keys_loop D (Some (Doc.slots D)) (Doc.keys (Doc._calculators D)) = Ok []
  ∧ Doc.diff strptime D (Some (Doc.slots D)) = Ok None.
Proof.
  intros Hdom.
  assert (Doc.diff_keys_loop D (Some (Doc.slots D)) (Doc.keys (Doc._calculators D))
          = Ok []) as Hdk.
  { apply diff_keys_loop_same. intros n Hn%elem_of_keys.
    apply elem_of_dom, Hdom. by apply elem_of_dom. }
  split; [done|]. unfold Doc.diff. by rewrite Hdk.
Qed.

Lemma diff_identical_is_absent_witness :
  Doc.diff Scenario.strptime Scenario.new_doc (Some (Doc.slots Scenario.new_doc))
  = Ok None.
Proof.
  apply (diff_identical_is_absent Scenario.strptime Scenario.new_doc).
  intros c Hc. vm_compute in Hc. vm_compute. exact Hc.
Defined.

(** *** The [all_indicators] inventory *)

Section inventory_facts.
Import Doc.

Lemma inventory_pairs self all :
  inventory self = Ok all → meta_pair <$> all = stored_pairs self.
Proof.
  unfold inventory, mbind, result_bind.
  destruct (traverse _ (keys (_calculators self))) as [pcs|] eqn:Hpcs; [|done].
  intros [= <-]. eapply traverse_concat_fmap; [|exact Hpcs].
  intros c ms _. simpl. unfold getitem.
  destruct (slots self !! c) as [m|]; [|done]. simpl.
  apply traverse_fmap. intros e meta _ Hmeta.
  apply indicator_meta_Ok in Hmeta as (Hc & He & _).
  unfold meta_pair. by rewrite Hc, He.
Qed.

Lemma elem_of_stored_pairs self c e :
  (c, e) ∈ stored_pairs self ↔
  c ∈ dom (_calculators self) ∧ ∃ vs, stored (slots self) c e = Ok vs.
Proof.
  unfold stored_pairs. rewrite list_elem_of_bind. split.
  - intros (c' & Hin & Hc').
    apply list_elem_of_fmap in Hin as (e' & [= <- <-] & He).
    apply elem_of_keys in Hc', He. split; [by apply elem_of_dom|].
    destruct He as [vs Hvs]. exists vs. apply stored_Ok.
    destruct (slots self !! c) as [m|]; [|done]. eauto.
  - intros [Hc [vs (m & Hm & Hvs)%stored_Ok]]. exists c. split.
    + apply list_elem_of_fmap. exists e. split; [done|].
      apply elem_of_keys. rewrite Hm. simpl. eauto.
    + apply elem_of_keys. by apply elem_of_dom.
Qed.

Lemma NoDup_stored_pairs self : NoDup (stored_pairs self).
Proof.
  unfold stored_pairs. apply NoDup_bind.
  - intros c1 c2 [c e] _ _ H1 H2.
    apply list_elem_of_fmap in H1 as (? & [= -> _] & _).
    apply list_elem_of_fmap in H2 as (? & [= -> _] & _). done.
  - intros c _. apply NoDup_fmap_2; [|apply NoDup_keys].
    by intros ?? [=].
  - apply NoDup_keys.
Qed.

Lemma inventory_entries self all m :
  inventory self = Ok all → m ∈ all →
  _indicator_meta self (calculator m) (emitter m) None = Ok m.
Proof.
  unfold inventory, mbind, result_bind.
  destruct (traverse _ (keys (_calculators self))) as [pcs|] eqn:Hpcs; [|done].
  intros [= <-] Hm.
  destruct (elem_of_concat_traverse _ _ _ _ Hpcs Hm) as (c & ms & _ & Hms & Hin).
  simpl in Hms. destruct (getitem (slots self) c) as [sl|]; [|done].
  destruct (traverse_Ok_elem _ _ _ _ Hms Hin) as (e & _ & He).
  destruct (indicator_meta_Ok _ _ _ _ _ He) as (-> & -> & _). done.
Qed.

End inventory_facts.

(** C4 (as amended): whenever [diff] produces a report, [all_indicators]
    holds exactly one entry for every emitter slug stored under every
    calculator of the new document, whether the stored value sequence is
    empty or not; each entry is the [_indicator_meta] of its pair, without
    [values]. *)
Theorem all_indicators_inventory (strptime : string → option date)
    (D : Doc.IndicatorDocument) (other : option (gmap string Doc.emitter_map))
    (r : Doc.diff_report) :
  Doc.diff strptime D other = Ok (Some r) →
  NoDup (Doc.meta_pair <$> Doc.all_indicators r)
  ∧ (∀ c e, (c, e) ∈ Doc.meta_pair <$> Doc.all_indicators r ↔
            c ∈ dom (Doc._calculators D)
            ∧ ∃ vs, Doc.stored (Doc.slots D) c e = Ok vs)
  ∧ (∀ m, m ∈ Doc.all_indicators r →
          Doc.values m = None
          ∧ Doc._indicator_meta D (Doc.calculator m) (Doc.emitter m) None = Ok m).
Proof.
  intros (dk & chs & _ & _ & _ & _ & Hinv)%diff_Some_inv.
  rewrite (inventory_pairs _ _ Hinv). split; [apply NoDup_stored_pairs|].
  split; [apply elem_of_stored_pairs|].
  intros m Hm. pose proof (inventory_entries _ _ _ Hinv Hm) as Hmeta.
  split; [|done]. by apply indicator_meta_Ok in Hmeta as (_ & _ & ->).
Qed.

Lemma all_indicators_inventory_witness :
  ∃ r, Doc.diff Scenario.strptime Scenario.new_doc None = Ok (Some r)
       ∧ NoDup (Doc.meta_pair <$> Doc.all_indicators r).
Proof.
  destruct (Doc.diff Scenario.strptime Scenario.new_doc None)
    as [[r|]|] eqn:Hd; try (vm_compute in Hd; discriminate Hd).
  exists r. split; [reflexivity|].
  exact (proj1 (all_indicators_inventory Scenario.strptime Scenario.new_doc None r Hd)).
Defined.

(** In the scenario the emitter [total] has an empty value sequence, and
    the report of [diff] still lists it in [all_indicators]. *)
Lemma all_indicators_lists_empty_emitter :
  ∃ r, Doc.diff Scenario.strptime Scenario.new_doc None = Ok (Some r)
       ∧ Doc.stored (Doc.slots Scenario.new_doc) "visits" "total" = Ok []
       ∧ Doc.meta_pair <$> Doc.all_indicators r
         = [("visits", "all_visits"); ("visits", "total")].
Proof.
  eexists. split; [vm_compute; reflexivity|].
  split; vm_compute; reflexivity.
Qed.

(** *** A new document *)

Section new_document_facts.
Import Doc.

Lemma NoDup_fst_filter {A B} (P : A * B → Prop) `{!∀ x, Decision (P x)}
    (l : list (A * B)) :
  NoDup l.*1 → NoDup (filter P l).*1.
Proof.
  induction l as [|x l IH]; [done|].
  rewrite fmap_cons. intros [Hx Hl]%NoDup_cons. rewrite filter_cons.
  destruct (decide (P x)); [|by apply IH].
  rewrite fmap_cons. apply NoDup_cons. split; [|by apply IH].
  intros (y & Hy & [_ Hin]%list_elem_of_filter)%list_elem_of_fmap.
  apply Hx, list_elem_of_fmap. eauto.
Qed.

Lemma NoDup_nonempty_keys m : NoDup (nonempty_keys m).
Proof. apply NoDup_fst_filter, NoDup_fst_map_to_list. Qed.

Lemma elem_of_nonempty_keys (m : emitter_map) e :
  e ∈ nonempty_keys m ↔ ∃ vs, m !! e = Some vs ∧ vs ≠ [].
Proof.
  unfold nonempty_keys. rewrite list_elem_of_fmap. split.
  - intros ([e' vs] & -> & [Hne Hin]%list_elem_of_filter).
    apply elem_of_map_to_list in Hin. eauto.
  - intros (vs & Hvs & Hne). exists (e, vs). split; [done|].
    apply list_elem_of_filter. split; [done|]. by apply elem_of_map_to_list.
Qed.

(** With no previous snapshot, [diff_keys] lists the emitters that hold
    a non-empty sequence. *)
Lemma diff_keys_absent_pairs self names dk :
  diff_keys_loop self None names = Ok dk →
  pairs dk
  = names ≫= λ c, pair c <$> nonempty_keys (default ∅ (slots self !! c)).
Proof.
  revert dk. induction names as [|c names IH]; intros dk; simpl.
  - by intros [= <-].
  - unfold getitem, mbind at 1 2, result_bind.
    destruct (slots self !! c) as [m|]; [|done]. simpl.
    destruct (diff_keys_loop self None names) as [tl|]; [|done].
    specialize (IH _ eq_refl). unfold nonempty_keys.
    destruct (filter _ (map_to_list m)) as [|kv kvs].
    + intros [= <-]. by rewrite IH.
    + intros [= <-]. unfold pairs in *. rewrite bind_cons, IH. done.
Qed.

Lemma NoDup_nonempty_pairs self :
  NoDup (keys (_calculators self) ≫=
           λ c, pair c <$> nonempty_keys (default ∅ (slots self !! c))).
Proof.
  apply NoDup_bind.
  - intros c1 c2 [c e] _ _ H1 H2.
    apply list_elem_of_fmap in H1 as (? & [= -> _] & _).
    apply list_elem_of_fmap in H2 as (? & [= -> _] & _). done.
  - intros c _. apply NoDup_fmap_2; [|apply NoDup_nonempty_keys].
    by intros ?? [=].
  - apply NoDup_keys.
Qed.

Lemma elem_of_nonempty_pairs self c e :
  (c, e) ∈ keys (_calculators self) ≫=
             (λ c, pair c <$> nonempty_keys (default ∅ (slots self !! c)))
  ↔ c ∈ dom (_calculators self)
    ∧ ∃ vs, stored (slots self) c e = Ok vs ∧ vs ≠ [].
Proof.
  rewrite list_elem_of_bind. split.
  - intros (c' & Hin & Hc').
    apply list_elem_of_fmap in Hin as (e' & [= <- <-] & He).
    apply elem_of_keys in Hc'. split; [by apply elem_of_dom|].
    apply elem_of_nonempty_keys in He as (vs & Hvs & Hne).
    exists vs. split; [|done]. apply stored_Ok.
    destruct (slots self !! c) as [m|]; [|done]. eauto.
  - intros [Hc (vs & (m & Hm & Hvs)%stored_Ok & Hne)]. exists c. split.
    + apply list_elem_of_fmap. exists e. split; [done|].
      apply elem_of_nonempty_keys. rewrite Hm. simpl. eauto.
    + apply elem_of_keys. by apply elem_of_dom.
Qed.

Lemma diff_keys_absent_nonempty self names dk :
  diff_keys_loop self None names = Ok dk → Forall (λ ck, ck.2 ≠ []) dk.
Proof.
  revert dk. induction names as [|c names IH]; intros dk; simpl.
  - intros [= <-]. constructor.
  - unfold getitem, mbind at 1 2, result_bind.
    destruct (slots self !! c) as [m|]; [|done]. simpl.
    destruct (diff_keys_loop self None names) as [tl|]; [|done].
    specialize (IH _ eq_refl).
    destruct (filter _ (map_to_list m)) as [|kv kvs].
    + by intros [= <-].
    + intros [= <-]. constructor; [done | exact IH].
Qed.

(** The entries of [indicator_changes] stand for the pairs of
    [diff_keys]. *)
Lemma changes_pairs strptime self other dk chs :
  traverse (λ ck, _indicator_diff strptime self ck.1 ck.2 other) dk = Ok chs →
  meta_pair <$> concat chs = pairs dk.
Proof.
  intros Hchs. unfold pairs. eapply traverse_concat_fmap; [|exact Hchs].
  intros [c es] ms _. simpl. unfold _indicator_diff.
  apply traverse_fmap. intros e meta _ Hmeta.
  unfold mbind, result_bind in Hmeta.
  destruct (values_diff strptime self c e other); [|done].
  apply indicator_meta_Ok in Hmeta as (Hc & He & _).
  unfold meta_pair. by rewrite Hc, He.
Qed.

End new_document_facts.

(** C3 (as amended): whenever [diff(D, None)] returns, it returns
    [None] if no (calculator, emitter) pair of [D] stores a non-empty
    value sequence, and otherwise a report whose [indicator_changes] are
    not empty and stand, each pair once, for exactly the pairs whose
    stored value sequence is not empty; the [values] of each entry are the
    stored values of its pair, normalised one by one, in order. *)
Theorem diff_new_document (strptime : string → option date)
    (D : Doc.IndicatorDocument) (res : option Doc.diff_report) :
  Doc.diff strptime D None = Ok res →
  match res with
  | None =>
      ∀ c e vs, c ∈ dom (Doc._calculators D) →
                Doc.stored (Doc.slots D) c e = Ok vs → vs = []
  | Some r =>
      Doc.indicator_changes r ≠ []
      ∧ NoDup (Doc.meta_pair <$> Doc.indicator_changes r)
      ∧ (∀ c e, (c, e) ∈ Doc.meta_pair <$> Doc.indicator_changes r ↔
                c ∈ dom (Doc._calculators D)
                ∧ ∃ vs, Doc.stored (Doc.slots D) c e = Ok vs ∧ vs ≠ [])
      ∧ (∀ chg, chg ∈ Doc.indicator_changes r →
           ∃ vs out,
             Doc.stored (Doc.slots D) (Doc.calculator chg) (Doc.emitter chg) = Ok vs
             ∧ Doc.values chg = Some out
             ∧ Forall2 (λ v o, Doc.NormalizedEmittedValue strptime v = Ok o) vs out)
  end.
Proof.
  intros Hd. destruct res as [r|].
  - pose proof Hd as (dk & chs & Hdk & Hne & Hchs & Hic & _)%diff_Some_inv.
    split.
    { intros Hnil. rewrite Hic in Hnil.
      pose proof (changes_pairs _ _ _ _ _ Hchs) as Hp. rewrite Hnil in Hp.
      pose proof (diff_keys_absent_nonempty _ _ _ Hdk) as Hall.
      destruct dk as [|[c es] dk]; [done|].
      apply Forall_cons in Hall as [Hes _]. simpl in Hes.
      destruct es as [|e es]; [done|]. discriminate Hp. }
    rewrite Hic, (changes_pairs _ _ _ _ _ Hchs), (diff_keys_absent_pairs _ _ _ Hdk).
    split; [apply NoDup_nonempty_pairs|]. split; [apply elem_of_nonempty_pairs|].
    intros chg Hchg. rewrite <- Hic in Hchg.
    destruct (changes_values _ _ _ _ _ Hd Hchg) as (out & Hout & Hvd).
    unfold Doc.values_diff, mbind, result_bind in Hvd.
    destruct (Doc.stored _ _ _) as [vs|]; [|done].
    exists vs, out. split; [done|]. split; [done|]. by apply traverse_Ok.
  - apply diff_None_inv, diff_keys_absent_pairs in Hd. unfold Doc.pairs in Hd.
    intros c e vs Hc Hvs. destruct (decide (vs = [])) as [|Hne]; [done|].
    assert ((c, e) ∈ @nil (string * string)) as Hin; [|by apply elem_of_nil in Hin].
    change (@nil (string * string)) with ([] ≫= λ ck : string * list string,
                                              pair ck.1 <$> ck.2).
    rewrite Hd. apply elem_of_nonempty_pairs. eauto.
Qed.

Lemma diff_new_document_witness :
  ∃ r, Doc.diff Scenario.strptime Scenario.new_doc None = Ok (Some r)
       ∧ ∀ c e, (c, e) ∈ Doc.meta_pair <$> Doc.indicator_changes r ↔
                c ∈ dom (Doc._calculators Scenario.new_doc)
                ∧ ∃ vs, Doc.stored (Doc.slots Scenario.new_doc) c e = Ok vs ∧ vs ≠ [].
Proof.
  destruct (Doc.diff Scenario.strptime Scenario.new_doc None)
    as [[r|]|] eqn:Hd; try (vm_compute in Hd; discriminate Hd).
  exists r. split; [reflexivity|].
  exact (proj1 (proj2 (proj2 (diff_new_document Scenario.strptime
                                Scenario.new_doc (Some r) Hd)))).
Defined.

(** A new document whose emitters all produced nothing (its source was
    filtered out): [diff] against no previous snapshot returns [None], not
    a report. *)
Lemma diff_new_document_all_empty :
  Doc.stored (Doc.slots (Scenario.doc_with (Scenario.visit_slots [] [])))
    "visits" "all_visits" = Ok []
  ∧ Doc.stored (Doc.slots (Scenario.doc_with (Scenario.visit_slots [] [])))
      "visits" "total" = Ok []
  ∧ Doc.diff Scenario.strptime
      (Scenario.doc_with (Scenario.visit_slots [] [])) None = Ok None.
Proof. repeat split; vm_compute; reflexivity. Qed.

(** *** The value-level diff *)

Section value_diff_facts.
Import Doc.
Variable strptime : string → option date.

(** [set([...])] keeps what it started from, adds only elements of the
    list under their own key, and holds the key of every element. *)
Lemma set_of_spec l acc s :
  set_of l acc = Ok s →
  (∀ kv, kv ∈ s → kv ∈ acc ∨ ∃ v, v ∈ l ∧ kv.2 = v ∧ key v = Ok kv.1)
  ∧ (∀ v, v ∈ l → ∃ k, key v = Ok k ∧ k ∈ s.*1)
  ∧ (∀ kv, kv ∈ acc → kv ∈ s).
Proof.
  revert acc. induction l as [|v l IH]; intros acc; simpl.
  - intros [= <-]. split; [by left|]. split; [by intros ? ?%elem_of_nil | done].
  - unfold mbind, result_bind. destruct (key v) as [k|] eqn:Hk; [|done].
    case_bool_decide as Hin; intros Hs;
      destruct (IH _ Hs) as (IHa & IHb & IHc).
    + split; [|split; [|done]].
      * intros kv [?|(v' & Hv' & ? & ?)]%IHa; [by left|].
        right. exists v'. split; [by right | done].
      * intros v' [->|Hv']%elem_of_cons; [|by apply IHb].
        exists k. split; [done|].
        apply list_elem_of_fmap in Hin as (kv & -> & Hkv).
        apply list_elem_of_fmap. exists kv. split; [done | by apply IHc].
    + split; [|split].
      * intros kv [[?|Heq%list_elem_of_singleton]%elem_of_app
                  |(v' & Hv' & ? & ?)]%IHa.
        -- by left.
        -- subst kv. right. exists v. split; [by left | done].
        -- right. exists v'. split; [by right | done].
      * intros v' [->|Hv']%elem_of_cons; [|by apply IHb].
        exists k. split; [done|].
        apply list_elem_of_fmap. exists (k, v). split; [done|].
        apply IHc, elem_of_app. right. by apply list_elem_of_singleton.
      * intros kv Hkv. apply IHc, elem_of_app. by left.
Qed.

Lemma values_diff_present self other c e vals x :
  values_diff strptime self c e (Some other) = Ok vals →
  x ∈ vals →
  (∃ vs v, stored (slots self) c e = Ok vs ∧ v ∈ vs
           ∧ NormalizedEmittedValue strptime v = Ok x)
  ∧ ∃ k, key x = Ok k
         ∧ ∃ ovs, stored other c e = Ok ovs
                  ∧ ∀ o, o ∈ ovs →
                      ∃ o' k', NormalizedEmittedValue strptime o = Ok o'
                               ∧ key o' = Ok k' ∧ k' ≠ k.
Proof.
  unfold values_diff, mbind, result_bind.
  destruct (stored (slots self) c e) as [sv|]; [|done].
  destruct (traverse _ sv) as [sn|] eqn:Hsn; [|done].
  destruct (set_of sn []) as [ss|] eqn:Hss; [|done].
  destruct (stored other c e) as [ov|]; [|done].
  destruct (traverse _ ov) as [on|] eqn:Hon; [|done].
  destruct (set_of on []) as [os|] eqn:Hos; [|done].
  intros [= <-] ([k x'] & -> & [Hnot Hkv]%list_elem_of_filter)%list_elem_of_fmap.
  simpl in *.
  destruct (set_of_spec _ _ _ Hss) as (Ha & _ & _).
  destruct (set_of_spec _ _ _ Hos) as (_ & Hb & _).
  destruct (Ha _ Hkv) as [?%elem_of_nil|(v' & Hv' & <- & Hkey)]; [done|].
  simpl in *. split.
  - destruct (traverse_Ok_elem _ _ _ _ Hsn Hv') as (v & Hv & Hnv). eauto.
  - exists k. split; [done|]. exists ov. split; [done|].
    intros o Ho. destruct (traverse_Ok_elem_l _ _ _ _ Hon Ho) as (o' & Ho' & Hno).
    destruct (Hb _ Ho') as (k' & Hk' & Hin).
    exists o', k'. split; [done|]. split; [done|]. by intros ->.
Qed.

End value_diff_facts.

Lemma group_tuple_refines (gb : pyval) (g : option (list scalar)) :
  (if truthy gb then Some <$> Doc.tuple gb else Ok None) = Ok g →
  g = SpecKey.group_tuple gb.
Proof.
  destruct gb as [[|n|s|d|d h mi se]|[|a l]]; simpl; try by intros [= <-].
  - destruct (n =? 0); simpl; [by intros [= <-] | done].
  - destruct s; simpl; by intros [= <-].
Qed.

(** The code's normalisation followed by its key is the key of the
    specification, and the normalised value carries the parsed date with
    the stored value and group_by. *)
Lemma key_refines (strptime : string → option date) (v : raw) (x : pydict)
    (k : Doc.nev_key) :
  Doc.NormalizedEmittedValue strptime v = Ok x →
  Doc.key x = Ok k →
  ∃ dt d n gb,
    SpecKey.fields v = Some (PScalar dt, PScalar n, gb)
    ∧ SpecKey.calendar_date strptime dt = Some d
    ∧ x !! "date" = Some (PScalar d)
    ∧ x !! "value" = Some (PScalar n)
    ∧ x !! "group_by" = Some gb
    ∧ k = (d, n, SpecKey.group_tuple gb)
    ∧ SpecKey.key strptime v = Some k.
Proof.
  intros Hn Hk.
  assert (∃ m : pydict,
            SpecKey.fields v
            = (dt ← m !! "date"; x ← m !! "value"; gb ← m !! "group_by";
               Some (dt, x, gb))
            ∧ ∃ dtv, m !! "date" = Some dtv
              ∧ (if truthy dtv && negb (Doc.is_date dtv)
                 then ∃ s d, dtv = PScalar (SStr s) ∧ strptime s = Some d
                             ∧ x = <["date" := PScalar (SDate d)]> m
                 else x = m)) as (m & Hf & dtv & Hdt & Hx).
  { unfold Doc.NormalizedEmittedValue in Hn.
    destruct v as [m|[s|[|a [|b rest]]]]; simpl in Hn; try done.
    - exists m. split; [done|].
      destruct (m !! "date") as [dtv|] eqn:Hd; [|done]. exists dtv. split; [done|].
      destruct (truthy dtv && negb (Doc.is_date dtv)).
      + destruct dtv as [[| |s| |]|]; try done.
        destruct (strptime s) as [d|] eqn:Hs; [|done]. injection Hn as <-. eauto.
      + by injection Hn as <-.
    - exists (Emitter.mkdict (PScalar a) (PScalar b)). split.
      { simpl. by rewrite mkdict_date, mkdict_value, mkdict_group_by. }
      rewrite mkdict_date in Hn. exists (PScalar a). split; [apply mkdict_date|].
      destruct (truthy (PScalar a) && negb (Doc.is_date (PScalar a))).
      + destruct a as [| |s| |]; try done.
        destruct (strptime s) as [d|] eqn:Hs; [|done]. injection Hn as <-. eauto.
      + by injection Hn as <-. }
  unfold Doc.key in Hk.
  destruct (x !! "group_by") as [gb|] eqn:Hgb; [|done].
  destruct (x !! "date") as [dtx|] eqn:Hdx; [|done].
  destruct (x !! "value") as [vx|] eqn:Hvx; [|done].
  destruct (if truthy gb then Some <$> Doc.tuple gb else Ok None) as [g|] eqn:Hg;
    simpl in Hk; [|done].
  apply group_tuple_refines in Hg as ->.
  destruct dtx as [d|]; [|done]. destruct vx as [n|]; [|done].
  injection Hk as <-.
  assert (m !! "value" = Some (PScalar n) ∧ m !! "group_by" = Some gb
          ∧ ∃ dt, dtv = PScalar dt ∧ SpecKey.calendar_date strptime dt = Some d)
    as (Hmv & Hmg & dt & -> & Hcal).
  { destruct (truthy dtv && negb (Doc.is_date dtv)) eqn:Ht.
    - destruct Hx as (s & d' & -> & Hs & ->).
      rewrite lookup_insert_ne in Hgb, Hvx by done.
      rewrite lookup_insert_eq in Hdx. injection Hdx as <-.
      split; [done|]. split; [done|]. exists (SStr s). split; [done|].
      destruct s; [done|]. simpl. by rewrite Hs.
    - subst x. split; [done|]. split; [done|].
      rewrite Hdt in Hdx. injection Hdx as ->. exists d. split; [done|].
      destruct d as [|z|s| |]; try done. by destruct s. }
  exists dt, d, n, gb.
  assert (SpecKey.fields v = Some (PScalar dt, PScalar n, gb)) as Hfv.
  { rewrite Hf, Hdt, Hmv, Hmg. done. }
  split; [done|]. split; [done|]. split; [done|]. split; [done|].
  split; [done|]. split; [done|].
  unfold SpecKey.key. rewrite Hfv, Hcal. done.
Qed.

(** C1: when [diff] against a present previous snapshot produces a
    report, every entry of the [values] of every IndicatorChange comes
    from a value stored in the new snapshot under the same calculator and
    emitter: it carries that value's [value] and [group_by], and its
    [date] with a string parsed back into a calendar date.  No value
    stored in the old snapshot under that emitter has the same
    (date, value, tuple(group_by) or null) key, string dates being parsed
    into calendar dates before the comparison. *)
Theorem diff_values_new_not_old (strptime : string → option date)
    (D : Doc.IndicatorDocument) (old : gmap string Doc.emitter_map)
    (r : Doc.diff_report) (chg : Doc.indicator_meta) (vals : list pydict)
    (x : pydict) :
  Doc.diff strptime D (Some old) = Ok (Some r) →
  chg ∈ Doc.indicator_changes r →
  Doc.values chg = Some vals →
  x ∈ vals →
  ∃ vs ovs v dt d n gb,
    Doc.stored (Doc.slots D) (Doc.calculator chg) (Doc.emitter chg) = Ok vs
    ∧ Doc.stored old (Doc.calculator chg) (Doc.emitter chg) = Ok ovs
    ∧ v ∈ vs
    ∧ SpecKey.fields v = Some (PScalar dt, PScalar n, gb)
    ∧ SpecKey.calendar_date strptime dt = Some d
    ∧ x !! "date" = Some (PScalar d)
    ∧ x !! "value" = Some (PScalar n)
    ∧ x !! "group_by" = Some gb
    ∧ ∀ o, o ∈ ovs →
        ∃ k', SpecKey.key strptime o = Some k'
              ∧ k' ≠ (d, n, SpecKey.group_tuple gb).
Proof.
  intros Hd Hchg Hvals Hx.
  destruct (changes_values _ _ _ _ _ Hd Hchg) as (vals' & Hvals' & Hvd).
  assert (vals' = vals) as -> by congruence.
  destruct (values_diff_present _ _ _ _ _ _ _ Hvd Hx)
    as ((vs & v & Hvs & Hv & Hnv) & k & Hk & ovs & Hovs & Hold).
  destruct (key_refines _ _ _ _ Hnv Hk)
    as (dt & d & n & gb & Hf & Hc & Hxd & Hxv & Hxg & -> & _).
  exists vs, ovs, v, dt, d, n, gb. repeat (split; [done|]).
  intros o Ho. destruct (Hold o Ho) as (o' & k' & Hno & Hko & Hne).
  destruct (key_refines _ _ _ _ Hno Hko) as (_ & _ & _ & _ & _ & _ & _ & _ & _ & _ & Hsk).
  eauto.
Qed.

Example scenario_diff :
  Doc.diff Scenario.strptime Scenario.new_doc (Some Scenario.old_slots)
  = Ok (Some Scenario.expected_report).
Proof. vm_compute. reflexivity. Qed.

Lemma diff_values_new_not_old_witness :
  ∃ ovs,
    Doc.stored Scenario.old_slots "visits" "all_visits" = Ok ovs
    ∧ ∀ o, o ∈ ovs →
        ∃ k', SpecKey.key Scenario.strptime o = Some k'
              ∧ k' ≠ (SDate (Date 2021 1 2), SInt 1, None).
Proof.
  destruct (diff_values_new_not_old Scenario.strptime Scenario.new_doc
              Scenario.old_slots Scenario.expected_report
              Scenario.expected_change
              [Emitter.mkdict (PScalar (SDate (Date 2021 1 2))) (PScalar (SInt 1))]
              (Emitter.mkdict (PScalar (SDate (Date 2021 1 2))) (PScalar (SInt 1))))
    as (vs & ovs & v & dt & d & n & gb & _ & Hovs & _ & _ & _ & Hd & Hn & Hg & Hold).
  - vm_compute; reflexivity.
  - left.
  - reflexivity.
  - left.
  - vm_compute in Hd, Hn, Hg.
    injection Hd as <-. injection Hn as <-. injection Hg as <-.
    exists ovs. split; [exact Hovs | exact Hold].
Defined.

(** Scenario B of the specification: the recomputed document has one
    visit fewer than the stored one; the emitter is reported as changed
    and its [values] are empty. *)
Example scenario_decrease :
  ∃ r, Doc.diff Scenario.strptime
         (Scenario.doc_with
            (Scenario.visit_slots [Scenario.ev (SDate (Date 2021 1 1)) 1] []))
         (Some (Scenario.visit_slots
                  [Scenario.ev (SStr "2021-01-01") 1;
                   Scenario.ev (SStr "2021-01-02") 1] []))
       = Ok (Some r)
       ∧ Doc.indicator_changes r
         = [Doc.Meta "visits" "all_visits" "date" "count" (Some [])].
Proof. eexists. split; vm_compute; reflexivity. Qed.

Example emit_bare_date :
  Emitter.wrapped_value Emitter.custom_date_emitter
    (RVal (PScalar (SDate (Date 2021 1 1))))
  = Ok (Emitter.mkdict (PScalar (SDate (Date 2021 1 1))) (PScalar (SInt 1))).
Proof. reflexivity. Qed.

Example emit_datetime_truncated :
  Emitter.wrapped_value Emitter.custom_date_emitter
    (RVal (PList [SDateTime (Date 2021 1 2) 10 30 0; SInt 5]))
  = Ok (Emitter.mkdict (PScalar (SDate (Date 2021 1 2))) (PScalar (SInt 5))).
Proof. vm_compute. reflexivity. Qed.

(** * Further properties of the code *)

(** ** Emitters *)

Lemma traverse_first_error {A B} (f : A → result B) (l1 l2 : list A) a bs e :
  traverse f l1 = Ok bs → f a = Raise e → traverse f (l1 ++ a :: l2) = Raise e.
Proof.
  revert bs. induction l1 as [|x l1 IH]; intros bs; simpl.
  - intros _ Ha. unfold mbind, result_bind. by rewrite Ha.
  - unfold mbind, result_bind. destruct (f x) as [b|]; [|done].
    destruct (traverse f l1) as [bs'|] eqn:Hl1; [|done].
    intros _ Ha. by rewrite (IH _ eq_refl Ha).
Qed.

Lemma traverse_length {A B} (f : A → result B) (l : list A) bs :
  traverse f l = Ok bs → length bs = length l.
Proof. intros HF%traverse_Ok. symmetry. by eapply Forall2_length. Qed.

(** X1: every value an emitter yields has a [value] entry, a [group_by]
    that is [None] or a list, and a [date] that is a calendar date for the
    date emitter (never a datetime, never [None]) and [None] for the null
    emitter. *)
Theorem emitted_value_canonical (cls : Emitter.emitter_class) (r : raw) (v : pydict) :
  Emitter.wrapped_value cls r = Ok v →
  is_Some (v !! "value")
  ∧ (v !! "group_by" = Some (PScalar SNone) ∨ ∃ l, v !! "group_by" = Some (PList l))
  ∧ match cls with
    | Emitter.base_emitter => True
    | Emitter.custom_date_emitter => ∃ d, v !! "date" = Some (PScalar (SDate d))
    | Emitter.custom_null_emitter => v !! "date" = Some (PScalar SNone)
    end.
Proof.
  intros (n & Hn & Hv)%wrapped_value_Ok.
  destruct (normalize_Ok_shape _ _ Hn) as [Hx Hg].
  rewrite <- (validate_other_keys _ _ _ _ "value" Hv) in Hx by done.
  rewrite <- (validate_other_keys _ _ _ _ "group_by" Hv) in Hg by done.
  split; [done|]. split; [done|].
  pose proof (validate_Ok_date_ok _ _ _ Hv) as Hd. by destruct cls.
Qed.

Lemma emitted_value_canonical_witness :
  ∃ d, (<["date" := PScalar (SDate (Date 2021 1 2))]>
          (Emitter.mkdict (PScalar (SDateTime (Date 2021 1 2) 10 30 0))
             (PScalar (SInt 5))) : pydict) !! "date"
       = Some (PScalar (SDate d)).
Proof.
  refine (proj2 (proj2 (emitted_value_canonical Emitter.custom_date_emitter
                          (RVal (PList [SDateTime (Date 2021 1 2) 10 30 0; SInt 5]))
                          _ _))).
  vm_compute; reflexivity.
Defined.

(** X2: in the bare form the date emitter accepts exactly dates and
    datetimes and the null emitter accepts exactly [None]; every other
    bare value, an identifier included, is refused with
    [AssertionError]. *)
Theorem bare_value_acceptance (s : scalar) :
  (Emitter.wrapped_value Emitter.custom_date_emitter (RVal (PScalar s))
   = if Doc.is_date (PScalar s)
     then Ok (Emitter.mkdict
                (PScalar (match s with SDateTime d _ _ _ => SDate d | _ => s end))
                (PScalar (SInt 1)))
     else Raise AssertionError)
  ∧ (Emitter.wrapped_value Emitter.custom_null_emitter (RVal (PScalar s))
     = if decide (s = SNone)
       then Ok (Emitter.mkdict (PScalar SNone) (PScalar (SInt 1)))
       else Raise AssertionError).
Proof.
  split.
  - unfold Emitter.wrapped_value; simpl. rewrite mkdict_date.
    by destruct s.
  - unfold Emitter.wrapped_value; simpl. rewrite mkdict_date.
    by destruct s.
Qed.

(** X3: an emitter's materialised output has one normalised value per
    yielded value, in order; and when a yielded value is invalid the whole
    output raises the exception of the first invalid value: nothing is
    dropped. *)
Theorem wrapped_f_all_or_first_error (cls : Emitter.emitter_class)
    (yielded : list raw) :
  (∀ vs, Emitter.wrapped_f cls yielded = Ok vs →
         Forall2 (λ y v, Emitter.wrapped_value cls y = Ok v) yielded vs)
  ∧ (∀ l1 y l2 vs1 e,
       yielded = l1 ++ y :: l2 →
       Emitter.wrapped_f cls l1 = Ok vs1 →
       Emitter.wrapped_value cls y = Raise e →
       Emitter.wrapped_f cls yielded = Raise e).
Proof.
  split.
  - intros vs. apply traverse_Ok.
  - intros l1 y l2 vs1 e -> H1 Hy. by eapply traverse_first_error.
Qed.

Lemma wrapped_f_all_or_first_error_witness :
  Emitter.wrapped_f Emitter.custom_null_emitter
    [RVal (PScalar SNone); RVal (PScalar (SStr "case-1")); RVal (PList [])]
  = Raise AssertionError.
Proof.
  apply (proj2 (wrapped_f_all_or_first_error Emitter.custom_null_emitter _)
           [RVal (PScalar SNone)] (RVal (PScalar (SStr "case-1")))
           [RVal (PList [])]
           [Emitter.mkdict (PScalar SNone) (PScalar (SInt 1))]).
  - reflexivity.
  - vm_compute; reflexivity.
  - vm_compute; reflexivity.
Defined.

(** ** Document identifiers *)

Lemma append_nil (s : string) : String.append "" s = s.
Proof. reflexivity. Qed.

Lemma append_cons c (a s : string) :
  String.append (String c a) s = String c (String.append a s).
Proof. reflexivity. Qed.

Lemma string_append_assoc (a b c : string) :
  String.append (String.append a b) c = String.append a (String.append b c).
Proof.
  induction a as [|x a IH]; [done|]. rewrite !append_cons. by f_equal.
Qed.

Lemma substring_whole (s : string) : String.substring 0 (String.length s) s = s.
Proof. induction s as [|c s IH]; simpl; [done | by f_equal]. Qed.

Lemma prefix_append (p s : string) : String.prefix p (String.append p s) = true.
Proof.
  induction p as [|c p IH]; [by destruct s|].
  rewrite append_cons. simpl. by destruct (Ascii.ascii_dec c c).
Qed.

Lemma substring_append (p s : string) :
  String.substring (String.length p)
    (String.length (String.append p s) - String.length p) (String.append p s) = s.
Proof.
  induction p as [|c p IH].
  - rewrite append_nil. simpl. rewrite Nat.sub_0_r. apply substring_whole.
  - rewrite append_cons. simpl. exact IH.
Qed.

Lemma prefix_split (p s : string) :
  String.prefix p s = true →
  String.append p (String.substring (String.length p)
                     (String.length s - String.length p) s) = s.
Proof.
  revert s. induction p as [|c p IH]; intros s.
  - intros _. rewrite append_nil. simpl. rewrite Nat.sub_0_r.
    apply substring_whole.
  - destruct s as [|c' s]; [done|]. simpl.
    destruct (Ascii.ascii_dec c c') as [->|]; [|done].
    intros Hp. rewrite append_cons. by rewrite (IH _ Hp).
Qed.

Lemma strip_Ok (fluff_name id_string s : string) :
  Calc.strip fluff_name id_string = Ok s →
  id_string = Pillow.indicator_id fluff_name s.
Proof.
  unfold Calc.strip, Pillow.indicator_id.
  destruct (String.prefix _ id_string) eqn:Hp; [|done].
  intros [= <-]. rewrite <- string_append_assoc. symmetry. by apply prefix_split.
Qed.

(** X4: the identifier the pipeline gives an indicator document and the
    stripping done on query results are inverse: stripping
    ["<class name>-<source id>"] gives back the source document's id. *)
Theorem strip_indicator_id (class_name doc_id : string) :
  Calc.strip class_name (Pillow.indicator_id class_name doc_id) = Ok doc_id.
Proof.
  unfold Calc.strip, Pillow.indicator_id.
  rewrite <- string_append_assoc, prefix_append. f_equal.
  apply substring_append.
Qed.

(** X5: [strip] returns only for identifiers that carry the prefix
    ["<class name>-"], and then the identifier is the prefix followed by
    the result; for any other identifier it raises [AssertionError]. *)
Theorem strip_requires_prefix (class_name id_string : string) :
  (∀ s, Calc.strip class_name id_string = Ok s →
        id_string = Pillow.indicator_id class_name s)
  ∧ ((∀ s, id_string ≠ Pillow.indicator_id class_name s) →
     Calc.strip class_name id_string = Raise AssertionError).
Proof.
  split; [apply strip_Ok|]. intros Hno.
  destruct (Calc.strip class_name id_string) as [s|e] eqn:Hs.
  - by apply strip_Ok, Hno in Hs.
  - unfold Calc.strip in Hs. destruct (String.prefix _ _); congruence.
Qed.

Lemma strip_requires_prefix_witness :
  Calc.strip "VisitFluff" "OtherFluff-abc" = Raise AssertionError.
Proof.
  apply (strip_requires_prefix "VisitFluff" "OtherFluff-abc").
  intros s Hs. vm_compute in Hs. discriminate Hs.
Defined.

(** ** Query results *)

(** X6: without reduction, the entry of an emitter lists one identifier
    per row of the view result, in row order, and each row's id is the
    indicator identifier of the listed source id. *)
Theorem ids_in_row_order
    (doc_type fluff_name slug : string) (now : date) (date_sub : date → Z → date)
    (json_format_date : date → string) (view : Calc.view_query → list Calc.row)
    (self : Calc.Calculator) (key : list scalar) (name : string)
    (em : Calc.emitter_fn) (qa : Calc.view_query) (ids : list string) :
  Calc.query doc_type slug now date_sub json_format_date self key false name em
  = Ok qa →
  Calc.emitter_result doc_type fluff_name slug now date_sub json_format_date view
    self key false name em = Ok ids →
  Forall2 (λ row id, Calc.row_id row = Some (Pillow.indicator_id fluff_name id))
    (view qa) ids.
Proof.
  intros Hq. unfold Calc.emitter_result. rewrite Hq. simpl.
  intros HF%traverse_Ok. eapply Forall2_impl; [exact HF|].
  intros row id. simpl. destruct (Calc.row_id row) as [i|]; [|done].
  intros Hs%strip_Ok. by subst.
Qed.

Lemma ids_in_row_order_witness :
  Forall2 (λ row id, Calc.row_id row = Some (Pillow.indicator_id "VisitFluff" id))
    [Calc.Row (Some "VisitFluff-a1") None; Calc.Row (Some "VisitFluff-b2") None]
    ["a1"; "b2"].
Proof.
  apply (ids_in_row_order "VisitFluff" "VisitFluff" "visits" (Date 2021 1 8)
           (λ d n, Date (year d) (month d) (day d - n)) (λ _, "2021-01-08")
           (λ _, [Calc.Row (Some "VisitFluff-a1") None;
                  Calc.Row (Some "VisitFluff-b2") None])
           (Calc.MkCalculator Calc.WNone
              (<["total" := Calc.EmitterFn "null" "sum"]> ∅))
           [SStr "clinic-1"] "total" (Calc.EmitterFn "null" "sum")
           (Calc.ViewQuery
              (Calc.ByKey [SStr "VisitFluff"; SStr "clinic-1"; SStr "visits";
                           SStr "total"; SNone]) false false)).
  - reflexivity.
  - vm_compute; reflexivity.
Defined.

(** X7: a result of [get_result] has exactly one entry per emitter of the
    calculator, whatever the key and the mode. *)
Theorem get_result_keys
    (doc_type fluff_name slug : string) (now : date) (date_sub : date → Z → date)
    (json_format_date : date → string) (view : Calc.view_query → list Calc.row)
    (self : Calc.Calculator) (key : list scalar) (reduce : bool)
    (r : gmap string (Calc.res_ty reduce)) :
  Calc.get_result doc_type fluff_name slug now date_sub json_format_date view
    self key reduce = Ok r →
  dom r = dom (Calc._fluff_emitters self).
Proof.
  intros Hr. unfold Calc.get_result in Hr.
  eapply get_result_loop_lookup in Hr as [Hin Hout];
    [|apply NoDup_fst_map_to_list].
  apply set_eq. intros name. rewrite !elem_of_dom. split.
  - intros Hsome.
    destruct (Calc._fluff_emitters self !! name) as [em|] eqn:Hem; [eauto|].
    rewrite Hout, lookup_empty in Hsome; [by destruct Hsome|].
    intros ([n e] & -> & Hne%elem_of_map_to_list)%list_elem_of_fmap.
    simpl in Hem. congruence.
  - intros [em Hem%elem_of_map_to_list].
    destruct (Hin _ _ Hem) as (v & _ & ->). eauto.
Qed.

Lemma get_result_keys_witness :
  ∃ r, Calc.get_result "VisitFluff" "VisitFluff" "visits" (Date 2021 1 8)
         (λ d n, Date (year d) (month d) (day d - n)) (λ _, "2021-01-08")
         (λ _, []) Scenario.visits [SStr "clinic-1"] true = Ok r
       ∧ dom r = dom (Calc._fluff_emitters Scenario.visits).
Proof.
  destruct (Calc.get_result "VisitFluff" "VisitFluff" "visits" (Date 2021 1 8)
              (λ d n, Date (year d) (month d) (day d - n)) (λ _, "2021-01-08")
              (λ _, []) Scenario.visits [SStr "clinic-1"] true)
    as [r|] eqn:Hr; [|vm_compute in Hr; discriminate Hr].
  exists r. split; [reflexivity|].
  exact (get_result_keys _ _ _ _ _ _ _ _ _ _ r Hr).
Defined.

(** X8: a calculator that has an emitter of a kind other than [date] and
    [null] never answers a query: [get_result] raises for every key, in
    both modes. *)
Theorem unrecognised_kind_never_answers
    (doc_type fluff_name slug : string) (now : date) (date_sub : date → Z → date)
    (json_format_date : date → string) (view : Calc.view_query → list Calc.row)
    (self : Calc.Calculator) (name : string) (em : Calc.emitter_fn)
    (key : list scalar) (reduce : bool) :
  Calc._fluff_emitters self !! name = Some em →
  Calc._fluff_emitter em ≠ "date" →
  Calc._fluff_emitter em ≠ "null" →
  ∃ e, Calc.get_result doc_type fluff_name slug now date_sub json_format_date
         view self key reduce = Raise e.
Proof.
  intros Hem Hd Hn.
  destruct (Calc.get_result _ _ _ _ _ _ _ self key reduce) as [r|e] eqn:Hr;
    [|eauto].
  destruct (get_result_lookup _ _ _ _ _ _ _ _ _ _ _ _ _ Hr Hem) as (v & Hv & _).
  unfold Calc.emitter_result, Calc.query in Hv.
  apply String.eqb_neq in Hd, Hn. by rewrite Hd, Hn in Hv.
Qed.

Lemma unrecognised_kind_never_answers_witness :
  ∃ e, Calc.get_result "VisitFluff" "VisitFluff" "visits" (Date 2021 1 8)
         (λ d n, Date (year d) (month d) (day d - n)) (λ _, "2021-01-08")
         (λ _, [])
         (Calc.MkCalculator Calc.WNone
            (<["odd" := Calc.EmitterFn "weekly" "sum"]> ∅))
         [SStr "clinic-1"] true = Raise e.
Proof.
  apply (unrecognised_kind_never_answers _ _ _ _ _ _ _ _ "odd"
           (Calc.EmitterFn "weekly" "sum")).
  - vm_compute; reflexivity.
  - discriminate.
  - discriminate.
Defined.

(** ** Aggregation as a merge *)

Lemma traverse_app {A B} (f : A → result B) (l1 l2 : list A) bs1 bs2 :
  traverse f l1 = Ok bs1 → traverse f l2 = Ok bs2 →
  traverse f (l1 ++ l2) = Ok (bs1 ++ bs2).
Proof.
  rewrite !traverse_Ok. apply Forall2_app.
Qed.

Lemma agg_merge_add reduce (a b : Calc.agg_ty reduce) (v : Calc.res_ty reduce)
    (z c c2 : Calc.agg_ty reduce) :
  Aggregate.exact_agg reduce a = true → Aggregate.exact_agg reduce b = true →
  Aggregate.exact reduce v = true →
  Aggregate.agg_merge reduce a b = Ok z →
  Calc.agg_add reduce z v = Ok c →
  Calc.agg_add reduce b v = Ok c2 →
  Aggregate.agg_merge reduce a c2 = Ok c.
Proof.
  destruct reduce; simpl in *.
  - destruct a, b, v; try done. intros _ _ _ [= <-] [= <-] [= <-]. simpl.
    do 2 f_equal. lia.
  - intros _ _ _ [= <-] [= <-] [= <-]. by rewrite (assoc_L (∪)).
Qed.

Lemma agg_merge_zero reduce (a : Calc.agg_ty reduce) (v : Calc.res_ty reduce)
    (c c2 : Calc.agg_ty reduce) :
  Aggregate.exact_agg reduce a = true → Aggregate.exact reduce v = true →
  Calc.agg_add reduce a v = Ok c →
  Calc.agg_add reduce (Calc.agg_zero reduce) v = Ok c2 →
  Aggregate.agg_merge reduce a c2 = Ok c.
Proof.
  destruct reduce; simpl in *.
  - destruct a, v; try done. intros _ _ [= <-] [= <-]. simpl. done.
  - intros _ _ [= <-] [= <-]. by rewrite (left_id_L ∅ (∪)).
Qed.

(** Accumulating exact items onto [acc] merges [acc] with what the same
    items accumulate to from nothing. *)
Lemma accumulate_items_merged reduce
    (items : list (string * Calc.res_ty reduce))
    (acc r2 : gmap string (Calc.agg_ty reduce)) :
  map_Forall (λ _ a, Aggregate.exact_agg reduce a = true) acc →
  Forall (λ item, Aggregate.exact reduce item.2 = true) items →
  Calc.accumulate_items reduce items ∅ = Ok r2 →
  ∃ r, Calc.accumulate_items reduce items acc = Ok r
       ∧ ∀ k, Aggregate.merged reduce (acc !! k) (r2 !! k) (r !! k).
Proof.
  intros Hacc. revert r2. induction items as [|x items IH] using rev_ind;
    intros r2 Hl.
  - simpl. intros [= <-]. exists acc. split; [done|]. intros k.
    rewrite lookup_empty. unfold Aggregate.merged. by destruct (acc !! k).
  - apply Forall_app in Hl as [Hl Hx]. apply Forall_cons in Hx as [Hx _].
    rewrite !accumulate_items_app. simpl.
    destruct (accumulate_items_exact reduce items ∅ (map_Forall_empty _) Hl)
      as (m2 & Hm2 & Hex2).
    destruct (IH m2 Hl Hm2) as (m1 & Hm1 & Hmerged).
    destruct (accumulate_items_exact reduce items acc Hacc Hl)
      as (m1' & Hm1' & Hex1).
    assert (m1' = m1) as -> by congruence.
    rewrite Hm1, Hm2. simpl.
    destruct (accumulate_exact reduce m2 x Hex2 Hx) as (c2 & Hc2 & -> & _).
    destruct (accumulate_exact reduce m1 x Hex1 Hx) as (c & Hc & -> & _).
    simpl. intros [= <-]. eexists. split; [done|]. intros k.
    destruct (decide (k = x.1)) as [->|Hne].
    + rewrite !lookup_insert_eq. specialize (Hmerged x.1).
      unfold Aggregate.merged in *.
      destruct (acc !! x.1) as [a|] eqn:Ha.
      * destruct (m2 !! x.1) as [b|] eqn:Hb.
        -- destruct Hmerged as (z & Hz & Hm1k). rewrite Hm1k in Hc.
           simpl in *. exists c. split; [|done].
           eapply agg_merge_add; [by eapply Hacc | by eapply Hex2 | done..].
        -- rewrite Hmerged in Hc. simpl in *. exists c. split; [|done].
           eapply agg_merge_zero; [by eapply Hacc | done..].
      * rewrite Hmerged in Hc. congruence.
    + rewrite !lookup_insert_ne by done. apply Hmerged.
Qed.

(** X9: aggregating over the concatenation of two key sequences gives
    the slug-by-slug merge of the two aggregations, whenever the
    accumulation is exact: identifier sets are united, and integer sums
    are added. *)
Theorem aggregate_results_app
    (doc_type fluff_name slug : string) (now : date) (date_sub : date → Z → date)
    (json_format_date : date → string) (view : Calc.view_query → list Calc.row)
    (self : Calc.Calculator) (keys1 keys2 : list (list scalar)) (reduce : bool)
    (r1 r2 : gmap string (Calc.agg_ty reduce)) :
  (reduce = true →
   Aggregate.integral_results doc_type fluff_name slug now date_sub
     json_format_date view self (keys1 ++ keys2) = true) →
  Calc.aggregate_results doc_type fluff_name slug now date_sub json_format_date
    view self keys1 reduce = Ok r1 →
  Calc.aggregate_results doc_type fluff_name slug now date_sub json_format_date
    view self keys2 reduce = Ok r2 →
  ∃ r,
    Calc.aggregate_results doc_type fluff_name slug now date_sub json_format_date
      view self (keys1 ++ keys2) reduce = Ok r
    ∧ ∀ k, Aggregate.merged reduce (r1 !! k) (r2 !! k) (r !! k).
Proof.
  intros Hint. unfold Calc.aggregate_results.
  intros (rs1 & Hrs1 & Hr1)%aggregate_loop_Ok (rs2 & Hrs2 & Hr2)%aggregate_loop_Ok.
  pose proof (traverse_app _ _ _ _ _ Hrs1 Hrs2) as Hrs.
  pose proof (integral_results_exact _ _ _ _ _ _ _ _ _ _ _ Hint Hrs) as Hex.
  rewrite map_app, concat_app in Hex. apply Forall_app in Hex as [Hex1 Hex2].
  destruct (accumulate_items_exact reduce _ ∅ (map_Forall_empty _) Hex1)
    as (r1' & Hr1' & Hexr1).
  assert (r1' = r1) as -> by congruence.
  destruct (accumulate_items_merged reduce _ r1 r2 Hexr1 Hex2 Hr2)
    as (r & Hr & Hmerged).
  exists r. split; [|done]. apply aggregate_loop_Ok.
  exists (rs1 ++ rs2). split; [done|].
  by rewrite map_app, concat_app, accumulate_items_app, Hr1.
Qed.

Lemma aggregate_results_app_witness :
  ∃ r,
    Calc.aggregate_results "VisitFluff" "VisitFluff" "visits" (Date 2021 1 8)
      (λ d n, Date (year d) (month d) (day d - n)) (λ _, "2021-01-08")
      (λ q, match Calc.q_keys q with
            | Calc.ByKey (_ :: SStr g :: _) =>
                [Calc.Row None
                   (Some (<["sum" := Calc.NInt (if String.eqb g "a" then 3 else 4)]>
                            ∅))]
            | _ => []
            end)
      (Calc.MkCalculator Calc.WNone (<["total" := Calc.EmitterFn "null" "sum"]> ∅))
      ([[SStr "a"]] ++ [[SStr "b"]]) true = Ok r
    ∧ ∀ k, Aggregate.merged true
             ((<["total" := Calc.NInt 3]> ∅ : gmap string Calc.num) !! k)
             ((<["total" := Calc.NInt 4]> ∅ : gmap string Calc.num) !! k)
             (r !! k).
Proof.
  apply (aggregate_results_app "VisitFluff" "VisitFluff" "visits" (Date 2021 1 8)
           (λ d n, Date (year d) (month d) (day d - n)) (λ _, "2021-01-08")
           _ _ [[SStr "a"]] [[SStr "b"]] true).
  - intros _. vm_compute. reflexivity.
  - vm_compute; reflexivity.
  - vm_compute; reflexivity.
Defined.

(** From an accumulator that has none of the slugs, each pair is entered
    as [0 + value], or as the set of its identifiers. *)
Lemma agg_add_zero reduce (v : Calc.res_ty reduce) :
  Calc.agg_add reduce (Calc.agg_zero reduce) v = Ok (Aggregate.from_zero reduce v).
Proof.
  destruct reduce; simpl in *.
  - destruct v; [done|]. reflexivity.
  - by rewrite (left_id_L ∅ (∪)).
Qed.

Lemma accumulate_items_lookup reduce (l : list (string * Calc.res_ty reduce))
    (acc : gmap string (Calc.agg_ty reduce)) :
  NoDup l.*1 →
  (∀ k, k ∈ l.*1 → acc !! k = None) →
  ∃ m, Calc.accumulate_items reduce l acc = Ok m
       ∧ (∀ k v, (k, v) ∈ l → m !! k = Some (Aggregate.from_zero reduce v))
       ∧ (∀ k, k ∉ l.*1 → m !! k = acc !! k).
Proof.
  revert acc. induction l as [|[k0 v0] l IH]; intros acc Hnd Hacc; simpl.
  - exists acc. split; [done|]. split; [by intros ?? ?%elem_of_nil | done].
  - rewrite fmap_cons in Hnd. simpl in Hnd.
    apply NoDup_cons in Hnd as [Hk0 Hnd].
    unfold Calc.accumulate. simpl. rewrite (Hacc k0) by left. simpl.
    rewrite agg_add_zero. simpl.
    destruct (IH (<[k0 := Aggregate.from_zero reduce v0]> acc) Hnd)
      as (m & -> & Hin & Hout).
    { intros k Hk. rewrite lookup_insert_ne; [apply Hacc; by right|].
      by intros <-. }
    exists m. split; [done|]. split.
    + intros k v [[= -> ->]|Hkv]%elem_of_cons; [|by apply Hin].
      by rewrite (Hout _ Hk0), lookup_insert_eq.
    + intros k [Hne Hnin]%not_elem_of_cons.
      by rewrite (Hout _ Hnin), lookup_insert_ne.
Qed.

(** X10: aggregating over a single key only converts the result of
    [get_result] for that key: each entry is [0 + value] when reducing,
    the set of the listed identifiers otherwise. *)
Theorem aggregate_results_single
    (doc_type fluff_name slug : string) (now : date) (date_sub : date → Z → date)
    (json_format_date : date → string) (view : Calc.view_query → list Calc.row)
    (self : Calc.Calculator) (key : list scalar) (reduce : bool)
    (r : gmap string (Calc.res_ty reduce)) :
  Calc.get_result doc_type fluff_name slug now date_sub json_format_date view
    self key reduce = Ok r →
  Calc.aggregate_results doc_type fluff_name slug now date_sub json_format_date
    view self [key] reduce = Ok (Aggregate.of_result reduce r).
Proof.
  intros Hr. unfold Calc.aggregate_results. simpl. rewrite Hr. simpl.
  destruct (accumulate_items_lookup reduce (map_to_list r) ∅
              (NoDup_fst_map_to_list r)) as (m & -> & Hin & Hout).
  { intros k _. apply lookup_empty. }
  simpl. f_equal. apply map_eq. intros k.
  unfold Aggregate.of_result. rewrite lookup_fmap.
  destruct (r !! k) as [v|] eqn:Hk; simpl.
  - apply elem_of_map_to_list in Hk. by rewrite (Hin _ _ Hk).
  - rewrite Hout, lookup_empty; [done|].
    intros ([k' v] & -> & Hkv%elem_of_map_to_list)%list_elem_of_fmap.
    simpl in Hk. congruence.
Qed.

Lemma aggregate_results_single_witness :
  Calc.aggregate_results "VisitFluff" "VisitFluff" "visits" (Date 2021 1 8)
    (λ d n, Date (year d) (month d) (day d - n)) (λ _, "2021-01-08")
    (λ _, [Calc.Row (Some "VisitFluff-a1") None;
           Calc.Row (Some "VisitFluff-a1") None])
    (Calc.MkCalculator Calc.WNone (<["total" := Calc.EmitterFn "null" "sum"]> ∅))
    [[SStr "clinic-1"]] false
  = Ok (Aggregate.of_result false (<["total" := ["a1"; "a1"]]> ∅)).
Proof.
  apply (aggregate_results_single "VisitFluff" "VisitFluff" "visits"
           (Date 2021 1 8) (λ d n, Date (year d) (month d) (day d - n))
           (λ _, "2021-01-08") _ _ [SStr "clinic-1"] false).
  vm_compute; reflexivity.
Defined.

(** ** Change detection *)

Section detection_facts.
Import Doc.

Lemma lookup_ne_empty_l (right : emitter_map) o :
  (∅ : emitter_map) !! o ≠ right !! o ↔ is_Some (right !! o).
Proof.
  rewrite lookup_empty. destruct (right !! o) as [v|]; split.
  - intros _. eauto.
  - by intros _.
  - intros H. by destruct H.
  - by intros [? ?].
Qed.

Lemma shallow_dict_diff_elem (left right : emitter_map) ks o :
  _shallow_dict_diff left right = Some ks → o ∈ ks ↔ left !! o ≠ right !! o.
Proof.
  unfold _shallow_dict_diff.
  destruct (bool_decide (left = ∅)) eqn:Hl, (bool_decide (right = ∅)) eqn:Hr;
    simpl; try done.
  - apply bool_decide_eq_true in Hl as ->. intros [= <-].
    rewrite elem_of_keys. symmetry. apply lookup_ne_empty_l.
  - apply bool_decide_eq_true in Hr as ->. intros [= <-].
    rewrite elem_of_keys. rewrite <- (lookup_ne_empty_l left o). split; intros H ?; by apply H.
  - intros [= <-]. rewrite elem_of_elements.
    rewrite !elem_of_union, !elem_of_difference, elem_of_filter,
      !elem_of_intersection, !elem_of_dom.
    destruct (left !! o) as [x|], (right !! o) as [y|]; split.
    + intros [[[_ Hn]|[_ Hn]]|[Hne _]]; [destruct Hn; eauto.. | done].
    + intros Hne. right. eauto.
    + intros _. done.
    + intros _. left. right. split; [eauto|]. by intros [[? ?] _].
    + intros _. done.
    + intros _. left. left. split; [eauto|]. by intros [_ [? ?]].
    + intros [[[[? ?] _]|[[? ?] _]]|[_ [[? ?] _]]]; done.
    + done.
Qed.

Lemma shallow_dict_diff_NoDup (left right : emitter_map) ks :
  _shallow_dict_diff left right = Some ks → NoDup ks.
Proof.
  unfold _shallow_dict_diff.
  destruct (bool_decide (left = ∅)), (bool_decide (right = ∅)); simpl;
    try done; intros [= <-]; try apply NoDup_keys. apply NoDup_elements.
Qed.

Lemma shallow_dict_diff_None (left right : emitter_map) :
  _shallow_dict_diff left right = None ↔ left = ∅ ∧ right = ∅.
Proof.
  unfold _shallow_dict_diff. split.
  - destruct (bool_decide (left = ∅)) eqn:Hl, (bool_decide (right = ∅)) eqn:Hr;
      simpl; try done.
    apply bool_decide_eq_true in Hl, Hr. done.
  - intros [-> ->]. by rewrite !bool_decide_eq_true_2.
Qed.

Lemma shallow_dict_diff_unchanged (left right : emitter_map) :
  (_shallow_dict_diff left right = None ∨ _shallow_dict_diff left right = Some [])
  ↔ left = right.
Proof.
  split.
  - intros [[-> ->]%shallow_dict_diff_None|Hs]; [done|].
    apply map_eq. intros o. destruct (decide (left !! o = right !! o)) as [|Hne];
      [done|].
    apply (shallow_dict_diff_elem _ _ _ o Hs) in Hne. by apply elem_of_nil in Hne.
  - intros ->. apply shallow_dict_diff_same.
Qed.

End detection_facts.

(** X11: [_shallow_dict_diff] returns [None] only for two empty mappings;
    otherwise it returns, without repetition, exactly the keys at which
    the two mappings differ (present on one side only, or bound to unequal
    values). *)
Theorem shallow_dict_diff_spec (left right : Doc.emitter_map) :
  match Doc._shallow_dict_diff left right with
  | None => left = ∅ ∧ right = ∅
  | Some ks => NoDup ks ∧ ∀ o, o ∈ ks ↔ left !! o ≠ right !! o
  end.
Proof.
  destruct (Doc._shallow_dict_diff left right) as [ks|] eqn:Hs.
  - split; [by eapply shallow_dict_diff_NoDup|].
    intros o. by apply shallow_dict_diff_elem.
  - by apply shallow_dict_diff_None.
Qed.

Section diff_keys_facts.
Import Doc.

Lemma diff_keys_present_nil self old names :
  (∀ c, c ∈ names → is_Some (slots self !! c) ∧ is_Some (old !! c)) →
  diff_keys_loop self (Some old) names = Ok [] ↔
  ∀ c, c ∈ names → slots self !! c = old !! c.
Proof.
  induction names as [|c names IH]; intros Hs; simpl.
  - split; [by intros _ ? ?%elem_of_nil | done].
  - destruct (Hs c) as [[l Hl] [r Hr]]; [left|].
    assert (∀ c, c ∈ names → is_Some (slots self !! c) ∧ is_Some (old !! c)) as Hs'
      by (intros; apply Hs; by right).
    specialize (IH Hs').
    unfold getitem, mbind, result_bind. rewrite Hl, Hr.
    destruct (diff_keys_loop self (Some old) names) as [tl|] eqn:Htl.
    + split.
      * intros Hnil c' [->|Hc']%elem_of_cons.
        -- rewrite Hl, Hr. f_equal. apply shallow_dict_diff_unchanged.
           destruct (_shallow_dict_diff l r) as [[|e es]|]; eauto. done.
        -- apply IH; [|done].
           by destruct (_shallow_dict_diff l r) as [[|e es]|]; simplify_eq.
      * intros Heq.
        assert (l = r) as Hlr.
        { specialize (Heq c (list_elem_of_here _ _)). congruence. }
        apply shallow_dict_diff_unchanged in Hlr.
        assert (tl = []) as ->.
        { assert (Ok tl = Ok (@nil (string * list string))) as [=]; [|done].
          apply IH. intros; apply Heq; by right. }
        by destruct Hlr as [-> | ->].
    + split; [done|]. intros Heq. exfalso.
      assert (@Raise (list (string * list string)) e = Ok []) as [=].
      apply IH. intros; apply Heq; by right.
Qed.

Lemma diff_keys_nonempty self other names dk :
  diff_keys_loop self other names = Ok dk → Forall (λ ck, ck.2 ≠ []) dk.
Proof.
  destruct other as [old|]; [|apply diff_keys_absent_nonempty].
  revert dk. induction names as [|c names IH]; intros dk; simpl.
  - intros [= <-]. constructor.
  - unfold getitem, mbind, result_bind.
    destruct (slots self !! c) as [l|]; [|done].
    destruct (old !! c) as [r|]; [|done].
    destruct (diff_keys_loop self (Some old) names) as [tl|]; [|done].
    specialize (IH _ eq_refl).
    destruct (_shallow_dict_diff l r) as [[|e es]|]; intros [= <-]; try done.
    by constructor.
Qed.

Lemma diff_keys_present_elem self old names dk c l r e es :
  diff_keys_loop self (Some old) names = Ok dk →
  c ∈ names → slots self !! c = Some l → old !! c = Some r →
  _shallow_dict_diff l r = Some (e :: es) →
  (c, e :: es) ∈ dk.
Proof.
  revert dk. induction names as [|c' names IH]; intros dk; simpl.
  - by intros _ ?%elem_of_nil.
  - unfold getitem, mbind, result_bind.
    destruct (slots self !! c') as [l'|] eqn:Hl'; [|done].
    destruct (old !! c') as [r'|] eqn:Hr'; [|done].
    destruct (diff_keys_loop self (Some old) names) as [tl|]; [|done].
    specialize (IH _ eq_refl).
    intros Hdk [->|Hin]%elem_of_cons Hl Hr Hs.
    + assert (l' = l) as -> by congruence. assert (r' = r) as -> by congruence.
      rewrite Hs in Hdk. inversion Hdk. left.
    + specialize (IH Hin Hl Hr Hs).
      destruct (_shallow_dict_diff l' r') as [[|e' es']|]; inversion Hdk; subst;
        try done. by right.
Qed.

End diff_keys_facts.

(** X12: for snapshots that both hold a slot for every calculator,
    [diff] returns [None] exactly when the two snapshots store equal
    emitter mappings under every calculator. *)
Theorem diff_absent_iff_unchanged (strptime : string → option date)
    (D : Doc.IndicatorDocument) (old : gmap string Doc.emitter_map) :
  (∀ c, c ∈ dom (Doc._calculators D) → c ∈ dom (Doc.slots D) ∧ c ∈ dom old) →
  Doc.diff strptime D (Some old) = Ok None ↔
  ∀ c, c ∈ dom (Doc._calculators D) → Doc.slots D !! c = old !! c.
Proof.
  intros Hdom.
  assert (∀ c, c ∈ Doc.keys (Doc._calculators D) →
               is_Some (Doc.slots D !! c) ∧ is_Some (old !! c)) as Hs.
  { intros c Hc%elem_of_keys%elem_of_dom. rewrite <- !elem_of_dom. by apply Hdom. }
  pose proof (diff_keys_present_nil D old _ Hs) as Hiff.
  split.
  - intros Hd%diff_None_inv c Hc. apply Hiff; [done|].
    by apply elem_of_keys, elem_of_dom.
  - intros Heq. unfold Doc.diff.
    replace (Doc.diff_keys_loop D (Some old) (Doc.keys (Doc._calculators D)))
      with (@Ok (list (string * list string)) []); [done|].
    symmetry. apply Hiff. intros c Hc%elem_of_keys%elem_of_dom. by apply Heq.
Qed.

Lemma diff_absent_iff_unchanged_witness :
  Doc.diff Scenario.strptime Scenario.new_doc (Some Scenario.old_slots) ≠ Ok None.
Proof.
  intros H.
  pose proof (proj1 (diff_absent_iff_unchanged Scenario.strptime Scenario.new_doc
                       Scenario.old_slots
                       ltac:(intros c Hc; vm_compute in Hc; split; vm_compute; exact Hc))
                H "visits" ltac:(vm_compute; reflexivity)) as Heq.
  vm_compute in Heq. discriminate Heq.
Defined.

Section report_facts.
Import Doc.

Lemma NoDup_fst_inj {A B} (l : list (A * B)) x y1 y2 :
  NoDup l.*1 → (x, y1) ∈ l → (x, y2) ∈ l → y1 = y2.
Proof.
  induction l as [|[a b] l IH]; [by intros _ ?%elem_of_nil|].
  rewrite fmap_cons. simpl. intros [Ha Hl]%NoDup_cons H1 H2.
  apply elem_of_cons in H1, H2. destruct H1 as [E1|H1], H2 as [E2|H2].
  - congruence.
  - inversion E1; subst. destruct Ha. apply list_elem_of_fmap. by exists (a, y2).
  - inversion E2; subst. destruct Ha. apply list_elem_of_fmap. by exists (a, y1).
  - by apply IH.
Qed.

Lemma diff_keys_wf self other names dk :
  diff_keys_loop self other names = Ok dk →
  Forall (λ ck, ck.1 ∈ names ∧ NoDup ck.2) dk ∧ (NoDup names → NoDup dk.*1).
Proof.
  revert dk. induction names as [|c names IH]; intros dk; simpl.
  - intros [= <-]. split; [constructor | by constructor].
  - assert (∀ (tl : list (string * list string)) es,
              Forall (λ ck, ck.1 ∈ names ∧ NoDup ck.2) tl ∧
              (NoDup names → NoDup tl.*1) →
              NoDup es →
              Forall (λ ck, ck.1 ∈ c :: names ∧ NoDup ck.2) ((c, es) :: tl) ∧
              (NoDup (c :: names) → NoDup ((c, es) :: tl).*1)) as Hcons.
    { intros tl es [Hall Hnd] Hes. split.
      - constructor; [split; [left | done]|].
        eapply Forall_impl; [exact Hall|]. intros ck [? ?]. split; [by right|done].
      - intros [Hc Hn]%NoDup_cons. rewrite fmap_cons. simpl.
        apply NoDup_cons. split; [|by apply Hnd].
        intros (ck & -> & Hck)%list_elem_of_fmap.
        apply Hc. rewrite Forall_forall in Hall. by apply Hall. }
    assert (∀ tl : list (string * list string),
              Forall (λ ck, ck.1 ∈ names ∧ NoDup ck.2) tl ∧
              (NoDup names → NoDup tl.*1) →
              Forall (λ ck, ck.1 ∈ c :: names ∧ NoDup ck.2) tl ∧
              (NoDup (c :: names) → NoDup tl.*1)) as Hskip.
    { intros tl [Hall Hnd]. split.
      - eapply Forall_impl; [exact Hall|]. intros ck [? ?]. split; [by right|done].
      - intros [_ Hn]%NoDup_cons. by apply Hnd. }
    destruct other as [old|]; unfold getitem, mbind, result_bind.
    + destruct (slots self !! c) as [l|]; [|done].
      destruct (old !! c) as [r|]; [|done].
      destruct (diff_keys_loop self (Some old) names) as [tl|]; [|done].
      specialize (IH _ eq_refl).
      destruct (_shallow_dict_diff l r) as [[|e es]|] eqn:Hs; intros [= <-];
        [by apply Hskip | | by apply Hskip].
      apply Hcons; [done|]. by eapply shallow_dict_diff_NoDup.
    + destruct (slots self !! c) as [m|]; [|done].
      destruct (diff_keys_loop self None names) as [tl|]; [|done].
      specialize (IH _ eq_refl).
      pose proof (NoDup_nonempty_keys m) as Hnk. unfold nonempty_keys in Hnk.
      destruct (filter _ (map_to_list m)) as [|kv kvs]; intros [= <-];
        [by apply Hskip|]. by apply Hcons.
Qed.

Lemma NoDup_pairs (dk : list (string * list string)) :
  NoDup dk.*1 → Forall (λ ck, NoDup ck.2) dk → NoDup (pairs dk).
Proof.
  intros Hnd Hall. unfold pairs. apply NoDup_bind.
  - intros [c1 es1] [c2 es2] [c e] H1 H2 Hin1 Hin2. simpl in *.
    apply list_elem_of_fmap in Hin1 as (? & [= -> _] & _).
    apply list_elem_of_fmap in Hin2 as (? & [= -> _] & _).
    f_equal. by eapply NoDup_fst_inj.
  - intros [c es] Hin. simpl. rewrite Forall_forall in Hall.
    apply NoDup_fmap_2; [by intros ?? [=] | by apply (Hall _ Hin)].
  - eapply NoDup_fmap_1. exact Hnd.
Qed.

End report_facts.

(** X13: a report is never an empty shell: whenever [diff] returns a
    report, with or without a previous snapshot, [indicator_changes] has
    at least one entry and lists no (calculator, emitter) pair twice. *)
Theorem report_has_changes (strptime : string → option date)
    (D : Doc.IndicatorDocument) (other : option (gmap string Doc.emitter_map))
    (r : Doc.diff_report) :
  Doc.diff strptime D other = Ok (Some r) →
  Doc.indicator_changes r ≠ []
  ∧ NoDup (Doc.meta_pair <$> Doc.indicator_changes r).
Proof.
  intros (dk & chs & Hdk & Hne & Hchs & Hic & _)%diff_Some_inv.
  pose proof (changes_pairs _ _ _ _ _ Hchs) as Hp. rewrite <- Hic in Hp.
  pose proof (diff_keys_nonempty _ _ _ _ Hdk) as Hall. split.
  - intros Hnil. rewrite Hnil in Hp.
    destruct dk as [|[c es] dk]; [done|].
    apply Forall_cons in Hall as [Hes _]. simpl in Hes.
    destruct es as [|e es]; [done|]. discriminate Hp.
  - rewrite Hp. destruct (diff_keys_wf _ _ _ _ Hdk) as [Hwf Hnd].
    apply NoDup_pairs; [apply Hnd, NoDup_keys|].
    eapply Forall_impl; [exact Hwf|]. by intros ck [_ ?].
Qed.

Lemma report_has_changes_witness :
  Doc.indicator_changes Scenario.expected_report ≠ [].
Proof.
  apply (report_has_changes Scenario.strptime Scenario.new_doc
           (Some Scenario.old_slots) Scenario.expected_report).
  vm_compute; reflexivity.
Defined.

Section entry_facts.
Import Doc.
Variable strptime : string → option date.

Lemma indicator_meta_declared self c e vals m :
  _indicator_meta self c e vals = Ok m →
  ∃ calc em, _calculators self !! c = Some calc
             ∧ Calc._fluff_emitters calc !! e = Some em
             ∧ m = Meta c e (Calc._fluff_emitter em) (Calc._reduce_type em) vals.
Proof.
  unfold _indicator_meta. destruct (_calculators self !! c) as [calc|]; [|done].
  destruct (Calc._fluff_emitters calc !! e) as [em|] eqn:He; [|done].
  intros [= <-]. eauto.
Qed.

(** An entry of [indicator_changes] is the [_indicator_meta] of its own
    pair and values. *)
Lemma changes_entries self other r chg :
  diff strptime self other = Ok (Some r) → chg ∈ indicator_changes r →
  _indicator_meta self (calculator chg) (emitter chg) (values chg) = Ok chg.
Proof.
  intros (dk & chs & _ & _ & Hchs & -> & _)%diff_Some_inv Hin.
  destruct (elem_of_concat_traverse _ _ _ _ Hchs Hin) as ([c es] & ms & _ & Hms & Hm).
  unfold _indicator_diff in Hms.
  destruct (traverse_Ok_elem _ _ _ _ Hms Hm) as (e & _ & He).
  unfold mbind, result_bind in He; simpl in He.
  destruct (values_diff strptime self c e other) as [vs|]; [|done].
  destruct (indicator_meta_Ok _ _ _ _ _ He) as (-> & -> & ->). done.
Qed.

(** A pair of [diff_keys] has had its value-level diff computed. *)
Lemma diff_keys_values self other r dk c es e :
  diff strptime self other = Ok (Some r) →
  diff_keys_loop self other (keys (_calculators self)) = Ok dk →
  (c, es) ∈ dk → e ∈ es →
  ∃ vs, values_diff strptime self c e other = Ok vs.
Proof.
  intros (dk' & chs & Hdk' & _ & Hchs & _ & _)%diff_Some_inv Hdk Hck He.
  assert (dk' = dk) as -> by congruence.
  destruct (traverse_Ok_elem_l _ _ _ _ Hchs Hck) as (ms & _ & Hms).
  simpl in Hms. unfold _indicator_diff in Hms.
  destruct (traverse_Ok_elem_l _ _ _ _ Hms He) as (m & _ & Hm).
  unfold mbind, result_bind in Hm.
  destruct (values_diff strptime self c e other) as [vs|]; [eauto | done].
Qed.

End entry_facts.

(** X14: every entry of a report, in [indicator_changes] and in
    [all_indicators], names an emitter declared on a calculator of the
    document class and carries that emitter's kind and reduce type. *)
Theorem report_entries_declared (strptime : string → option date)
    (D : Doc.IndicatorDocument) (other : option (gmap string Doc.emitter_map))
    (r : Doc.diff_report) (m : Doc.indicator_meta) :
  Doc.diff strptime D other = Ok (Some r) →
  m ∈ Doc.indicator_changes r ∨ m ∈ Doc.all_indicators r →
  ∃ calc em,
    Doc._calculators D !! Doc.calculator m = Some calc
    ∧ Calc._fluff_emitters calc !! Doc.emitter m = Some em
    ∧ Doc.emitter_type m = Calc._fluff_emitter em
    ∧ Doc.reduce_type m = Calc._reduce_type em.
Proof.
  intros Hd Hm.
  assert (∃ vals, Doc._indicator_meta D (Doc.calculator m) (Doc.emitter m) vals
                  = Ok m) as [vals Hmeta].
  { destruct Hm as [Hm|Hm].
    - eexists. by eapply changes_entries.
    - exists None. apply diff_Some_inv in Hd as (_ & _ & _ & _ & _ & _ & Hinv).
      by eapply inventory_entries. }
  apply indicator_meta_declared in Hmeta as (calc & em & Hc & He & Heq).
  exists calc, em. split; [done|]. split; [done|]. by rewrite Heq.
Qed.

Lemma report_entries_declared_witness :
  ∃ calc em,
    Doc._calculators Scenario.new_doc !! "visits" = Some calc
    ∧ Calc._fluff_emitters calc !! "all_visits" = Some em
    ∧ "date" = Calc._fluff_emitter em
    ∧ "count" = Calc._reduce_type em.
Proof.
  apply (report_entries_declared Scenario.strptime Scenario.new_doc
           (Some Scenario.old_slots) Scenario.expected_report
           Scenario.expected_change).
  - vm_compute; reflexivity.
  - left. left.
Defined.

(** X15: when, under some calculator, an emitter slug is stored in one
    snapshot and missing from the other, [diff] cannot compare the two
    snapshots: it raises. *)
Theorem schema_drift_raises (strptime : string → option date)
    (D : Doc.IndicatorDocument) (old : gmap string Doc.emitter_map)
    (c e : string) (l r : Doc.emitter_map) :
  c ∈ dom (Doc._calculators D) →
  Doc.slots D !! c = Some l → old !! c = Some r →
  (l !! e = None ∧ is_Some (r !! e)) ∨ (is_Some (l !! e) ∧ r !! e = None) →
  ∃ exn, Doc.diff strptime D (Some old) = Raise exn.
Proof.
  intros Hc%elem_of_dom%elem_of_keys Hl Hr Hdrift.
  assert (l !! e ≠ r !! e) as Hne.
  { destruct Hdrift as [[-> [? ->]]|[[? ->] ->]]; done. }
  assert (∃ e' es, Doc._shallow_dict_diff l r = Some (e' :: es)) as (e' & es & Hs).
  { destruct (Doc._shallow_dict_diff l r) as [[|e' es]|] eqn:Hs; [| eauto |].
    - destruct Hne. f_equal. apply shallow_dict_diff_unchanged. by right.
    - destruct Hne. f_equal. apply shallow_dict_diff_unchanged. by left. }
  destruct (Doc.diff strptime D (Some old)) as [[rpt|]|exn] eqn:Hd; [| |eauto];
    exfalso.
  - pose proof Hd as (dk & chs & Hdk & _)%diff_Some_inv.
    pose proof (diff_keys_present_elem _ _ _ _ _ _ _ _ _ Hdk Hc Hl Hr Hs) as Hck.
    assert (e ∈ e' :: es) as He by (by apply (shallow_dict_diff_elem _ _ _ e Hs)).
    destruct (diff_keys_values _ _ _ _ _ _ _ _ Hd Hdk Hck He) as [vs Hvs].
    unfold Doc.values_diff, mbind, result_bind in Hvs.
    destruct (Doc.stored (Doc.slots D) c e) as [sv|] eqn:Hsv; [|done].
    destruct (traverse _ sv); [|done]. destruct (Doc.set_of _ _); [|done].
    destruct (Doc.stored old c e) as [ov|] eqn:Hov; [|done].
    apply stored_Ok in Hsv as (l' & Hl' & Hle), Hov as (r' & Hr' & Hre).
    assert (l' = l) as -> by congruence. assert (r' = r) as -> by congruence.
    destruct Hdrift as [[? _]|[_ ?]]; congruence.
  - apply diff_None_inv in Hd.
    pose proof (diff_keys_present_elem _ _ _ _ _ _ _ _ _ Hd Hc Hl Hr Hs) as Hck.
    by apply elem_of_nil in Hck.
Qed.

Lemma schema_drift_raises_witness :
  ∃ exn, Doc.diff Scenario.strptime Scenario.new_doc
           (Some (<["visits" := <["all_visits" := []]> ∅]> ∅)) = Raise exn.
Proof.
  apply (schema_drift_raises Scenario.strptime Scenario.new_doc _ "visits" "total"
           (<["all_visits" := [Scenario.ev (SDate (Date 2021 1 1)) 1;
                               Scenario.ev (SDate (Date 2021 1 2)) 1]]>
              (<["total" := []]> ∅))
           (<["all_visits" := []]> ∅)).
  - vm_compute; reflexivity.
  - vm_compute; reflexivity.
  - vm_compute; reflexivity.
  - right. split; [exists []|]; vm_compute; reflexivity.
Defined.

(** ** The reported values *)

Section values_facts.
Import Doc.
Variable strptime : string → option date.

Lemma values_diff_inv self other c e vals :
  values_diff strptime self c e (Some other) = Ok vals →
  ∃ sv sn ss ov on os,
    stored (slots self) c e = Ok sv
    ∧ traverse (NormalizedEmittedValue strptime) sv = Ok sn
    ∧ set_of sn [] = Ok ss
    ∧ stored other c e = Ok ov
    ∧ traverse (NormalizedEmittedValue strptime) ov = Ok on
    ∧ set_of on [] = Ok os
    ∧ vals = (set_difference ss os).*2.
Proof.
  unfold values_diff, mbind, result_bind.
  destruct (stored (slots self) c e) as [sv|] eqn:H1; [|done].
  destruct (traverse _ sv) as [sn|] eqn:H2; [|done].
  destruct (set_of sn []) as [ss|] eqn:H3; [|done].
  destruct (stored other c e) as [ov|] eqn:H4; [|done].
  destruct (traverse _ ov) as [on|] eqn:H5; [|done].
  destruct (set_of on []) as [os|] eqn:H6; [|done].
  intros [= <-]. exists sv, sn, ss, ov, on, os. by repeat split.
Qed.

Lemma set_of_NoDup l acc s :
  set_of l acc = Ok s → NoDup acc.*1 → NoDup s.*1.
Proof.
  revert acc. induction l as [|v l IH]; intros acc; simpl.
  - by intros [= <-].
  - unfold mbind, result_bind. destruct (key v) as [k|]; [|done].
    case_bool_decide as Hin; intros Hs Hnd; [by eapply IH|].
    eapply IH; [exact Hs|]. rewrite fmap_app. simpl.
    apply NoDup_app. split; [done|]. split; [|apply NoDup_singleton].
    intros k' Hk' ->%list_elem_of_singleton. done.
Qed.

Lemma set_of_keyed l s kv :
  set_of l [] = Ok s → kv ∈ s → key kv.2 = Ok kv.1 ∧ kv.2 ∈ l.
Proof.
  intros Hs Hkv. destruct (set_of_spec _ _ _ Hs) as (Ha & _ & _).
  destruct (Ha _ Hkv) as [?%elem_of_nil|(v & Hv & <- & Hk)]; done.
Qed.

Lemma traverse_key_fst (l : list (nev_key * pydict)) :
  (∀ kv, kv ∈ l → key kv.2 = Ok kv.1) → traverse key l.*2 = Ok l.*1.
Proof.
  induction l as [|[k v] l IH]; intros Hl; [done|].
  rewrite !fmap_cons. simpl. unfold mbind, result_bind.
  pose proof (Hl (k, v) (list_elem_of_here _ _)) as Hkv. simpl in Hkv.
  rewrite Hkv. rewrite IH; [done|]. intros kv' Hkv'. apply Hl. by right.
Qed.

End values_facts.

(** X16: against a present previous snapshot, the [values] reported for
    an emitter hold each comparison key once: every reported value has a
    (date, value, tuple(group_by) or None) key and no two of them share
    it, so stored duplicates are reported once. *)
Theorem reported_values_distinct (strptime : string → option date)
    (D : Doc.IndicatorDocument) (old : gmap string Doc.emitter_map)
    (r : Doc.diff_report) (chg : Doc.indicator_meta) (vals : list pydict) :
  Doc.diff strptime D (Some old) = Ok (Some r) →
  chg ∈ Doc.indicator_changes r →
  Doc.values chg = Some vals →
  ∃ ks, traverse Doc.key vals = Ok ks ∧ NoDup ks.
Proof.
  intros Hd Hchg Hvals.
  destruct (changes_values _ _ _ _ _ Hd Hchg) as (vals' & Hvals' & Hvd).
  assert (vals' = vals) as -> by congruence.
  apply values_diff_inv in Hvd
    as (sv & sn & ss & ov & on & os & _ & _ & Hss & _ & _ & _ & ->).
  exists (Doc.set_difference ss os).*1. split.
  - apply traverse_key_fst. intros kv [_ Hkv]%list_elem_of_filter.
    by destruct (set_of_keyed _ _ _ Hss Hkv).
  - apply NoDup_fst_filter. eapply set_of_NoDup; [exact Hss|]. constructor.
Qed.

Lemma reported_values_distinct_witness :
  ∃ ks, traverse Doc.key
          [Emitter.mkdict (PScalar (SDate (Date 2021 1 2))) (PScalar (SInt 1))]
        = Ok ks ∧ NoDup ks.
Proof.
  apply (reported_values_distinct Scenario.strptime Scenario.new_doc
           Scenario.old_slots Scenario.expected_report Scenario.expected_change).
  - vm_compute; reflexivity.
  - left.
  - reflexivity.
Defined.

(** X17: the value-level diff misses nothing: if a value stored in the
    new snapshot under a reported emitter has, once normalised, a key
    that no value of the old snapshot has, then a value with that key is
    among the reported [values]. *)
Theorem reported_values_complete (strptime : string → option date)
    (D : Doc.IndicatorDocument) (old : gmap string Doc.emitter_map)
    (r : Doc.diff_report) (chg : Doc.indicator_meta) (vals : list pydict)
    (vs : list raw) (v : raw) (v' : pydict) (k : Doc.nev_key) :
  Doc.diff strptime D (Some old) = Ok (Some r) →
  chg ∈ Doc.indicator_changes r →
  Doc.values chg = Some vals →
  Doc.stored (Doc.slots D) (Doc.calculator chg) (Doc.emitter chg) = Ok vs →
  v ∈ vs →
  Doc.NormalizedEmittedValue strptime v = Ok v' →
  Doc.key v' = Ok k →
  (∀ ovs o o', Doc.stored old (Doc.calculator chg) (Doc.emitter chg) = Ok ovs →
               o ∈ ovs → Doc.NormalizedEmittedValue strptime o = Ok o' →
               Doc.key o' ≠ Ok k) →
  ∃ x, x ∈ vals ∧ Doc.key x = Ok k.
Proof.
  intros Hd Hchg Hvals Hvs Hv Hv' Hk Hold.
  destruct (changes_values _ _ _ _ _ Hd Hchg) as (vals' & Hvals' & Hvd).
  assert (vals' = vals) as -> by congruence.
  apply values_diff_inv in Hvd
    as (sv & sn & ss & ov & on & os & Hsv & Hsn & Hss & Hov & Hon & Hos & ->).
  assert (sv = vs) as -> by congruence.
  destruct (traverse_Ok_elem_l _ _ _ _ Hsn Hv) as (v'' & Hv'' & Hnv).
  assert (v'' = v') as -> by congruence.
  destruct (set_of_spec _ _ _ Hss) as (_ & Hb & _).
  destruct (Hb _ Hv'') as (k' & Hk' & Hin).
  assert (k' = k) as -> by congruence.
  apply list_elem_of_fmap in Hin as ([k0 x] & -> & Hkx). simpl in *.
  exists x. split.
  - apply list_elem_of_fmap. exists (k0, x). split; [done|].
    apply list_elem_of_filter. split; [|done]. simpl.
    intros ([k1 y] & Heq & Hy)%list_elem_of_fmap. simpl in Heq. subst k1.
    destruct (set_of_keyed _ _ _ Hos Hy) as [Hky Hyon]. simpl in *.
    destruct (traverse_Ok_elem _ _ _ _ Hon Hyon) as (o & Ho & Hno).
    by apply (Hold ov o y).
  - by destruct (set_of_keyed _ _ _ Hss Hkx).
Qed.

Lemma reported_values_complete_witness :
  ∃ x, x ∈ [Emitter.mkdict (PScalar (SDate (Date 2021 1 2))) (PScalar (SInt 1))]
       ∧ Doc.key x = Ok (SDate (Date 2021 1 2), SInt 1, None).
Proof.
  apply (reported_values_complete Scenario.strptime Scenario.new_doc
           Scenario.old_slots Scenario.expected_report Scenario.expected_change
           _ [Scenario.ev (SDate (Date 2021 1 1)) 1;
              Scenario.ev (SDate (Date 2021 1 2)) 1]
           (Scenario.ev (SDate (Date 2021 1 2)) 1)
           (Emitter.mkdict (PScalar (SDate (Date 2021 1 2))) (PScalar (SInt 1)))).
  - vm_compute; reflexivity.
  - left.
  - reflexivity.
  - vm_compute; reflexivity.
  - right. left.
  - vm_compute; reflexivity.
  - vm_compute; reflexivity.
  - intros ovs o o' Hovs Ho Hno. vm_compute in Hovs. inversion Hovs; subst ovs.
    apply list_elem_of_singleton in Ho. subst o.
    vm_compute in Hno. inversion Hno; subst o'. vm_compute. discriminate.
Defined.

(** X18: pure removals are invisible in [values]: if every value stored
    in the new snapshot under a reported emitter has, once normalised, the
    key of some value of the old snapshot, the emitter is reported with
    empty [values]. *)
Theorem removal_reports_no_values (strptime : string → option date)
    (D : Doc.IndicatorDocument) (old : gmap string Doc.emitter_map)
    (r : Doc.diff_report) (chg : Doc.indicator_meta) (vals : list pydict) :
  Doc.diff strptime D (Some old) = Ok (Some r) →
  chg ∈ Doc.indicator_changes r →
  Doc.values chg = Some vals →
  (∀ vs v v' k,
     Doc.stored (Doc.slots D) (Doc.calculator chg) (Doc.emitter chg) = Ok vs →
     v ∈ vs → Doc.NormalizedEmittedValue strptime v = Ok v' → Doc.key v' = Ok k →
     ∃ ovs o o',
       Doc.stored old (Doc.calculator chg) (Doc.emitter chg) = Ok ovs
       ∧ o ∈ ovs ∧ Doc.NormalizedEmittedValue strptime o = Ok o'
       ∧ Doc.key o' = Ok k) →
  vals = [].
Proof.
  intros Hd Hchg Hvals Hcov.
  destruct (changes_values _ _ _ _ _ Hd Hchg) as (vals' & Hvals' & Hvd).
  assert (vals' = vals) as -> by congruence.
  destruct vals as [|x vals]; [done|]. exfalso.
  destruct (values_diff_present _ _ _ _ _ _ x Hvd (list_elem_of_here _ _))
    as [(vs & v & Hvs & Hv & Hnv) (k & Hk & ovs & Hovs & Hall)].
  destruct (Hcov _ _ _ _ Hvs Hv Hnv Hk) as (ovs' & o & o' & Hovs' & Ho & Hno & Hko).
  assert (ovs' = ovs) as -> by congruence.
  destruct (Hall _ Ho) as (o'' & k' & Hno' & Hk' & Hne). congruence.
Qed.

Lemma removal_reports_no_values_witness :
  Doc.diff Scenario.strptime ScenarioB.new_doc (Some ScenarioB.old_slots)
  = Ok (Some ScenarioB.report)
  ∧ (∀ vals, Doc.values ScenarioB.change = Some vals → vals = []).
Proof.
  assert (Doc.diff Scenario.strptime ScenarioB.new_doc (Some ScenarioB.old_slots)
          = Ok (Some ScenarioB.report)) as Hd by (vm_compute; reflexivity).
  split; [exact Hd|]. intros vals Hvals.
  apply (removal_reports_no_values Scenario.strptime ScenarioB.new_doc
           ScenarioB.old_slots ScenarioB.report ScenarioB.change vals Hd).
  - left.
  - exact Hvals.
  - intros vs v v' k Hvs Hv Hnv Hk.
    vm_compute in Hvs. inversion Hvs; subst vs.
    apply list_elem_of_singleton in Hv. subst v.
    vm_compute in Hnv. inversion Hnv; subst v'.
    vm_compute in Hk. inversion Hk; subst k.
    exists [Scenario.ev (SStr "2021-01-01") 1; Scenario.ev (SStr "2021-01-02") 1],
      (Scenario.ev (SStr "2021-01-01") 1),
      (Emitter.mkdict (PScalar (SDate (Date 2021 1 1))) (PScalar (SInt 1))).
    split; [vm_compute; reflexivity|]. split; [left|].
    split; vm_compute; reflexivity.
Defined.

(** ** The report header *)

Section header_facts.
Import Doc.
Variable strptime : string → option date.

Lemma diff_Some_header self other r :
  diff strptime self other = Ok (Some r) →
  resolve_type_map (get_group_names self) (default ∅ (group_by_type_map self))
  = Ok (r_group_type_map r)
  ∧ get_group_values self = Ok (r_group_values r)
  ∧ r_group_names r = group_by self
  ∧ r_domains r = domains self
  ∧ r_database r = app_label self
  ∧ r_doc_type r = _doc_type self.
Proof.
  unfold diff, mbind, result_bind.
  destruct (diff_keys_loop _ _ _) as [dk|]; [|done].
  destruct dk as [|ck dk]; [done|].
  destruct (resolve_type_map _ _) as [tm|]; [|done].
  destruct (get_group_values _) as [gv|]; [|done].
  destruct (traverse _ (ck :: dk)); [|done].
  destruct (inventory self); [|done].
  intros [= <-]. by repeat split.
Qed.

Lemma resolve_type_map_Ok names m m' :
  resolve_type_map names m = Ok m' →
  (∀ k t, m !! k = Some t → m' !! k = Some t)
  ∧ (∀ k, k ∉ names → m' !! k = m !! k)
  ∧ (∀ n, n ∈ names →
       ∃ t, m' !! n = Some t ∧ t ∈ ALL_TYPES ∧ (m !! n = None → t = TYPE_STRING)).
Proof.
  revert m. induction names as [|a names IH]; intros m; simpl.
  - intros [= <-]. split; [done|]. split; [done|]. by intros ? ?%elem_of_nil.
  - destruct (m !! a) as [t|] eqn:Ha.
    + case_bool_decide as Ht; [|done]. intros (IH1 & IH2 & IH3)%IH.
      split; [done|]. split.
      * intros k [_ Hk]%not_elem_of_cons. by apply IH2.
      * intros n [->|Hn]%elem_of_cons; [|by apply IH3].
        exists t. split; [by apply IH1|]. split; [done | congruence].
    + intros (IH1 & IH2 & IH3)%IH. split; [|split].
      * intros k t Hk. apply IH1. rewrite lookup_insert_ne; [done|]. congruence.
      * intros k [Hne Hk]%not_elem_of_cons. rewrite (IH2 _ Hk).
        by rewrite lookup_insert_ne.
      * intros n [->|Hn]%elem_of_cons.
        -- exists TYPE_STRING. split; [apply IH1, lookup_insert_eq|].
           split; [|done]. unfold ALL_TYPES, TYPE_STRING. right. left.
        -- destruct (IH3 _ Hn) as (t & Ht & Hall & Hdef).
           exists t. split; [done|]. split; [done|]. intros Hnone.
           destruct (decide (a = n)) as [->|Hne].
           ++ pose proof (IH1 n TYPE_STRING (lookup_insert_eq _ _ _)) as Hs.
              congruence.
           ++ apply Hdef. by rewrite lookup_insert_ne.
Qed.

Lemma resolve_type_map_bad names m n t :
  n ∈ names → m !! n = Some t → t ∉ ALL_TYPES →
  resolve_type_map names m = Raise AssertionError.
Proof.
  revert m. induction names as [|a names IH]; intros m; simpl.
  - by intros ?%elem_of_nil.
  - intros [->|Hn]%elem_of_cons Hm Ht.
    + rewrite Hm. by rewrite bool_decide_eq_false_2.
    + destruct (m !! a) as [ta|] eqn:Ha.
      * case_bool_decide; [by eapply IH | done].
      * eapply IH; [done| |done]. rewrite lookup_insert_ne; [done|]. congruence.
Qed.

End header_facts.

(** X19: in every report the group values are the document's fields read
    in the order of the group names, one per name, and the type map gives
    every group name a type among integer, string and date: the type
    declared for it, or string when none is declared. *)
Theorem report_header (strptime : string → option date)
    (D : Doc.IndicatorDocument) (other : option (gmap string Doc.emitter_map))
    (r : Doc.diff_report) :
  Doc.diff strptime D other = Ok (Some r) →
  Doc.r_group_names r = Doc.group_by D
  ∧ Forall2 (λ name v, Doc.fields D !! name = Some v)
      (Doc.r_group_names r) (Doc.r_group_values r)
  ∧ ∀ name, name ∈ Doc.r_group_names r →
      ∃ t, Doc.r_group_type_map r !! name = Some t
           ∧ t ∈ Doc.ALL_TYPES
           ∧ match default ∅ (Doc.group_by_type_map D) !! name with
             | Some declared => t = declared
             | None => t = Doc.TYPE_STRING
             end.
Proof.
  intros (Htm & Hgv & Hnames & _)%diff_Some_header.
  rewrite Hnames. split; [done|]. split.
  - unfold Doc.get_group_values, Doc.get_group_names in Hgv.
    apply traverse_Ok in Hgv. eapply Forall2_impl; [exact Hgv|].
    intros name v. simpl. by destruct (Doc.fields D !! name) as [v'|]; intros [=]; subst.
  - intros name Hname.
    apply resolve_type_map_Ok in Htm as (H1 & _ & H3).
    destruct (H3 _ Hname) as (t & Ht & Hall & Hdef).
    exists t. split; [done|]. split; [done|].
    destruct (default ∅ (Doc.group_by_type_map D) !! name) as [declared|] eqn:Hd.
    + apply H1 in Hd. congruence.
    + by apply Hdef.
Qed.

Lemma report_header_witness :
  Forall2 (λ name v, Doc.fields Scenario.new_doc !! name = Some v)
    (Doc.r_group_names Scenario.expected_report)
    (Doc.r_group_values Scenario.expected_report).
Proof.
  apply (report_header Scenario.strptime Scenario.new_doc
           (Some Scenario.old_slots) Scenario.expected_report).
  vm_compute; reflexivity.
Defined.

(** X20: when a group field is declared with a type outside integer,
    string and date, [diff] never produces a report: it returns [None] if
    nothing changed, and raises [AssertionError] as soon as some emitter
    changed. *)
Theorem invalid_group_type_no_report (strptime : string → option date)
    (D : Doc.IndicatorDocument) (other : option (gmap string Doc.emitter_map))
    (name t : string) :
  name ∈ Doc.group_by D →
  default ∅ (Doc.group_by_type_map D) !! name = Some t →
  t ∉ Doc.ALL_TYPES →
  (∀ res, Doc.diff strptime D other = Ok res → res = None)
  ∧ (∀ ck dk,
       Doc.diff_keys_loop D other (Doc.keys (Doc._calculators D)) = Ok (ck :: dk) →
       Doc.diff strptime D other = Raise AssertionError).
Proof.
  intros Hname Hdecl Hbad.
  pose proof (resolve_type_map_bad _ _ _ _ Hname Hdecl Hbad) as Hres.
  split.
  - intros [r|] Hd; [|done].
    apply diff_Some_header in Hd as (Htm & _).
    unfold Doc.get_group_names in Htm. congruence.
  - intros ck dk Hdk. unfold Doc.diff, mbind, result_bind. rewrite Hdk.
    unfold Doc.get_group_names. by rewrite Hres.
Qed.

Lemma invalid_group_type_no_report_witness :
  Doc.diff Scenario.strptime
    (Doc.MkDoc (<["visits" := Scenario.visits]> ∅) ["clinic"]
       (Some (<["clinic" := "float"]> ∅)) ["demo"] "fluff" "VisitFluff"
       (<["clinic" := PScalar (SStr "c1")]> ∅)
       (Scenario.visit_slots [Scenario.ev (SDate (Date 2021 1 1)) 1] []))
    None
  = Raise AssertionError.
Proof.
  eapply (proj2 (invalid_group_type_no_report Scenario.strptime _ None
                   "clinic" "float" _ _ _)).
  vm_compute; reflexivity.
  Unshelve.
  - left.
  - vm_compute; reflexivity.
  - vm_compute. intros H. repeat (apply elem_of_cons in H as [H|H]; [discriminate H|]).
    by apply elem_of_nil in H.
Defined.

(** ** Calculation *)

Lemma traverse_Raise {A B} (f : A → result B) (l : list A) :
  (∃ e, traverse f l = Raise e) ↔ ∃ a e, a ∈ l ∧ f a = Raise e.
Proof.
  induction l as [|a l IH]; simpl.
  - split.
    + intros [e He]. discriminate He.
    + intros (a & e & Hin & _). by apply elem_of_nil in Hin.
  - unfold mbind, result_bind. destruct (f a) as [b|e0] eqn:Hfa.
    + destruct (traverse f l) as [bs|e1] eqn:Hl.
      * split.
        -- intros [e He]. discriminate He.
        -- intros (a' & e & Hin & Ha').
           apply elem_of_cons in Hin as [->|Hin]; [congruence|].
           destruct (proj2 IH) as [e' He']; [|discriminate He']. eauto.
      * split; [|eauto]. intros _.
        destruct (proj1 IH) as (a' & e & Hin & Ha'); [eauto|].
        exists a', e. split; [by right | done].
    + split; [|eauto]. intros _. exists a, e0. split; [left | done].
Qed.

Section calculate_facts.
Context {item : Type}.
Implicit Types (self : Calculate.Calculator item) (it : item).

Lemma calculate_loop_lookup passes it (l : list (string * Calculate.emitter_method item))
    acc r :
  NoDup l.*1 →
  Calculate.calculate_loop passes it l acc = Ok r →
  (∀ slug m, (slug, m) ∈ l →
     ∃ vs, Calculate.emit passes m it = Ok vs ∧ r !! slug = Some vs)
  ∧ (∀ slug, slug ∉ l.*1 → r !! slug = acc !! slug).
Proof.
  revert acc. induction l as [|[n m0] rest IH]; intros acc Hnd; simpl.
  - intros [= <-]. split; [by intros ?? ?%elem_of_nil | done].
  - rewrite fmap_cons in Hnd. simpl in Hnd.
    apply NoDup_cons in Hnd as [Hn Hnd].
    unfold mbind, result_bind.
    destruct (Calculate.emit passes m0 it) as [v|] eqn:Hv; [|done].
    intros Hloop. destruct (IH _ Hnd Hloop) as [IH1 IH2]. split.
    + intros slug m [[= -> ->]|Hin]%elem_of_cons.
      * exists v. split; [done|]. rewrite (IH2 _ Hn). apply lookup_insert_eq.
      * by apply IH1.
    + intros slug [Hne Hnin]%not_elem_of_cons.
      rewrite (IH2 _ Hnin). by apply lookup_insert_ne.
Qed.

Lemma calculate_loop_Raise passes it (l : list (string * Calculate.emitter_method item))
    acc :
  (∃ e, Calculate.calculate_loop passes it l acc = Raise e) ↔
  ∃ slug m e, (slug, m) ∈ l ∧ Calculate.emit passes m it = Raise e.
Proof.
  revert acc. induction l as [|[n m0] rest IH]; intros acc; simpl.
  - split; [by intros [e ?] | by intros (? & ? & ? & ?%elem_of_nil & _)].
  - unfold mbind, result_bind.
    destruct (Calculate.emit passes m0 it) as [v|e0] eqn:Hv.
    + rewrite IH. split.
      * intros (slug & m & e & Hin & He). exists slug, m, e. split; [by right|done].
      * intros (slug & m & e & [[= -> ->]|Hin]%elem_of_cons & He); [congruence|].
        eauto.
    + split; [|eauto]. intros _. exists n, m0, e0. split; [left | done].
Qed.

Lemma calculate_lookup self it r slug m :
  Calculate.calculate self it = Ok r →
  Calculate._fluff_emitters self !! slug = Some m →
  ∃ vs, Calculate.emit (Calculate.passes_filter self it) m it = Ok vs
        ∧ r !! slug = Some vs.
Proof.
  intros Hr Hm. unfold Calculate.calculate in Hr.
  eapply calculate_loop_lookup in Hr as [H _]; [|apply NoDup_fst_map_to_list].
  apply H. by apply elem_of_map_to_list.
Qed.

Lemma calculate_dom self it r :
  Calculate.calculate self it = Ok r →
  dom r = dom (Calculate._fluff_emitters self).
Proof.
  intros Hr. unfold Calculate.calculate in Hr.
  eapply calculate_loop_lookup in Hr as [Hin Hout]; [|apply NoDup_fst_map_to_list].
  apply set_eq. intros slug. rewrite !elem_of_dom. split.
  - intros Hsome.
    destruct (Calculate._fluff_emitters self !! slug) as [m|] eqn:Hm; [eauto|].
    rewrite Hout, lookup_empty in Hsome; [by destruct Hsome|].
    intros ([n e] & -> & Hne%elem_of_map_to_list)%list_elem_of_fmap.
    simpl in Hm. congruence.
  - intros [m Hm%elem_of_map_to_list].
    destruct (Hin _ _ Hm) as (v & _ & ->). eauto.
Qed.

End calculate_facts.

Lemma wrapped_value_canonical cls r (v : pydict) :
  Emitter.wrapped_value cls r = Ok v → Calculate.canonical cls v.
Proof.
  intros (n & Hn & Hv)%wrapped_value_Ok.
  destruct (normalize_Ok_shape _ _ Hn) as [Hx Hg].
  rewrite <- (validate_other_keys _ _ _ _ "value" Hv) in Hx by done.
  rewrite <- (validate_other_keys _ _ _ _ "group_by" Hv) in Hg by done.
  split; [done|]. split; [done|]. by eapply validate_Ok_date_ok.
Qed.

Lemma wrapped_f_canonical cls ys vs :
  Emitter.wrapped_f cls ys = Ok vs → Forall (Calculate.canonical cls) vs.
Proof.
  intros HF. apply Forall_forall. intros v Hv.
  destruct (traverse_Ok_elem _ _ _ _ HF Hv) as (y & _ & Hy).
  by eapply wrapped_value_canonical.
Qed.

(** X21: whenever [calculate] returns, its result has exactly one entry
    per emitter of the calculator; the entry of an emitter is the
    emitter's whole normalised output when the item passes the filters and
    the empty list when it does not, and every stored value has the
    canonical shape of its decorator. *)
Theorem calculate_result_shape {item : Type} (self : Calculate.Calculator item)
    (it : item) (r : gmap string (list pydict)) :
  Calculate.calculate self it = Ok r →
  dom r = dom (Calculate._fluff_emitters self)
  ∧ ∀ slug m, Calculate._fluff_emitters self !! slug = Some m →
      ∃ vs, r !! slug = Some vs
            ∧ (if Calculate.passes_filter self it
               then Emitter.wrapped_f (Calculate.decorator m) (Calculate.body m it)
                    = Ok vs
               else vs = [])
            ∧ Forall (Calculate.canonical (Calculate.decorator m)) vs.
Proof.
  intros Hr. split; [by eapply calculate_dom|].
  intros slug m Hm. destruct (calculate_lookup _ _ _ _ _ Hr Hm) as (vs & He & Hl).
  exists vs. split; [done|]. unfold Calculate.emit in He.
  destruct (Calculate.passes_filter self it).
  - split; [done|]. by eapply wrapped_f_canonical.
  - inversion He. split; [done | constructor].
Qed.

Lemma calculate_result_shape_witness :
  ∃ r, Calculate.calculate ScenarioC.visits ScenarioC.open_case = Ok r
       ∧ dom r = dom (Calculate._fluff_emitters ScenarioC.visits).
Proof.
  destruct (Calculate.calculate ScenarioC.visits ScenarioC.open_case)
    as [r|] eqn:Hr; [|vm_compute in Hr; discriminate Hr].
  exists r. split; [reflexivity|].
  exact (proj1 (calculate_result_shape _ _ _ Hr)).
Defined.

(** X22: an item that does not pass the filters gets the empty list for
    every emitter; no emitter body is run, so [calculate] cannot raise on
    it. *)
Theorem calculate_filtered_out {item : Type} (self : Calculate.Calculator item)
    (it : item) :
  Calculate.passes_filter self it = false →
  Calculate.calculate self it
  = Ok ((λ _, []) <$> Calculate._fluff_emitters self).
Proof.
  intros Hp.
  destruct (Calculate.calculate self it) as [r|e] eqn:Hr.
  - f_equal. apply map_eq. intros slug. rewrite lookup_fmap.
    destruct (Calculate._fluff_emitters self !! slug) as [m|] eqn:Hm; simpl.
    + destruct (calculate_lookup _ _ _ _ _ Hr Hm) as (vs & He & ->).
      rewrite Hp in He. by inversion He.
    + apply not_elem_of_dom. rewrite (calculate_dom _ _ _ Hr).
      by apply not_elem_of_dom.
  - exfalso. unfold Calculate.calculate in Hr. rewrite Hp in Hr.
    destruct (proj1 (calculate_loop_Raise false it
                       (map_to_list (Calculate._fluff_emitters self)) ∅))
      as (? & ? & ? & _ & He); [eauto | done].
Qed.

Lemma calculate_filtered_out_witness :
  Calculate.calculate ScenarioC.visits ScenarioC.closed_case
  = Ok ((λ _, []) <$> Calculate._fluff_emitters ScenarioC.visits).
Proof.
  apply (calculate_filtered_out ScenarioC.visits ScenarioC.closed_case).
  vm_compute; reflexivity.
Defined.

(** X23: [calculate] raises exactly when the item passes the filters and
    some emitter yields a value that its decorator refuses. *)
Theorem calculate_raises_iff {item : Type} (self : Calculate.Calculator item)
    (it : item) :
  (∃ e, Calculate.calculate self it = Raise e) ↔
  Calculate.passes_filter self it = true
  ∧ ∃ slug m y e,
      Calculate._fluff_emitters self !! slug = Some m
      ∧ y ∈ Calculate.body m it
      ∧ Emitter.wrapped_value (Calculate.decorator m) y = Raise e.
Proof.
  unfold Calculate.calculate. rewrite calculate_loop_Raise. split.
  - intros (slug & m & e & Hin%elem_of_map_to_list & He).
    unfold Calculate.emit in He.
    destruct (Calculate.passes_filter self it); [|done].
    split; [done|].
    destruct (proj1 (traverse_Raise
                       (Emitter.wrapped_value (Calculate.decorator m))
                       (Calculate.body m it))) as (y & e' & Hy & Hye); [eauto|].
    by exists slug, m, y, e'.
  - intros [Hp (slug & m & y & e & Hm & Hy & Hye)].
    destruct (proj2 (traverse_Raise (Emitter.wrapped_value (Calculate.decorator m))
                       (Calculate.body m it))) as [e' He']; [eauto|].
    exists slug, m, e'. split; [by apply elem_of_map_to_list|].
    unfold Calculate.emit. by rewrite Hp.
Qed.

Lemma calculate_raises_iff_witness :
  ∃ e, Calculate.calculate ScenarioC.broken ScenarioC.open_case = Raise e.
Proof.
  apply (proj2 (calculate_raises_iff ScenarioC.broken ScenarioC.open_case)).
  split; [vm_compute; reflexivity|].
  exists "ids",
    (Calculate.EmitterMethod Emitter.custom_null_emitter "count"
       (λ c, [RVal (PScalar (SStr (ScenarioC.case_id c)))])),
    (RVal (PScalar (SStr "c1"))), AssertionError.
  split; [vm_compute; reflexivity|]. split; [left | vm_compute; reflexivity].
Defined.

(** ** Registration *)

Section registry_facts.
Import Registry.

Lemma elem_of_collect (P : attribute → bool) (l : list (string * attribute))
    (acc : gset string) name :
  name ∈ foldl (λ (acc : gset string) kv, if P kv.2 then acc ∪ {[kv.1]} else acc)
           acc l
  ↔ name ∈ acc ∨ ∃ a, (name, a) ∈ l ∧ P a = true.
Proof.
  revert acc. induction l as [|[k a] l IH]; intros acc; simpl.
  - split; [by left|]. intros [?|(a & ?%elem_of_nil & _)]; done.
  - rewrite IH. destruct (P a) eqn:Ha; split.
    + intros [[?|Heq%elem_of_singleton]%elem_of_union|(a' & Hin & Ha')].
      * by left.
      * subst name. right. exists a. split; [left | done].
      * right. exists a'. split; [by right | done].
    + intros [?|(a' & [[= -> ->]|Hin]%elem_of_cons & Ha')].
      * left. apply elem_of_union. by left.
      * left. apply elem_of_union. right. by apply elem_of_singleton.
      * right. eauto.
    + intros [?|(a' & Hin & Ha')]; [by left|].
      right. exists a'. split; [by right | done].
    + intros [?|(a' & [[= -> ->]|Hin]%elem_of_cons & Ha')]; [by left | congruence |].
      right. eauto.
Qed.

Lemma elem_of_inherit (f : calculator_class → gset string)
    (parents : list calculator_class) (acc : gset string) name :
  name ∈ foldl (λ acc parent, acc ∪ f parent) acc parents
  ↔ name ∈ acc ∨ ∃ p, p ∈ parents ∧ name ∈ f p.
Proof.
  revert acc. induction parents as [|p parents IH]; intros acc; simpl.
  - split; [by left|]. intros [?|(p & ?%elem_of_nil & _)]; done.
  - rewrite IH, elem_of_union. split.
    + intros [[?|?]|(p' & Hin & Hp')].
      * by left.
      * right. exists p. split; [left | done].
      * right. exists p'. split; [by right | done].
    + intros [?|(p' & [->|Hin]%elem_of_cons & Hp')].
      * left. by left.
      * left. by right.
      * right. eauto.
Qed.

End registry_facts.

(** X24: the metaclass registers as emitters of a new calculator class
    the attributes of the class whose [_fluff_emitter] is a non-empty
    string together with every emitter of every parent class, and as
    filters the attributes marked by [filter_by] together with every
    filter of every parent; an inherited name stays registered whatever
    the class binds to it. *)
Theorem registered_names (counter : nat) (parents : list Registry.calculator_class)
    (attrs : gmap string Registry.attribute) (name : string) :
  (name ∈ Registry._fluff_emitters (Registry.CalculatorMeta_new counter parents attrs).1
   ↔ (∃ a, attrs !! name = Some a ∧ Registry.is_emitter a = true)
     ∨ ∃ p, p ∈ parents ∧ name ∈ Registry._fluff_emitters p)
  ∧ (name ∈ Registry._fluff_filters (Registry.CalculatorMeta_new counter parents attrs).1
     ↔ (∃ a, attrs !! name = Some a ∧ Registry._fluff_filter a = true)
       ∨ ∃ p, p ∈ parents ∧ name ∈ Registry._fluff_filters p).
Proof.
  unfold Registry.CalculatorMeta_new; simpl. split.
  - rewrite elem_of_inherit, (elem_of_collect Registry.is_emitter).
    setoid_rewrite elem_of_map_to_list.
    split; [intros [[?%not_elem_of_empty|?]|?] | intros [?|?]]; auto; done.
  - rewrite elem_of_inherit, (elem_of_collect Registry._fluff_filter).
    setoid_rewrite elem_of_map_to_list.
    split; [intros [[?%not_elem_of_empty|?]|?] | intros [?|?]]; auto; done.
Qed.

(** X25: a method wrapped by the date or the null emitter is registered
    as an emitter of its class, with or without [filter_by] on top; a
    method wrapped by a plain [base_emitter], whose [fluff_emitter] is the
    empty string, is registered only if a parent class has an emitter of
    that name. *)
Theorem decorated_method_registered (counter : nat)
    (parents : list Registry.calculator_class)
    (attrs : gmap string Registry.attribute) (name : string)
    (cls : Emitter.emitter_class) (a : Registry.attribute) :
  attrs !! name = Some a →
  a = Registry.emitter_decorated cls
  ∨ a = Registry.filter_by (Registry.emitter_decorated cls) →
  name ∈ Registry._fluff_emitters (Registry.CalculatorMeta_new counter parents attrs).1
  ↔ cls ≠ Emitter.base_emitter
    ∨ ∃ p, p ∈ parents ∧ name ∈ Registry._fluff_emitters p.
Proof.
  intros Ha Hdec.
  assert (Registry.is_emitter a = true ↔ cls ≠ Emitter.base_emitter) as Hiff.
  { destruct Hdec as [-> | ->]; by destruct cls. }
  unfold Registry.CalculatorMeta_new; simpl.
  rewrite elem_of_inherit, (elem_of_collect Registry.is_emitter).
  setoid_rewrite elem_of_map_to_list. split.
  - intros [[?%not_elem_of_empty|(a' & Ha' & He)]|?]; [done| |by right].
    left. apply Hiff. congruence.
  - intros [Hne|?]; [|by right]. left. right. exists a. split; [done|].
    by apply Hiff.
Qed.

Lemma decorated_method_registered_witness :
  "total" ∈ Registry._fluff_emitters
    (Registry.CalculatorMeta_new 0 []
       (<["total" := Registry.emitter_decorated Emitter.custom_null_emitter]>
          (<["helper" := Registry.plain]> ∅))).1.
Proof.
  apply (decorated_method_registered 0 [] _ "total" Emitter.custom_null_emitter
           (Registry.emitter_decorated Emitter.custom_null_emitter)).
  - vm_compute; reflexivity.
  - by left.
  - left. discriminate.
Defined.

(** ** Index keys *)

Lemma shared_key_inj (key : list scalar)
    (slug1 name1 slug2 name2 : string) (a b : scalar) :
  (key ++ [SStr slug1; SStr name1]) ++ [a]
  = (key ++ [SStr slug2; SStr name2]) ++ [b] →
  (slug1, name1) = (slug2, name2).
Proof.
  rewrite <- !(assoc_L (++)). intros H.
  apply (inj (app key)) in H. simpl in H. by inversion H.
Qed.

(** X26: for one group key, the queries issued for two different
    (calculator, emitter) pairs of a document class address different
    index keys, whatever the kinds and modes: results of different
    emitters cannot mix. *)
Theorem query_keys_disjoint (doc_type : string) (now : date)
    (date_sub : date → Z → date) (json_format_date : date → string)
    (key : list scalar) (self1 self2 : Calc.Calculator)
    (slug1 slug2 name1 name2 : string) (em1 em2 : Calc.emitter_fn)
    (reduce1 reduce2 : bool) (q1 q2 : Calc.view_query) :
  Calc.query doc_type slug1 now date_sub json_format_date self1 key reduce1
    name1 em1 = Ok q1 →
  Calc.query doc_type slug2 now date_sub json_format_date self2 key reduce2
    name2 em2 = Ok q2 →
  (slug1, name1) ≠ (slug2, name2) →
  Calc.q_keys q1 ≠ Calc.q_keys q2.
Proof.
  unfold Calc.query. intros H1 H2 Hne Heq. apply Hne. clear Hne.
  destruct (String.eqb (Calc._fluff_emitter em1) "date");
    [destruct (Calc.window self1); try done|
     destruct (String.eqb (Calc._fluff_emitter em1) "null"); [|done]];
  (destruct (String.eqb (Calc._fluff_emitter em2) "date");
    [destruct (Calc.window self2); try done|
     destruct (String.eqb (Calc._fluff_emitter em2) "null"); [|done]]);
  injection H1 as <-; injection H2 as <-; cbn [Calc.q_keys] in Heq;
  simpl in Heq; try discriminate Heq;
  injection Heq as Hk; by apply shared_key_inj in Hk.
Qed.

Lemma query_keys_disjoint_witness :
  Calc.ByKey [SStr "VisitFluff"; SStr "c1"; SStr "visits"; SStr "total"; SNone]
  ≠ Calc.ByKey [SStr "VisitFluff"; SStr "c1"; SStr "visits"; SStr "other"; SNone].
Proof.
  apply (query_keys_disjoint "VisitFluff" (Date 2021 1 8)
           (λ d n, Date (year d) (month d) (day d - n)) (λ _, "2021-01-08")
           [SStr "c1"] (Calc.MkCalculator Calc.WNone ∅)
           (Calc.MkCalculator Calc.WNone ∅) "visits" "visits" "total" "other"
           (Calc.EmitterFn "null" "sum") (Calc.EmitterFn "null" "sum") true true
           (Calc.ViewQuery (Calc.ByKey [SStr "VisitFluff"; SStr "c1"; SStr "visits";
                                        SStr "total"; SNone]) true false)
           (Calc.ViewQuery (Calc.ByKey [SStr "VisitFluff"; SStr "c1"; SStr "visits";
                                        SStr "other"; SNone]) true false)).
  - reflexivity.
  - reflexivity.
  - discriminate.
Defined.

(** ** Recomputation of a document *)

Lemma traverse_total {A B} (f : A → result B) (l : list A) :
  (∀ a, a ∈ l → ∃ b, f a = Ok b) → ∃ bs, traverse f l = Ok bs.
Proof.
  induction l as [|a l IH]; intros H; simpl; [eauto|].
  destruct (H a) as [b Hb]; [left|]. rewrite Hb. simpl.
  destruct IH as [bs Hbs]; [intros; apply H; by right|].
  rewrite Hbs. simpl. eauto.
Qed.

Section recompute.
Context {item : Type}.
Variable get_id : item → string.
Variable item_getitem : item → string → result pyval.
Implicit Types (self s : gmap string DocCalculate.property) (it : item).

Lemma calculate_slots_writes (l : list (string * Calculate.Calculator item)) it :
  ∃ w oe, ∀ self, DocCalculate.calculate_slots l it self = (w ∪ self, oe).
Proof.
  induction l as [|[attr c] l (w & oe & IH)]; simpl.
  - exists ∅, None. intros self. by rewrite (left_id_L ∅ (∪)).
  - destruct (Calculate.calculate c it) as [v|e].
    + exists (w ∪ {[attr := DocCalculate.PSlot v]}), oe. intros self.
      by rewrite IH, insert_union_singleton_l, (assoc_L (∪)).
    + exists ∅, (Some e). intros self. by rewrite (left_id_L ∅ (∪)).
Qed.

Lemma calculate_groups_writes (gb : list (DocCalculate.group_item item)) it :
  ∃ w oe, ∀ self, DocCalculate.calculate_groups item_getitem gb it self = (w ∪ self, oe).
Proof.
  induction gb as [|x gb (w & oe & IH)]; simpl.
  - exists ∅, None. intros self. by rewrite (left_id_L ∅ (∪)).
  - destruct (DocCalculate._wrap_if_necessary item_getitem x) as [g|e].
    + destruct (DocCalculate.getter_function g it) as [v|e].
      * exists (w ∪ {[DocCalculate.attribute g := DocCalculate.PField v]}), oe.
        intros self. by rewrite IH, insert_union_singleton_l, (assoc_L (∪)).
      * exists ∅, (Some e). intros self. by rewrite (left_id_L ∅ (∪)).
    + exists ∅, (Some e). intros self. by rewrite (left_id_L ∅ (∪)).
Qed.

Lemma calculate_writes calcs gb it :
  ∃ w oe, ∀ self,
    DocCalculate.calculate get_id item_getitem calcs gb self it = (w ∪ self, oe).
Proof.
  unfold DocCalculate.calculate.
  destruct (calculate_slots_writes (map_to_list calcs) it) as (ws & [e|] & Hs).
  { exists ws, (Some e). intros self. by rewrite Hs. }
  destruct (calculate_groups_writes gb it) as (wg & [e|] & Hg).
  { exists (wg ∪ ({[ "id" := DocCalculate.PField (PScalar (SStr (get_id it))) ]} ∪ ws)),
      (Some e).
    intros self. rewrite Hs. simpl. rewrite Hg.
    by rewrite insert_union_singleton_l, !(assoc_L (∪)). }
  destruct (DocCalculate.get_group_names item_getitem gb) as [names|e].
  - exists ({[ "group_by" := DocCalculate.PNames names ]}
            ∪ (wg ∪ ({[ "id" := DocCalculate.PField (PScalar (SStr (get_id it))) ]}
                     ∪ ws))), None.
    intros self. rewrite Hs. simpl. rewrite Hg.
    by rewrite !insert_union_singleton_l, !(assoc_L (∪)).
  - exists (wg ∪ ({[ "id" := DocCalculate.PField (PScalar (SStr (get_id it))) ]} ∪ ws)),
      (Some e).
    intros self. rewrite Hs. simpl. rewrite Hg.
    by rewrite insert_union_singleton_l, !(assoc_L (∪)).
Qed.

Lemma calculate_slots_lookup (l : list (string * Calculate.Calculator item)) it self s :
  NoDup l.*1 →
  DocCalculate.calculate_slots l it self = (s, None) →
  (∀ c calc, (c, calc) ∈ l →
     ∃ v, Calculate.calculate calc it = Ok v ∧ s !! c = Some (DocCalculate.PSlot v))
  ∧ (∀ k, k ∉ l.*1 → s !! k = self !! k).
Proof.
  revert self. induction l as [|[attr c] l IH]; intros self Hnd; simpl.
  - intros [= ->]. split; [by intros ?? ?%elem_of_nil | done].
  - rewrite fmap_cons in Hnd. simpl in Hnd.
    apply NoDup_cons in Hnd as [Hattr Hnd].
    destruct (Calculate.calculate c it) as [v|e] eqn:Hc; [|done].
    intros Hl. destruct (IH _ Hnd Hl) as [Hin Hout]. split.
    + intros c' calc' [[= -> ->]|Hc']%elem_of_cons; [|by apply Hin].
      exists v. split; [done|]. by rewrite (Hout _ Hattr), lookup_insert_eq.
    + intros k Hk. simpl in Hk.
      apply not_elem_of_cons in Hk as [Hne Hk].
      by rewrite (Hout _ Hk), lookup_insert_ne.
Qed.



Lemma calculate_groups_lookup (gb : list (DocCalculate.group_item item)) it self s :
  DocCalculate.calculate_groups item_getitem gb it self = (s, None) →
  ∃ gs, traverse (DocCalculate._wrap_if_necessary item_getitem) gb = Ok gs
        ∧ (∀ k, k ∈ DocCalculate.attribute <$> gs →
             ∃ v, s !! k = Some (DocCalculate.PField v))
        ∧ (∀ k, k ∉ DocCalculate.attribute <$> gs → s !! k = self !! k).
Proof.
  revert self. induction gb as [|x gb IH]; intros self; simpl.
  - intros [= ->]. exists []. split; [done|].
    split; [by intros ? ?%elem_of_nil | done].
  - destruct (DocCalculate._wrap_if_necessary item_getitem x) as [g|e]; [|done].
    destruct (DocCalculate.getter_function g it) as [v|e]; [|done]. simpl.
    intros Hl. destruct (IH _ Hl) as (gs & -> & Hin & Hout). simpl.
    exists (g :: gs). split; [done|]. split.
    + intros k Hk. rewrite fmap_cons in Hk.
      destruct (decide (k ∈ DocCalculate.attribute <$> gs)) as [Hk'|Hk'];
        [by apply Hin|].
      apply elem_of_cons in Hk as [->|Hk]; [|done].
      exists v. by rewrite (Hout _ Hk'), lookup_insert_eq.
    + intros k Hk. rewrite fmap_cons in Hk.
      apply not_elem_of_cons in Hk as [Hne Hk].
      by rewrite (Hout _ Hk), lookup_insert_ne.
Qed.

Lemma calculate_Ok_lookup calcs gb self it s :
  DocCalculate.calculate get_id item_getitem calcs gb self it = (s, None) →
  ∃ names,
    DocCalculate.get_group_names item_getitem gb = Ok names
    ∧ s !! "group_by" = Some (DocCalculate.PNames names)
    ∧ (∀ n, n ∈ names → n ≠ "group_by" → ∃ v, s !! n = Some (DocCalculate.PField v))
    ∧ ("id" ∉ names →
       s !! "id" = Some (DocCalculate.PField (PScalar (SStr (get_id it)))))
    ∧ (∀ c calc, calcs !! c = Some calc →
         c ∉ names → c ≠ "id" → c ≠ "group_by" →
         ∃ v, Calculate.calculate calc it = Ok v
              ∧ s !! c = Some (DocCalculate.PSlot v))
    ∧ (∀ k, calcs !! k = None → k ∉ names → k ≠ "id" → k ≠ "group_by" →
         s !! k = self !! k).
Proof.
  unfold DocCalculate.calculate.
  destruct (DocCalculate.calculate_slots _ it self) as [s1 [e|]] eqn:H1; [done|].
  destruct (DocCalculate.calculate_groups _ _ it _) as [s2 [e|]] eqn:H2; [done|].
  destruct (calculate_groups_lookup _ _ _ _ H2) as (gs & Hgs & Hin & Hout).
  unfold DocCalculate.get_group_names. rewrite Hgs. simpl.
  intros [= <-]. exists (DocCalculate.attribute <$> gs).
  destruct (calculate_slots_lookup _ _ _ _ (NoDup_fst_map_to_list calcs) H1)
    as [Hs1 Hs1'].
  split; [done|]. split; [by rewrite lookup_insert_eq|]. split; [|split; [|split]].
  - intros n Hn Hne. rewrite lookup_insert_ne by done. by apply Hin.
  - intros Hid. rewrite lookup_insert_ne by done.
    by rewrite (Hout _ Hid), lookup_insert_eq.
  - intros c calc Hc Hn Hid Hgb.
    destruct (Hs1 c calc) as (v & Hv & Hsv); [by apply elem_of_map_to_list|].
    exists v. split; [done|].
    rewrite lookup_insert_ne by done.
    by rewrite (Hout _ Hn), lookup_insert_ne.
  - intros k Hk Hn Hid Hgb.
    rewrite lookup_insert_ne by done.
    rewrite (Hout _ Hn), lookup_insert_ne by done.
    apply Hs1'. intros ((k' & calc) & -> & Hin')%list_elem_of_fmap.
    apply elem_of_map_to_list in Hin'. simpl in Hk. congruence.
Qed.

End recompute.

(** X27: when [IndicatorDocument.calculate] returns, the document's
    [group_by] holds the group names of the class, every group field
    (other than one named [group_by]) holds a value, [id] holds the
    source's identifier unless a group field has that name, every
    calculator whose slug is not shadowed by those names holds the output
    [Calculator.calculate] gave for the item, and every other property is
    as it was before the call. *)
Theorem calculate_document_contents {item : Type} (get_id : item → string)
    (item_getitem : item → string → result pyval)
    (calcs : gmap string (Calculate.Calculator item))
    (gb : list (DocCalculate.group_item item))
    (self s : gmap string DocCalculate.property) (it : item) :
  DocCalculate.calculate get_id item_getitem calcs gb self it = (s, None) →
  ∃ names,
    DocCalculate.get_group_names item_getitem gb = Ok names
    ∧ s !! "group_by" = Some (DocCalculate.PNames names)
    ∧ (∀ n, n ∈ names → n ≠ "group_by" → ∃ v, s !! n = Some (DocCalculate.PField v))
    ∧ ("id" ∉ names →
       s !! "id" = Some (DocCalculate.PField (PScalar (SStr (get_id it)))))
    ∧ (∀ c calc, calcs !! c = Some calc →
         c ∉ names → c ≠ "id" → c ≠ "group_by" →
         ∃ v, Calculate.calculate calc it = Ok v
              ∧ s !! c = Some (DocCalculate.PSlot v))
    ∧ (∀ k, calcs !! k = None → k ∉ names → k ≠ "id" → k ≠ "group_by" →
         s !! k = self !! k).
Proof. apply calculate_Ok_lookup. Qed.

Lemma calculate_document_contents_witness :
  ScenarioD.fresh !! "group_by" = Some (DocCalculate.PNames ["case_id"])
  ∧ ScenarioD.fresh !! "id" = Some (DocCalculate.PField (PScalar (SStr "c1"))).
Proof.
  destruct (calculate_document_contents ScenarioC.case_id ScenarioD.case_getitem
              ScenarioD.calculators ScenarioD.group_by ∅ ScenarioD.fresh
              ScenarioC.open_case)
    as (names & Hn & Hgb & _ & Hid & _).
  - vm_compute. reflexivity.
  - vm_compute in Hn. injection Hn as <-. split; [exact Hgb|].
    apply Hid. intros [=]%list_elem_of_singleton.
Defined.

(** X28: recomputing a document from the same item changes nothing, and
    what a successful [calculate] writes does not depend on what the
    document held before: from any other prior state the call succeeds
    too, and each property ends up either equal to the one computed here
    or untouched in both runs. *)
Theorem recalculate_idempotent {item : Type} (get_id : item → string)
    (item_getitem : item → string → result pyval)
    (calcs : gmap string (Calculate.Calculator item))
    (gb : list (DocCalculate.group_item item))
    (self s : gmap string DocCalculate.property) (it : item) :
  DocCalculate.calculate get_id item_getitem calcs gb self it = (s, None) →
  DocCalculate.calculate get_id item_getitem calcs gb s it = (s, None)
  ∧ ∀ self', ∃ s',
      DocCalculate.calculate get_id item_getitem calcs gb self' it = (s', None)
      ∧ ∀ k, s' !! k = s !! k ∨ (s' !! k = self' !! k ∧ s !! k = self !! k).
Proof.
  destruct (calculate_writes get_id item_getitem calcs gb it) as (w & oe & Hw).
  rewrite Hw. intros [= <- ->]. split.
  - by rewrite Hw, (assoc_L (∪)), (idemp_L (∪)).
  - intros self'. exists (w ∪ self'). split; [done|]. intros k.
    rewrite !lookup_union. destruct (w !! k) as [p|].
    + left. by rewrite !(union_Some_l).
    + right. by rewrite !(left_id_L None union).
Qed.

Lemma recalculate_idempotent_witness :
  ScenarioD.calculate ScenarioD.calculators ScenarioD.fresh ScenarioC.open_case
  = (ScenarioD.fresh, None).
Proof.
  apply (recalculate_idempotent ScenarioC.case_id ScenarioD.case_getitem
           ScenarioD.calculators ScenarioD.group_by ∅ ScenarioD.fresh
           ScenarioC.open_case).
  vm_compute. reflexivity.
Defined.



Section diff_total.
Variable strptime : string → option date.

Lemma resolve_type_map_total names m :
  (∀ n t, n ∈ names → m !! n = Some t → t ∈ Doc.ALL_TYPES) →
  ∃ m', Doc.resolve_type_map names m = Ok m'.
Proof.
  revert m. induction names as [|a names IH]; intros m H; simpl; [eauto|].
  destruct (m !! a) as [t|] eqn:Ha.
  - rewrite bool_decide_eq_true_2 by (eapply H; [left|done]).
    apply IH. intros n t' Hn. apply H. by right.
  - apply IH. intros n t' Hn.
    destruct (decide (n = a)) as [->|Hne].
    + rewrite lookup_insert_eq. intros [= <-]. apply elem_of_cons. right. apply elem_of_cons. by left.
    + rewrite lookup_insert_ne by done. apply H. by right.
Qed.

Lemma diff_keys_absent_total (D : Doc.IndicatorDocument) names :
  (∀ c, c ∈ names → is_Some (Doc.slots D !! c)) →
  ∃ dk, Doc.diff_keys_loop D None names = Ok dk
        ∧ ∀ ck, ck ∈ dk →
            ck.1 ∈ names
            ∧ ∃ m, Doc.slots D !! ck.1 = Some m
                   ∧ ∀ e, e ∈ ck.2 → is_Some (m !! e).
Proof.
  induction names as [|c names IH]; intros H; simpl.
  - exists []. split; [done|]. by intros ? ?%elem_of_nil.
  - destruct (H c) as [m Hm]; [left|]. unfold Doc.getitem at 1. rewrite Hm. simpl.
    destruct IH as (tl & -> & Htl); [intros; apply H; by right|]. simpl.
    assert (∀ ck, ck ∈ tl → ck.1 ∈ c :: names
              ∧ ∃ m, Doc.slots D !! ck.1 = Some m ∧ ∀ e, e ∈ ck.2 → is_Some (m !! e))
      as Htl'.
    { intros ck Hck. destruct (Htl ck Hck) as [? ?]. split; [by right|done]. }
    destruct (filter _ (map_to_list m)) as [|kv kvs] eqn:Hf.
    + by exists tl.
    + eexists. split; [done|]. intros ck [->|Hck]%elem_of_cons; [|by apply Htl'].
      simpl. split; [left|]. exists m. split; [done|].
      intros e He. change (e ∈ (kv :: kvs).*1) in He.
      apply list_elem_of_fmap in He as ((e' & vs) & -> & Hin).
      rewrite <- Hf in Hin. apply list_elem_of_filter in Hin as [_ Hin].
      apply elem_of_map_to_list in Hin. simpl. eauto.
Qed.

Lemma diff_absent_total (D : Doc.IndicatorDocument) :
  (∀ c calc, Doc._calculators D !! c = Some calc →
     ∃ m, Doc.slots D !! c = Some m
          ∧ ∀ e vs, m !! e = Some vs →
              is_Some (Calc._fluff_emitters calc !! e)
              ∧ ∀ v, v ∈ vs → ∃ d, Doc.NormalizedEmittedValue strptime v = Ok d) →
  (∀ n, n ∈ Doc.group_by D → is_Some (Doc.fields D !! n)) →
  (∀ n t, n ∈ Doc.group_by D →
     default ∅ (Doc.group_by_type_map D) !! n = Some t → t ∈ Doc.ALL_TYPES) →
  ∃ res, Doc.diff strptime D None = Ok res.
Proof.
  intros Hslots Hfields Htypes. unfold Doc.diff.
  destruct (diff_keys_absent_total D (Doc.keys (Doc._calculators D)))
    as (dk & -> & Hdk).
  { intros c [calc Hc]%elem_of_keys. destruct (Hslots c calc Hc) as (m & -> & _).
    eauto. }
  simpl. destruct dk as [|ck0 dk0] eqn:Edk; [eauto|]. rewrite <- Edk in *.
  clear Edk ck0 dk0.
  destruct (resolve_type_map_total (Doc.get_group_names D)
              (default ∅ (Doc.group_by_type_map D))) as [tm ->]; [done|].
  simpl.
  destruct (traverse_total
              (λ attr, match Doc.fields D !! attr with
                       | Some v => Ok v
                       | None => Raise AttributeError
                       end) (Doc.get_group_names D)) as [gv Hgv].
  { intros n Hn. destruct (Hfields n Hn) as [v ->]. eauto. }
  unfold Doc.get_group_values. rewrite Hgv. simpl.
  destruct (traverse_total
              (λ ck, Doc._indicator_diff strptime D ck.1 ck.2 None) dk)
    as [chs ->].
  { intros ck Hck. destruct (Hdk ck Hck) as [[calc Hc]%elem_of_keys (m & Hm & He)].
    destruct (Hslots _ calc Hc) as (m' & Hm' & Hdecl).
    assert (m' = m) as -> by congruence.
    apply traverse_total. intros e [vs Hvs]%He.
    destruct (Hdecl e vs Hvs) as [[em Hem] Hnev].
    unfold Doc.values_diff.
    rewrite (proj2 (stored_Ok _ _ _ vs)) by eauto. simpl.
    destruct (traverse_total (Doc.NormalizedEmittedValue strptime) vs Hnev)
      as [ds ->]. simpl.
    unfold Doc._indicator_meta. rewrite Hc, Hem. eauto. }
  simpl.
  destruct (traverse_total
              (λ calc_name,
                 m ← Doc.getitem (Doc.slots D) calc_name;
                 traverse (λ emitter_name,
                             Doc._indicator_meta D calc_name emitter_name None)
                          (Doc.keys m))
              (Doc.keys (Doc._calculators D))) as [per Hper].
  { intros c [calc Hc]%elem_of_keys.
    destruct (Hslots _ calc Hc) as (m & Hm & Hdecl).
    unfold Doc.getitem. rewrite Hm. simpl.
    apply traverse_total. intros e [vs Hvs]%elem_of_keys.
    destruct (Hdecl e vs Hvs) as [[em Hem] _].
    unfold Doc._indicator_meta. rewrite Hc, Hem. eauto. }
  unfold Doc.inventory. rewrite Hper. simpl. eauto.
Qed.

End diff_total.

Lemma NormalizedEmittedValue_canonical (strptime : string → option date)
    cls (d : pydict) :
  cls ≠ Emitter.base_emitter → Emitter.date_ok cls d →
  Doc.NormalizedEmittedValue strptime (RDict d) = Ok d.
Proof.
  intros Hcls Hd. unfold Doc.NormalizedEmittedValue. simpl.
  destruct cls; [done| |].
  - destruct Hd as [dt ->]. done.
  - simpl in Hd. rewrite Hd. done.
Qed.

(** X30: a document that [calculate] has just filled can always be
    diffed against no snapshot: provided the calculator slugs differ from
    the group names, [id] and [group_by], no group field is called
    [group_by], the declared group types are known ones, and every emitter
    is of the date or the null kind, [diff(None)] returns and does not
    raise. *)
Theorem calculated_document_diffs {item : Type} (strptime : string → option date)
    (get_id : item → string) (item_getitem : item → string → result pyval)
    (windows : gmap string Calc.pywindow)
    (calcs : gmap string (Calculate.Calculator item))
    (gb : list (DocCalculate.group_item item)) (names : list string)
    (type_map : option (gmap string string)) (domains : list string)
    (app_label doc_type : string)
    (self s : gmap string DocCalculate.property) (it : item) :
  DocCalculate.calculate get_id item_getitem calcs gb self it = (s, None) →
  DocCalculate.get_group_names item_getitem gb = Ok names →
  (∀ c, is_Some (calcs !! c) → (c ∉ names) ∧ c ≠ "id" ∧ c ≠ "group_by") →
  "group_by" ∉ names →
  (∀ n t, n ∈ names → default ∅ type_map !! n = Some t → t ∈ Doc.ALL_TYPES) →
  (∀ c calc e m, calcs !! c = Some calc →
     Calculate._fluff_emitters calc !! e = Some m →
     Calculate.decorator m ≠ Emitter.base_emitter) →
  ∃ res,
    Doc.diff strptime
      (DocCalculate.as_document windows calcs names type_map domains app_label
         doc_type s) None = Ok res.
Proof.
  intros Hcalc Hnames Hdisj Hgb Htypes Hdec.
  destruct (calculate_Ok_lookup _ _ _ _ _ _ _ Hcalc)
    as (names' & Hnames' & _ & Hfields & _ & Hslots & _).
  assert (names' = names) as -> by congruence.
  apply diff_absent_total; simpl.
  - intros c calc' Hc. unfold DocCalculate.describe_calculators in Hc.
    rewrite map_lookup_imap in Hc.
    destruct (calcs !! c) as [calc|] eqn:Ec; simpl in Hc; [|done].
    injection Hc as <-.
    destruct (Hdisj c) as (Hn & Hi & Hg); [by rewrite Ec|].
    destruct (Hslots c calc Ec Hn Hi Hg) as (v & Hv & Hsv).
    exists (fmap (M := list) RDict <$> v). split.
    { unfold DocCalculate.slots_of. by rewrite lookup_omap, Hsv. }
    intros e vs Hvs. rewrite lookup_fmap in Hvs.
    destruct (v !! e) as [vs0|] eqn:Hve; simpl in Hvs; [|done].
    injection Hvs as <-.
    assert (is_Some (Calculate._fluff_emitters calc !! e)) as [m Hm].
    { apply elem_of_dom. rewrite <- (calculate_dom _ _ _ Hv).
      apply elem_of_dom. eauto. }
    split; [simpl; rewrite lookup_fmap, Hm; eauto|].
    destruct (calculate_lookup _ _ _ _ _ Hv Hm) as (vs' & Hemit & Hvs').
    assert (vs' = vs0) as -> by congruence.
    intros x (d & -> & Hd)%list_elem_of_fmap. exists d.
    unfold Calculate.emit in Hemit.
    destruct (Calculate.passes_filter calc it).
    + apply wrapped_f_canonical in Hemit.
      rewrite Forall_forall in Hemit. destruct (Hemit d Hd) as (_ & _ & Hdate).
      eapply NormalizedEmittedValue_canonical; [|done]. by eapply Hdec.
    + injection Hemit as <-. by apply elem_of_nil in Hd.
  - intros n Hn. destruct (Hfields n Hn) as [v Hv]; [congruence|].
    unfold DocCalculate.fields_of. by rewrite lookup_omap, Hv.
  - done.
Qed.


Lemma calculated_document_diffs_witness :
  ∃ res,
    Doc.diff Scenario.strptime
      (DocCalculate.as_document ∅ ScenarioD.calculators ["case_id"] None
         ["d"] "app" "VisitFluff" ScenarioD.fresh) None = Ok res.
Proof.
  apply (calculated_document_diffs Scenario.strptime ScenarioC.case_id
           ScenarioD.case_getitem ∅ ScenarioD.calculators ScenarioD.group_by
           ["case_id"] None ["d"] "app" "VisitFluff" ∅ ScenarioD.fresh
           ScenarioC.open_case).
  - vm_compute. reflexivity.
  - reflexivity.
  - intros c [calc Hc]. unfold ScenarioD.calculators in Hc.
    apply lookup_insert_Some in Hc as [[<- _]|[_ Hc]];
      [|by rewrite lookup_empty in Hc].
    split; [by intros [=]%list_elem_of_singleton|]. split; discriminate.
  - intros [=]%list_elem_of_singleton.
  - intros n t _ Ht. simpl in Ht. by rewrite lookup_empty in Ht.
  - intros c calc e m Hc. unfold ScenarioD.calculators in Hc.
    apply lookup_insert_Some in Hc as [[_ <-]|[_ Hc]];
      [|by rewrite lookup_empty in Hc].
    simpl. intros Hm.
    apply lookup_insert_Some in Hm as [[_ <-]|[_ Hm]]; [discriminate|].
    apply lookup_insert_Some in Hm as [[_ <-]|[_ Hm]]; [discriminate|].
    by rewrite lookup_empty in Hm.
Defined.
